(** * Translation synchronisation engine of adapter-dev

    A shallow embedding of [build/translate-adapter-handlers.js], the
    properties its specification states about it, and further properties
    of the code.

    Conventions of the embedding.

    - A JavaScript string is a Rocq [string]; a character is one [ascii]
      code.  The [i] flag of the file pattern folds the case of the ASCII
      letters here; the engine also folds letters above 127, so statements
      that say which names the pattern matches take the base name to be
      ASCII.  Strings are ordered by their codes, which is the order of
      [sort()] on ASCII strings.
    - A plain JavaScript object used as a map is an [Obj.t]: the list of its
      own properties in insertion order.  Assigning to an existing property
      keeps its position, assigning to a fresh one appends it.  This is the
      order [Object.keys] and [Object.entries] enumerate, except for keys
      that are array indices ([0], [7], [10]), which the engine lists first
      and by value: statements about the order of keys exclude such keys.
    - Reading [o[k]] with a key that comes from data goes through
      [Object.prototype]: without an own property [k], a name such as
      [constructor] or [toString] gives the inherited member
      ([prototypeMembers], [lacks], [present]).  [Object.prototype] and the
      built-in functions are the same for every object, and the model keeps
      them as they are when a run starts: where the source would assign to
      one of them, the definition says so and does not follow the effect.
    - [undefined] is [None]; a value used as a condition is falsy when it is
      [undefined] or the empty string.
    - A thrown exception is [None] (or [Err]) in the result.
    - [await] is sequencing: the source never runs two operations at once.
    - Files holding JSON are a map from path to parsed content; the words
      file is a text of its own. *)

From Stdlib Require Import String Ascii List Bool Arith ZArith Lia Sorted.
Import ListNotations.
Local Open Scope list_scope.
Local Open Scope string_scope.

(** ** Option monad for code that may throw *)

Definition obind {A B : Type} (m : option A) (k : A -> option B) : option B :=
  match m with
  | Some a => k a
  | None => None
  end.

Notation "x <- m ;; k" := (obind m (fun x => k))
  (at level 61, m at next level, right associativity).
Notation "' p <- m ;; k" := (obind m (fun x => let p := x in k))
  (at level 61, p pattern, m at next level, right associativity).

(** A [for ... of] loop whose body may throw. *)
Fixpoint foldM {S A : Type} (body : S -> A -> option S) (xs : list A) (s : S)
  : option S :=
  match xs with
  | [] => Some s
  | x :: rest => s' <- body s x ;; foldM body rest s'
  end.

(** ** JavaScript objects as ordered maps *)

Module Obj.
Section WithValue.
Context {V : Type}.

Definition t := list (string * V).

Definition empty : t := [].

(** [o[k]] *)
Fixpoint get (o : t) (k : string) : option V :=
  match o with
  | [] => None
  | (k', v) :: rest => if String.eqb k' k then Some v else get rest k
  end.

(** [o[k] = v] *)
Fixpoint set (o : t) (k : string) (v : V) : t :=
  match o with
  | [] => [(k, v)]
  | (k', v') :: rest =>
      if String.eqb k' k then (k', v) :: rest else (k', v') :: set rest k v
  end.

(** [Object.keys(o)] *)
Definition keys (o : t) : list string := map fst o.

(** [o.hasOwnProperty(k)] *)
Definition hasOwn (o : t) (k : string) : bool :=
  match get o k with Some _ => true | None => false end.
End WithValue.
Arguments t : clear implicits.
End Obj.

(** A flat JSON document and a translation entry: key to string. *)
Definition Json := Obj.t string.
Definition Entry := Obj.t string.
(** The word dictionary: phrase key to entry. *)
Definition Dict := Obj.t Entry.
(** The JSON files on disk: path to parsed content. *)
Definition FS := Obj.t Json.

(** [!v] for a value that is a string or [undefined]. *)
Definition falsy (v : option string) : bool :=
  match v with
  | None => true
  | Some s => String.eqb s ""
  end.

Definition truthy (v : option string) : bool := negb (falsy v).

(** [a || b] *)
Definition jsOr (a b : option string) : option string :=
  if truthy a then a else b.

(** ** Helpers *)

(** [Object.keys(_languages)] *)
Definition getLanguages : list string :=
  ["en"; "de"; "ru"; "pt"; "nl"; "fr"; "it"; "es"; "pl"; "zh-cn"].
Arguments getLanguages : simpl never.

(** [getLanguages().reduce((obj, curr) => ({...obj, [curr]: createDefault()}), {})] *)
Definition createEmptyLangObject {V : Type} (createDefault : unit -> V) : Obj.t V :=
  fold_left (fun obj curr => Obj.set obj curr (createDefault tt)) getLanguages Obj.empty.

(** [languages.includes(lang)] *)
Definition includes (l : list string) (x : string) : bool :=
  existsb (String.eqb x) l.

(** *** What every object inherits *)

(** The members of [Object.prototype].  For one of these names and an
    object without an own property by that name, [o[k]] is the inherited
    member: a function, or for [__proto__] the prototype itself. *)
Definition prototypeMembers : list string :=
  ["constructor"; "__defineGetter__"; "__defineSetter__"; "hasOwnProperty";
   "__lookupGetter__"; "__lookupSetter__"; "isPrototypeOf";
   "propertyIsEnumerable"; "toString"; "valueOf"; "__proto__"; "toLocaleString"].

Definition inherited (k : string) : bool := includes prototypeMembers k.

(** [!o[k]] for a map of strings: an own value counts when it is not
    empty; without an own value an inherited member counts. *)
Definition lacks (o : Json) (k : string) : bool :=
  match Obj.get o k with
  | Some s => String.eqb s ""
  | None => negb (inherited k)
  end.

(** [!!d[k]] for a map of objects. *)
Definition present {V : Type} (d : Obj.t V) (k : string) : bool :=
  Obj.hasOwn d k || inherited k.

(** [o[k] = v] for a string [v] and a key that comes from data.  Without
    an own property [__proto__] the assignment goes to the accessor of
    [Object.prototype], which ignores a string: no property is made. *)
Definition assign (o : Json) (k : string) (v : string) : Json :=
  if String.eqb k "__proto__" && negb (Obj.hasOwn o k) then o else Obj.set o k v.

(** *** Character classes of the regular expressions *)

Definition between (lo hi n : nat) : bool := Nat.leb lo n && Nat.leb n hi.

(** [\w]: letters, digits and the underscore. *)
Definition wordChar (c : ascii) : bool :=
  let n := nat_of_ascii c in
  between 48 57 n || between 65 90 n || between 97 122 n || Nat.eqb n 95.

(** [\W] *)
Definition nonword (c : ascii) : bool := negb (wordChar c).

(** [[a-z-]] under the [i] flag. *)
Definition langChar (c : ascii) : bool :=
  let n := nat_of_ascii c in
  between 97 122 n || between 65 90 n || Nat.eqb n 45.

(** Case folding of the [i] flag on one character, for the ASCII letters.
    The engine folds letters above 127 as well; a pattern whose literal
    segments are ASCII matches no such letter, and the statements about
    matched names are made for such patterns. *)
Definition upper (c : ascii) : ascii :=
  let n := nat_of_ascii c in
  if between 97 122 n then ascii_of_nat (n - 32) else c.

Definition ciCharEqb (a b : ascii) : bool := Ascii.eqb (upper a) (upper b).

(** ** createFilePattern *)

Inductive result (A : Type) : Type :=
| Ok (a : A)
| Err (message : string).
Arguments Ok {A} a.
Arguments Err {A} message.

(** The regular expression [^(PRE)([a-z-]+)(SUF)$] with flag [i], kept as
    its two literal segments.  [util.escapeRegExp] is not part of the
    sources at hand; it is taken to do what its name says, so that every
    character of the base file name stands for itself in the pattern. *)
Record FilePattern : Type := mkPattern {
  fp_prefix : string;
  fp_suffix : string
}.

(** Does the text start with [en] followed by a non-word character?  Gives
    what follows [en]. *)
Definition afterEn (s : string) : option string :=
  match s with
  | String a (String b (String c rest)) =>
      if Ascii.eqb a "e" && Ascii.eqb b "n" && nonword c
      then Some (String c rest) else None
  | _ => None
  end.

(** The leftmost [en] between two non-word characters: the text up to it
    and the text after it.  This is where [/\Wen\W/] first matches and where
    [/(?<=\W)en(?=\W)/] is replaced. *)
Fixpoint splitAtEn (s : string) : option (string * string) :=
  match s with
  | EmptyString => None
  | String c rest =>
      match (if nonword c then afterEn rest else None) with
      | Some suf => Some (String c EmptyString, suf)
      | None =>
          match splitAtEn rest with
          | Some (pre, suf) => Some (String c pre, suf)
          | None => None
          end
      end
  end.

Definition createFilePattern (baseFile : string) : result FilePattern :=
  match splitAtEn baseFile with
  | None => Err "Base file must be an English JSON file"
  | Some (pre, suf) => Ok (mkPattern pre suf)
  end.

(** [PRE] as a case-insensitive prefix of the text: what remains after it. *)
Fixpoint ciStrip (pre s : string) : option string :=
  match pre with
  | EmptyString => Some s
  | String a pre' =>
      match s with
      | EmptyString => None
      | String b s' => if ciCharEqb a b then ciStrip pre' s' else None
      end
  end.

Fixpoint ciEqb (a b : string) : bool :=
  match a, b with
  | EmptyString, EmptyString => true
  | String x a', String y b' => ciCharEqb x y && ciEqb a' b'
  | _, _ => false
  end.

Fixpoint allChars (p : ascii -> bool) (s : string) : bool :=
  match s with
  | EmptyString => true
  | String c rest => p c && allChars p rest
  end.

(** [file.match(filePattern)], then [match[2]].  The two literal segments
    have fixed lengths, so the language segment is whatever lies between
    them; it has to be non-empty and made of [[a-z-]] characters. *)
Definition matchLang (p : FilePattern) (file : string) : option string :=
  rest <- ciStrip (fp_prefix p) file ;;
  let k := String.length rest - String.length (fp_suffix p) in
  let lang := substring 0 k rest in
  if Nat.ltb 0 k && allChars langChar lang
     && ciEqb (substring k (String.length (fp_suffix p)) rest) (fp_suffix p)
  then Some lang else None.

(** [baseFile.replace(filePattern, `$1${lang}$3`)] for a pattern made from
    [baseFile]: the pattern matches the whole name, so the result is the
    prefix, the language and the suffix. *)
Definition langFileName (p : FilePattern) (lang : string) : string :=
  fp_prefix p ++ lang ++ fp_suffix p.

(** The specification's reading of a valid reference name: the token [en]
    with a non-word character on each side. *)
Definition hasEnToken (s : string) : Prop :=
  exists pre c1 c2 suf,
    s = pre ++ String c1 ("en" ++ String c2 suf)
    /\ nonword c1 = true /\ nonword c2 = true.

(** ** JSON files *)

(** [readJson(path)]: throws when there is no such file. *)
Definition readJson (fs : FS) (path : string) : option Json := Obj.get fs path.

(** [writeJson(path, content)].  Directories are not modelled, so
    [ensureDir] has nothing to do. *)
Definition writeJson (fs : FS) (path : string) (content : Json) : FS :=
  Obj.set fs path content.

(** ** String methods *)

(** [s.indexOf(c)] and [s.lastIndexOf(c)] for a one-character [c]: [-1]
    when there is none. *)
Fixpoint indexOf (c : ascii) (s : string) : Z :=
  match s with
  | EmptyString => (-1)%Z
  | String d rest =>
      if Ascii.eqb d c then 0%Z
      else let i := indexOf c rest in if (i <? 0)%Z then (-1)%Z else (i + 1)%Z
  end.

Fixpoint lastIndexOf (c : ascii) (s : string) : Z :=
  match s with
  | EmptyString => (-1)%Z
  | String d rest =>
      let i := lastIndexOf c rest in
      if (0 <=? i)%Z then (i + 1)%Z
      else if Ascii.eqb d c then 0%Z else (-1)%Z
  end.

(** [s.substring(start, end)]: both bounds are clamped to the string and
    swapped when out of order. *)
Definition jsSubstring (s : string) (start stop : Z) : string :=
  let n := Z.of_nat (String.length s) in
  let a := Z.max 0 (Z.min start n) in
  let b := Z.max 0 (Z.min stop n) in
  let lo := Z.min a b in
  let hi := Z.max a b in
  substring (Z.to_nat lo) (Z.to_nat (hi - lo)) s.

(** ** createWordsJs *)

Definition dquote : ascii := ascii_of_nat 34.
Definition backslash : ascii := ascii_of_nat 92.
Definition newline : ascii := ascii_of_nat 10.

(** A one-character string holding the double quote. *)
Definition quoteStr : string := String dquote EmptyString.

(** [s.replace(/QUOTE/g, BACKSLASH QUOTE)]: a backslash goes before every
    double quote, nothing else changes. *)
Fixpoint escapeQuotes (s : string) : string :=
  match s with
  | EmptyString => EmptyString
  | String c rest =>
      if Ascii.eqb c dquote
      then String backslash (String dquote (escapeQuotes rest))
      else String c (escapeQuotes rest)
  end.

Fixpoint spaces (n : nat) : string :=
  match n with
  | O => EmptyString
  | S k => String " " (spaces k)
  end.

(** Modelled from the spec: [util.padRight] is not among the sources at
    hand.  The specification has every rendered piece padded to a fixed
    minimum column width: spaces are added on the right up to the width,
    and a longer text is left as it is. *)
Definition padRight (text : string) (totalLength : nat) : string :=
  text ++ spaces (totalLength - String.length text).

(** White space for [trim] and [trimEnd]: the space, tab, line feed,
    vertical tab, form feed and carriage return. *)
Definition isSpace (c : ascii) : bool :=
  let n := nat_of_ascii c in Nat.eqb n 32 || between 9 13 n.

Fixpoint trimStart (s : string) : string :=
  match s with
  | EmptyString => EmptyString
  | String c rest => if isSpace c then trimStart rest else s
  end.

Fixpoint trimEnd (s : string) : string :=
  match s with
  | EmptyString => EmptyString
  | String c rest =>
      match trimEnd rest with
      | EmptyString => if isSpace c then EmptyString else String c EmptyString
      | r => String c r
      end
  end.

Definition trim (s : string) : string := trimStart (trimEnd s).

(** [os.EOL], on a POSIX system. *)
Definition EOL : string := String newline EmptyString.

(** [line += QUOTE lang QUOTE: QUOTE text SPACE] with
    [text = padRight(item.replace(...) + QUOTE COMMA, 50)] *)
Definition langItem (line : string) (e : string * string) : string :=
  let (lang, item) := e in
  let text := padRight (escapeQuotes item ++ quoteStr ++ ",") 50 in
  line ++ quoteStr ++ lang ++ quoteStr ++ ": " ++ quoteStr ++ text ++ " ".

Definition wordLine (e : string * Entry) : string :=
  let (word, translations) := e in
  let line := fold_left langItem translations "" in
  let line :=
    if String.eqb line "" then line
    else
      let line := trim line in
      jsSubstring line 0 (Z.of_nat (String.length line) - 1) in
  let preamble := padRight (quoteStr ++ escapeQuotes word ++ quoteStr ++ ": {") 50 in
  "    " ++ preamble ++ line ++ "},".

Definition banner : list string :=
  [ "/*global systemDictionary:true */";
    "/*";
    "+===================== DO NOT MODIFY ======================+";
    "| This file was generated by translate-adapter, please use |";
    "| `translate-adapter adminLanguages2words` to update it.   |";
    "+===================== DO NOT MODIFY ======================+";
    "*/";
    "'use strict';" ++ String newline EmptyString ].

Definition createWordsJs (data : Dict) : string :=
  let lines := (banner ++ ["systemDictionary = {"] ++ map wordLine data ++ ["};"])%list in
  trimEnd (String.concat EOL lines).

(** ** The implementation, over its external collaborators *)

(** One call of the translation capability: [translateText(text, lang)]. *)
Record Call : Type := mkCall {
  call_text : string;
  call_lang : string
}.

(** A call made while a language file is filled: the file being filled and
    the key that receives the result, next to the call itself. *)
Record Fill : Type := mkFill {
  fill_file : string;
  fill_key : string;
  fill_call : Call
}.

(** The two kinds of [console.warn] of [adminLanguages2words]:
    [Take from current words.js: KEY] and [Missing LANG: KEY]. *)
Inductive Warning : Type :=
| TakeFromWords (key : string)
| MissingLang (lang key : string).

(** The fields of [content.common] that [translateIoPackage] reads: the
    news, a map from version to entry, the title entry with the plain title
    as its fallback, and the description entry.  Each is [None] when the
    field is absent.  The rest of the document is written back as it was
    read and is not represented. *)
Record Common : Type := mkCommon {
  news : option (Obj.t Entry);
  titleLang : option Entry;
  title : option string;
  desc : option Entry
}.

(** The languages, among those given, for which the entry has no
    non-empty value: [ls.filter((lang) => !entry[lang])]. *)
Definition missingAmong (entry : Entry) (ls : list string) : list string :=
  filter (fun lang => falsy (Obj.get entry lang)) ls.

Definition missingLangs (entry : Entry) : list string :=
  missingAmong entry getLanguages.

Section Engine.

(** [translate.translateText], taken as a function of its arguments. *)
Variable translateText : string -> string -> string.

(** Whether [tiny-glob] on [admin/**/*.json] yields this path. *)
Variable underAdmin : string -> bool.

(** [new Function(text)()] for a text [return EXPR;]: the value of the
    expression as a dictionary, or [None] when the evaluation throws or
    gives something else. *)
Variable evalJs : string -> option Dict.

(** *** translateNotExisting *)

Definition notExistingStep (text : string) (st : Entry * list Call) (lang : string)
  : Entry * list Call :=
  let (obj, log) := st in
  if falsy (Obj.get obj lang)
  then (Obj.set obj lang (translateText text lang), (log ++ [mkCall text lang])%list)
  else st.

Definition translateNotExisting (obj : Entry) (baseText : option string)
  : Entry * list Call :=
  let text := jsOr (Obj.get obj "en") baseText in
  match text with
  | Some text =>
      if String.eqb text "" then (obj, [])
      else fold_left (notExistingStep text) getLanguages (obj, [])
  | None => (obj, [])
  end.

(** *** translateIoPackage *)

(** The loop over [Object.entries(content.common.news)]: every entry is
    filled in place, so the map keeps its keys and their order. *)
Definition newsStep (st : Obj.t Entry * list Call) (e : string * Entry)
  : Obj.t Entry * list Call :=
  let (done, log) := st in
  let (k, nw) := e in
  let (nw', calls) := translateNotExisting nw None in
  ((done ++ [(k, nw')])%list, (log ++ calls)%list).

Definition translateNews (news : Obj.t Entry) : Obj.t Entry * list Call :=
  fold_left newsStep news ([], []).

(** A field that is filled when it is there: [if (field) await
    translateNotExisting(field, baseText)]. *)
Definition translateField (field : option Entry) (baseText : option string)
  : option Entry * list Call :=
  match field with
  | Some obj => let (obj', calls) := translateNotExisting obj baseText in (Some obj', calls)
  | None => (None, [])
  end.

(** [translateIoPackage]: what it makes of [content.common] between
    reading and writing the file, and the calls it makes. *)
Definition translateIoPackage (common : Common) : Common * list Call :=
  let (news', calls1) :=
    match news common with
    | Some n => let (n', calls) := translateNews n in (Some n', calls)
    | None => (None, [])
    end in
  let (titleLang', calls2) := translateField (titleLang common) (title common) in
  let (desc', calls3) := translateField (desc common) None in
  (mkCommon news' titleLang' (title common) desc', (calls1 ++ calls2 ++ calls3)%list).

(** *** translateI18nJson *)

(** [if (!content[t]) content[t] = await translateText(base, lang)].  The
    test reads through the prototype, so a base key that names an inherited
    member is taken for translated unless the content has it as an own,
    empty property; the assignment is therefore never one to the inherited
    [__proto__]. *)
Definition i18nJsonStep (lang : string) (st : Json * list (string * Call))
  (e : string * string) : Json * list (string * Call) :=
  let (content, log) := st in
  let (t, base) := e in
  if lacks content t
  then (Obj.set content t (translateText base lang),
        (log ++ [(t, mkCall base lang)])%list)
  else st.

Definition translateI18nJson (content : Json) (lang : string) (baseContent : Json)
  : Json * list (string * Call) :=
  if String.eqb lang "en" then (content, [])
  else fold_left (i18nJsonStep lang) baseContent (content, []).

(** *** findAllLanguageFiles *)

Definition glob (fs : FS) : list string := filter underAdmin (Obj.keys fs).

Definition isLanguageFile (pat : FilePattern) (file : string) : bool :=
  match matchLang pat file with
  | None => false
  | Some lang => includes getLanguages lang
  end.

Definition findAllLanguageFiles (baseFile : string) (fs : FS) : option (list string) :=
  match createFilePattern baseFile with
  | Err _ => None
  | Ok pat => Some (filter (isLanguageFile pat) (glob fs))
  end.

(** *** translateI18n *)

Record I18nState : Type := mkI18nState {
  st_fs : FS;
  st_missing : list string;
  st_log : list Fill
}.

Definition fillsOf (file : string) (calls : list (string * Call)) : list Fill :=
  map (fun kc => mkFill file (fst kc) (snd kc)) calls.

(** The body of the loop over the files found. *)
Definition existingFileStep (pat : FilePattern) (baseContent : Json)
  (st : I18nState) (file : string) : option I18nState :=
  match matchLang pat file with
  | None => Some st
  | Some lang =>
      let missing := remove string_dec lang (st_missing st) in
      if String.eqb lang "en" then Some (mkI18nState (st_fs st) missing (st_log st))
      else
        translation <- readJson (st_fs st) file ;;
        let (translation', calls) := translateI18nJson translation lang baseContent in
        Some (mkI18nState (writeJson (st_fs st) file translation') missing
                          (st_log st ++ fillsOf file calls)%list)
  end.

(** The body of the loop over the languages still missing. *)
Definition missingLangStep (pat : FilePattern) (baseContent : Json)
  (st : FS * list Fill) (lang : string) : FS * list Fill :=
  let (fs, log) := st in
  let (translation, calls) := translateI18nJson Obj.empty lang baseContent in
  let filename := langFileName pat lang in
  (writeJson fs filename translation, (log ++ fillsOf filename calls)%list).

Definition translateI18n (baseFile : string) (fs : FS) : option (FS * list Fill) :=
  match createFilePattern baseFile with
  | Err _ => None
  | Ok pat =>
      baseContent <- readJson fs baseFile ;;
      files <- findAllLanguageFiles baseFile fs ;;
      st <- foldM (existingFileStep pat baseContent) files
                  (mkI18nState fs getLanguages []) ;;
      Some (fold_left (missingLangStep pat baseContent) (st_missing st)
                      (st_fs st, st_log st))
  end.

(** *** parseWordJs *)

Definition parseWordJs (words : string) : option Dict :=
  let words := jsSubstring words (indexOf "{" words) (Z.of_nat (String.length words)) in
  let words := jsSubstring words 0 (lastIndexOf ";" words) in
  evalJs ("return " ++ words ++ ";").

(** *** adminWords2languages *)

(** [v || ""] *)
Definition orEmpty (v : option string) : string :=
  match v with
  | Some s => s
  | None => ""
  end.

(** [if (langs.hasOwnProperty(j)) langs[j][word] = langs[j][word] || ""].
    For a word that names an inherited member and is not a property of the
    map, [langs[j][word]] is that member and the assignment stores it (for
    [__proto__] it changes nothing).  A stored function is no JSON value:
    [writeJson] leaves it out of the file, and a later assignment of a
    translation replaces it.  The map is therefore kept without the word. *)
Definition prefillStep (word : string) (langs : Obj.t Json) (j : string) : Obj.t Json :=
  if Obj.hasOwn langs j then
    match Obj.get langs j with
    | Some o =>
        if inherited word && negb (Obj.hasOwn o word) then langs
        else Obj.set langs j (Obj.set o word (orEmpty (Obj.get o word)))
    | None => langs
    end
  else langs.

(** The body of the loop over the languages of one word:
    [langs[language][word] = translation], then the pre-fill.  For a
    language outside the set [langs[language]] is [undefined] and the
    assignment throws.  A language code that names an inherited member
    would make it an assignment to that member, an object all objects
    share; the model has no such object, and [None] stands for that run as
    well: what it does is not described. *)
Definition wordLangStep (word : string) (langs : Obj.t Json) (e : string * string)
  : option (Obj.t Json) :=
  let (lang, translation) := e in
  o <- Obj.get langs lang ;;
  let langs := Obj.set langs lang (assign o word translation) in
  Some (fold_left (prefillStep word) getLanguages langs).

Definition wordStep (langs : Obj.t Json) (e : string * Entry) : option (Obj.t Json) :=
  let (word, translations) := e in
  foldM (wordLangStep word) translations langs.

(** [keys.sort()]: by code, ascending. *)
Fixpoint insertSorted (k : string) (l : list string) : list string :=
  match l with
  | [] => [k]
  | x :: rest => if String.leb k x then k :: l else x :: insertSorted k rest
  end.

Definition sortStrings (l : list string) : list string :=
  fold_right insertSorted [] l.

(** [for (const key of keys) obj[key] = langs[language][key]]: the keys
    go into the new object in sorted order.  Keys that are array indices
    would be enumerated before the others whatever the order of
    insertion; the statements about the order of a written file are made
    for dictionaries without such words. *)
Definition sortedCopy (translations : Json) : Json :=
  fold_left (fun obj key => Obj.set obj key (orEmpty (Obj.get translations key)))
            (sortStrings (Obj.keys translations)) Obj.empty.

Definition writeLangStep (pat : FilePattern) (fs : FS) (e : string * Json) : FS :=
  let (lang, translations) := e in
  writeJson fs (langFileName pat lang) (sortedCopy translations).

(** The per-language maps the first loop builds. *)
Definition words2langs (data : Dict) : option (Obj.t Json) :=
  foldM wordStep data (createEmptyLangObject (fun _ => Obj.empty)).

Definition adminWords2languages (words : string) (i18nBase : string) (fs : FS)
  : option FS :=
  match createFilePattern i18nBase with
  | Err _ => None
  | Ok pat =>
      data <- parseWordJs words ;;
      langs <- words2langs data ;;
      Some (fold_left (writeLangStep pat) langs fs)
  end.

(** *** adminLanguages2words *)

(** [newWords[key] = newWords[key] || createEmptyLangObject(() => "");
     newWords[key][lang] = translations[key]].
    For a key that names an inherited member and is not yet a property of
    [newWords], [newWords[key]] is that member.  A built-in function
    becomes the entry and gets the language as a property of its own; it
    has no other property that is enumerated.  For [__proto__] the member
    is [Object.prototype]: no entry is made, and the value is assigned to
    the prototype, where the model does not follow it. *)
Definition collectKeyStep (lang : string) (translations : Json) (newWords : Dict)
  (key : string) : Dict :=
  match Obj.get newWords key with
  | Some e => Obj.set newWords key (Obj.set e lang (orEmpty (Obj.get translations key)))
  | None =>
      if String.eqb key "__proto__" then newWords
      else
        let entry :=
          if inherited key then Obj.empty else createEmptyLangObject (fun _ => "") in
        Obj.set newWords key (Obj.set entry lang (orEmpty (Obj.get translations key)))
  end.

Definition collectFileStep (pat : FilePattern) (fs : FS) (newWords : Dict)
  (file : string) : option Dict :=
  match matchLang pat file with
  | None => Some newWords
  | Some lang =>
      translations <- readJson fs file ;;
      Some (fold_left (collectKeyStep lang translations) (Obj.keys translations) newWords)
  end.

Definition collectWords (pat : FilePattern) (fs : FS) (files : list string)
  : option Dict :=
  foldM (collectFileStep pat fs) files Obj.empty.

(** The first half of [adminLanguages2words]: the dictionary built from
    the language files found. *)
Definition buildNewWords (i18nBase : string) (fs : FS) : option Dict :=
  match createFilePattern i18nBase with
  | Err _ => None
  | Ok pat =>
      files <- findAllLanguageFiles i18nBase fs ;;
      collectWords pat fs files
  end.

(** [newWords[key][lang]] as a condition: the value of the entry, or for
    a key that is no property of [newWords] the value of the inherited
    member, which has no property named like a language. *)
Definition missingAt (newWords : Dict) (key : string) : list string :=
  match Obj.get newWords key with
  | Some entry => missingLangs entry
  | None => getLanguages
  end.

(** The body of the loop over the entries of the existing words file:
    [if (!newWords[key]) { warn; newWords[key] = translations }], then the
    warnings for [getLanguages().filter((lang) => !newWords[key][lang])].
    The test reads through the prototype: an old key that names an
    inherited member is taken for present. *)
Definition mergeStep (st : Dict * list Warning) (e : string * Entry)
  : Dict * list Warning :=
  let (newWords, warnings) := st in
  let (key, translations) := e in
  let (newWords, warnings) :=
    if present newWords key then (newWords, warnings)
    else (Obj.set newWords key translations, (warnings ++ [TakeFromWords key])%list) in
  (newWords,
   (warnings ++ map (fun lang => MissingLang lang key) (missingAt newWords key))%list).

(** The [try] block: nothing happens when reading or evaluating the words
    file throws. *)
Definition mergeExisting (wordsText : option string) (newWords : Dict)
  : Dict * list Warning :=
  match (text <- wordsText ;; parseWordJs text) with
  | Some existingWords => fold_left mergeStep existingWords (newWords, [])
  | None => (newWords, [])
  end.

(** The function returns nothing; the model gives what it writes to the
    words file, the dictionary it wrote and the warnings it printed. *)
Record WordsResult : Type := mkWordsResult {
  wr_text : string;
  wr_words : Dict;
  wr_warnings : list Warning
}.

Definition adminLanguages2words (i18nBase : string) (fs : FS)
  (wordsText : option string) : option WordsResult :=
  newWords <- buildNewWords i18nBase fs ;;
  let (newWords, warnings) := mergeExisting wordsText newWords in
  Some (mkWordsResult (createWordsJs newWords) newWords warnings).

End Engine.

(** ** Evaluating the literal of the words file

    [parseWordJs] hands the text between the first brace and the last
    semicolon to the JavaScript engine.  The evaluator below covers the
    fragment [createWordsJs] writes: an object literal whose keys are
    double-quoted strings and whose values are object literals of
    double-quoted strings, with white space and trailing commas.  Inside a
    string a backslash escapes the next character as JavaScript reads it.
    Anything else is [None], like a text the engine rejects. *)

Inductive Token : Type :=
| TLBrace
| TRBrace
| TComma
| TColon
| TStr (s : string).

Inductive LexMode : Type :=
| Outside
| InString (acc : string)
| InEscape (acc : string).

(** The character a backslash escape stands for: [\n], [\t], [\r], [\b],
    [\f] and [\v] are control characters, a line feed after the backslash
    continues the line, digits, [x] and [u] start numeric escapes (outside
    the fragment), and any other character stands for itself. *)
Definition unescape (c : ascii) : option string :=
  let n := nat_of_ascii c in
  let one (k : nat) := Some (String (ascii_of_nat k) EmptyString) in
  if Nat.eqb n 110 then one 10
  else if Nat.eqb n 116 then one 9
  else if Nat.eqb n 114 then one 13
  else if Nat.eqb n 98 then one 8
  else if Nat.eqb n 102 then one 12
  else if Nat.eqb n 118 then one 11
  else if Nat.eqb n 10 then Some EmptyString
  else if between 48 57 n || Nat.eqb n 120 || Nat.eqb n 117 || Nat.eqb n 13 then None
  else Some (String c EmptyString).

Fixpoint lex (m : LexMode) (s : string) : option (list Token) :=
  match s with
  | EmptyString =>
      match m with
      | Outside => Some []
      | _ => None
      end
  | String c rest =>
      match m with
      | Outside =>
          if isSpace c then lex Outside rest
          else if Ascii.eqb c "{" then option_map (cons TLBrace) (lex Outside rest)
          else if Ascii.eqb c "}" then option_map (cons TRBrace) (lex Outside rest)
          else if Ascii.eqb c "," then option_map (cons TComma) (lex Outside rest)
          else if Ascii.eqb c ":" then option_map (cons TColon) (lex Outside rest)
          else if Ascii.eqb c dquote then lex (InString EmptyString) rest
          else None
      | InString acc =>
          if Ascii.eqb c dquote then option_map (cons (TStr acc)) (lex Outside rest)
          else if Ascii.eqb c backslash then lex (InEscape acc) rest
          else if Ascii.eqb c newline || Nat.eqb (nat_of_ascii c) 13 then None
          else lex (InString (acc ++ String c EmptyString)) rest
      | InEscape acc =>
          match unescape c with
          | Some d => lex (InString (acc ++ d)) rest
          | None => None
          end
      end
  end.

(** Where the parser stands in [{ KEY: { LANG: VALUE, ... }, ... }]. *)
Inductive ParseState : Type :=
| PStart
| PKey (d : Dict)
| PKeyColon (d : Dict) (k : string)
| PEntryOpen (d : Dict) (k : string)
| PLang (d : Dict) (k : string) (e : Entry)
| PLangColon (d : Dict) (k : string) (e : Entry) (l : string)
| PValue (d : Dict) (k : string) (e : Entry) (l : string)
| PLangSep (d : Dict) (k : string) (e : Entry)
| PKeySep (d : Dict)
| PDone (d : Dict).

Definition parseStep (st : ParseState) (tok : Token) : option ParseState :=
  match st, tok with
  | PStart, TLBrace => Some (PKey Obj.empty)
  | PKey d, TStr k => Some (PKeyColon d k)
  | PKey d, TRBrace => Some (PDone d)
  | PKeyColon d k, TColon => Some (PEntryOpen d k)
  | PEntryOpen d k, TLBrace => Some (PLang d k Obj.empty)
  | PLang d k e, TStr l => Some (PLangColon d k e l)
  | PLang d k e, TRBrace => Some (PKeySep (Obj.set d k e))
  | PLangColon d k e l, TColon => Some (PValue d k e l)
  | PValue d k e l, TStr v => Some (PLangSep d k (Obj.set e l v))
  | PLangSep d k e, TComma => Some (PLang d k e)
  | PLangSep d k e, TRBrace => Some (PKeySep (Obj.set d k e))
  | PKeySep d, TComma => Some (PKey d)
  | PKeySep d, TRBrace => Some (PDone d)
  | _, _ => None
  end.

Definition evalObjectLiteral (expr : string) : option Dict :=
  tokens <- lex Outside expr ;;
  st <- foldM parseStep tokens PStart ;;
  match st with
  | PDone d => Some d
  | _ => None
  end.

(** [new Function(text)()] on the fragment: the text is [return EXPR;]. *)
Definition evalReturn (text : string) : option Dict :=
  if prefix "return " text then
    let body := substring 7 (String.length text - 7) text in
    let expr := jsSubstring body 0 (lastIndexOf ";" body) in
    evalObjectLiteral expr
  else None.

(** ** Collaborators for the worked examples *)

(** A translation capability that tags the text with the language. *)
Definition tagTranslate (text lang : string) : string := lang ++ ":" ++ text.

Fixpoint endsWith (suffix s : string) : bool :=
  String.eqb suffix s ||
  match s with
  | EmptyString => false
  | String _ rest => endsWith suffix rest
  end.

(** Does the text have a segment that starts with a dot? *)
Fixpoint hasDotSegment (s : string) : bool :=
  match s with
  | EmptyString => false
  | String c rest =>
      (Ascii.eqb c "/" && match rest with String d _ => Ascii.eqb d "." | _ => false end)
      || hasDotSegment rest
  end.

(** A glob for the examples: the paths below a directory that end in
    [.json], in lower case, and have no segment starting with a dot below
    the directory; [tiny-glob] leaves dot files and dot directories out. *)
Definition jsonUnder (dir path : string) : bool :=
  prefix (dir ++ "/") path && endsWith ".json" path
  && negb (hasDotSegment (substring (String.length dir)
                                    (String.length path - String.length dir) path)).

(** ** Vocabulary of the properties *)

(** Every entry of the dictionary under a key that names no inherited
    member has an own value for every language. *)
Definition completeDict (d : Dict) : Prop :=
  forall k e, Obj.get d k = Some e -> inherited k = false ->
  forall lang, In lang getLanguages -> Obj.hasOwn e lang = true.

(** The key a warning names. *)
Definition warningKey (w : Warning) : string :=
  match w with
  | TakeFromWords key => key
  | MissingLang _ key => key
  end.

(** No per-language map has the word. *)
Definition wordAbsent (word : string) (langs : Obj.t Json) : Prop :=
  forall j o, In (j, o) langs -> Obj.get o word = None.

(** The body of the loop of [translateI18nJson] on the content alone. *)
Definition fillStep (translateText : string -> string -> string) (lang : string)
  (content : Json) (e : string * string) : Json :=
  if lacks content (fst e)
  then Obj.set content (fst e) (translateText (snd e) lang) else content.

(** The key of a base entry is settled when the content has what the
    capability gives for the entry, or the test of the loop takes the key
    for translated. *)
Definition settledKey (translateText : string -> string -> string) (lang : string)
  (content : Json) (e : string * string) : Prop :=
  Obj.get content (fst e) = Some (translateText (snd e) lang)
  \/ lacks content (fst e) = false.

(** The content [translateI18nJson] leaves in [content]. *)
Definition filled (translateText : string -> string -> string)
  (lang : string) (baseContent content : Json) : Json :=
  fst (translateI18nJson translateText content lang baseContent).

(** A content on which [translateI18nJson] changes nothing, and calls the
    capability for keys without a non-empty value only. *)
Definition stable (translateText : string -> string -> string)
  (lang : string) (baseContent content : Json) : Prop :=
  filled translateText lang baseContent content = content
  /\ forall kc, In kc (snd (translateI18nJson translateText content lang baseContent)) ->
                falsy (Obj.get content (fst kc)) = true.

(** The languages of the files in a list. *)
Definition foundLangs (pat : FilePattern) (files : list string) : list string :=
  flat_map (fun f => match matchLang pat f with Some l => [l] | None => [] end) files.

(** A file the first loop rewrites: one of the files found, for a language
    other than English. *)
Definition rewritten (pat : FilePattern) (files : list string) (path : string) : bool :=
  match matchLang pat path with
  | Some l => negb (String.eqb l "en") && includes files path
  | None => false
  end.

(** A file the second loop writes: the generated name of a language that
    is still missing. *)
Definition generated (pat : FilePattern) (missing : list string) (path : string) : bool :=
  match matchLang pat path with
  | Some l => includes missing l && String.eqb path (langFileName pat l)
  | None => false
  end.

(** What [translateI18nJson] makes of the content of a file, by the
    language in its name. *)
Definition filledAt (translateText : string -> string -> string)
  (pat : FilePattern) (baseContent : Json) (path : string) (content : Json) : Json :=
  match matchLang pat path with
  | Some l => filled translateText l baseContent content
  | None => content
  end.

(** The language files [findAllLanguageFiles] finds. *)
Definition discovered (underAdmin : string -> bool) (pat : FilePattern) (fs : FS)
  : list string :=
  filter (isLanguageFile pat) (glob underAdmin fs).

(** *** The words file, piece by piece *)

(** A character that stands for itself inside a string literal: not the
    backslash, not a line feed, not a carriage return. *)
Definition plainChar (c : ascii) : bool :=
  negb (Ascii.eqb c backslash) && negb (Ascii.eqb c newline)
  && negb (Nat.eqb (nat_of_ascii c) 13).

(** A key or a value that [createWordsJs] renders faithfully. *)
Definition cleanStr (s : string) : Prop := allChars plainChar s = true.

(** A language name that it renders faithfully: language names are
    written between quotes as they are. *)
Definition cleanName (s : string) : Prop :=
  allChars (fun c => plainChar c && negb (Ascii.eqb c dquote)) s = true.

Definition cleanEntry (e : Entry) : Prop :=
  NoDup (Obj.keys e)
  /\ forall l v, In (l, v) e -> cleanName l /\ cleanStr v.

Definition cleanDict (d : Dict) : Prop :=
  NoDup (Obj.keys d)
  /\ forall k e, In (k, e) d -> cleanStr k /\ cleanEntry e.

(** One rendered language item, up to and including the closing quote of
    the value, followed by [rest]. *)
Definition itemCore (e : string * string) (rest : string) : string :=
  String dquote (fst e ++ String dquote (": " ++ String dquote
    (escapeQuotes (snd e) ++ String dquote rest))).

(** The width the value of an item is padded by. *)
Definition itemPad (e : string * string) : nat :=
  50 - String.length (escapeQuotes (snd e) ++ quoteStr ++ ",").

(** The items of a line as [createWordsJs] first builds them: each ends
    with a comma and its padding. *)
Fixpoint items (e : Entry) : string :=
  match e with
  | [] => EmptyString
  | x :: rest => itemCore x ("," ++ spaces (S (itemPad x)) ++ items rest)
  end.

(** The items of a line as they are written: the last comma and padding
    are gone. *)
Fixpoint coreItems (e : Entry) : string :=
  match e with
  | [] => EmptyString
  | [x] => itemCore x EmptyString
  | x :: rest => itemCore x ("," ++ spaces (S (itemPad x)) ++ coreItems rest)
  end.

(** The tokens of the items of a line, of a line and of the lines. *)
Fixpoint entryTokens (e : Entry) : list Token :=
  match e with
  | [] => []
  | x :: rest =>
      match rest with
      | [] => [TStr (fst x); TColon; TStr (snd x)]
      | _ :: _ => TStr (fst x) :: TColon :: TStr (snd x) :: TComma :: entryTokens rest
      end
  end.

Definition wordTokens (w : string * Entry) : list Token :=
  (TStr (fst w) :: TColon :: TLBrace :: entryTokens (snd w) ++ [TRBrace; TComma])%list.

Definition bodyTokens (d : Dict) : list Token :=
  (flat_map wordTokens d ++ [TRBrace])%list.

(** The lines of the dictionary, each followed by the end of line, and the
    closing brace. *)
Definition bodyText (d : Dict) : string :=
  fold_right (fun w acc => wordLine w ++ EOL ++ acc) "}" d.

(** Assigning the pairs of a list, in order. *)
Definition setPairs {V : Type} (pairs : list (string * V)) (acc : Obj.t V) : Obj.t V :=
  fold_left (fun a x => Obj.set a (fst x) (snd x)) pairs acc.

(** The text before the opening brace of the dictionary. *)
Definition headerText : string :=
  String.concat EOL (banner ++ ["systemDictionary = "])%list.

(** *** Keys and names the statements single out *)

(** A text of ASCII characters. *)
Definition asciiOnly (s : string) : Prop :=
  allChars (fun c => Nat.ltb (nat_of_ascii c) 128) s = true.

(** A non-empty text of digits.  Every array index is one; the engine
    enumerates array indices before the other keys of an object, by
    value. *)
Definition digitsOnly (s : string) : bool :=
  negb (String.eqb s "") && allChars (fun c => between 48 57 (nat_of_ascii c)) s.

(** No language file that is found has the key [__proto__]. *)
Definition protoFree (underAdmin : string -> bool) (pat : FilePattern) (fs : FS) : Prop :=
  forall file content,
    In file (discovered underAdmin pat fs) -> readJson fs file = Some content ->
    ~ In "__proto__" (Obj.keys content).

(** *** Calls, language files and the package file *)

(** A logged call that is what the code can make: for a language other
    than English, the language of the file's name, with the text of a
    base entry and for the key of that entry. *)
Definition properFill (pat : FilePattern) (baseContent : Json) (x : Fill) : Prop :=
  call_lang (fill_call x) <> "en"
  /\ matchLang pat (fill_file x) = Some (call_lang (fill_call x))
  /\ In (fill_key x, call_text (fill_call x)) baseContent.

(** [langs[j][word]] *)
Definition cell (langs : Obj.t Json) (j word : string) : option string :=
  match Obj.get langs j with
  | Some o => Obj.get o word
  | None => None
  end.

(** What the words dictionary gives a language file for a word: nothing
    for a word it lacks or whose entry is empty, else the value of the
    entry for the language, or the empty string. *)
Definition wordValue (data : Dict) (lang word : string) : option string :=
  match Obj.get data word with
  | Some ((_ :: _) as e) => Some (orEmpty (Obj.get e lang))
  | _ => None
  end.

(** Ascending order of keys. *)
Definition ascending (keys : list string) : Prop :=
  Sorted (fun a b => String.leb a b = true) keys.

(** Every per-language map keeps its keys without repetition. *)
Definition distinctKeys (langs : Obj.t Json) : Prop :=
  forall j o, In (j, o) langs -> NoDup (Obj.keys o).

(** The entry the loop over the existing words leaves for a key: the new
    one, else the old one, unless the key names an inherited member. *)
Definition mergedEntry (cur old : Dict) (k : string) : option Entry :=
  match Obj.get cur k with
  | Some e => Some e
  | None => if inherited k then None else Obj.get old k
  end.

(** [entry[lang]], of an entry that may not be there. *)
Definition entryValue (entry : option Entry) (lang : string) : option string :=
  match entry with
  | Some e => Obj.get e lang
  | None => None
  end.

(** [d[key][lang]] is there and is [v]. *)
Definition hasValue (d : Dict) (key lang v : string) : Prop :=
  exists e, Obj.get d key = Some e /\ Obj.get e lang = Some v.

(** Every non-empty value of the dictionary is the value some file of the
    list holds for the key, in a file named for the language; and every
    key of the dictionary is a key of some language file of the list. *)
Definition fromFiles (pat : FilePattern) (fs : FS) (files : list string) (d : Dict)
  : Prop :=
  (forall k e lang v,
      Obj.get d k = Some e -> Obj.get e lang = Some v -> v <> "" ->
      exists file c, In file files /\ matchLang pat file = Some lang
                     /\ readJson fs file = Some c /\ Obj.get c k = Some v)
  /\ (forall k, In k (Obj.keys d) ->
        exists file c lang, In file files /\ matchLang pat file = Some lang
                            /\ readJson fs file = Some c /\ In k (Obj.keys c)).

(** [obj.en || baseText], when that is a non-empty text. *)
Definition sourceText (obj : Entry) (baseText : option string) : option string :=
  match jsOr (Obj.get obj "en") baseText with
  | Some t => if String.eqb t "" then None else Some t
  | None => None
  end.

(** The calls [translateNotExisting] makes for an entry. *)
Definition callsFor (obj : Entry) (baseText : option string) : list Call :=
  match sourceText obj baseText with
  | Some t => map (mkCall t) (missingLangs obj)
  | None => []
  end.

(** How [translateNotExisting] leaves an entry: non-empty values and
    languages outside the set as they were; with a source text, every
    language of the set that had no non-empty value now has the
    translation of that text; without one, nothing changes. *)
Definition fillsEntry (translateText : string -> string -> string)
  (baseText : option string) (e e' : Entry) : Prop :=
  (forall lang, truthy (Obj.get e lang) = true -> Obj.get e' lang = Obj.get e lang)
  /\ (forall lang, ~ In lang getLanguages -> Obj.get e' lang = Obj.get e lang)
  /\ (forall t lang, sourceText e baseText = Some t -> In lang getLanguages ->
        falsy (Obj.get e lang) = true -> Obj.get e' lang = Some (translateText t lang))
  /\ (sourceText e baseText = None -> e' = e).

(** A field of [content.common] before and after: absent stays absent. *)
Definition fieldRel (R : Entry -> Entry -> Prop) (f f' : option Entry) : Prop :=
  match f, f' with
  | Some e, Some e' => R e e'
  | None, None => True
  | _, _ => False
  end.

(** The news before and after: the same versions in the same order. *)
Definition newsRel (R : Entry -> Entry -> Prop) (n n' : option (Obj.t Entry)) : Prop :=
  match n, n' with
  | Some n, Some n' => Forall2 (fun x y => fst x = fst y /\ R (snd x) (snd y)) n n'
  | None, None => True
  | _, _ => False
  end.

(** The entries [translateIoPackage] hands to [translateNotExisting], each
    with its fallback text, in the order of the calls. *)
Definition entriesOf (common : Common) : list (Entry * option string) :=
  (match news common with
   | Some n => map (fun ke => (snd ke, None)) n
   | None => []
   end
   ++ match titleLang common with
      | Some e => [(e, title common)]
      | None => []
      end
   ++ match desc common with
      | Some e => [(e, None)]
      | None => []
      end)%list.

(** ** Inputs of the worked examples *)

(** An admin directory [/a] with an English and a German file. *)
Definition exFiles : FS :=
  [ ("/a/i18n/en.json", [("hello", "Hello")]);
    ("/a/i18n/de.json", [("hello", "Hallo")]) ].

(** A words file written earlier, with a key the files do not have and an
    entry that has an English value only. *)
Definition exOldWords : Dict := [("bye", [("en", "Bye")])].

(** A words file with a filled and an empty entry. *)
Definition exWordsWithEmpty : Dict :=
  [("hello", [("en", "Hello"); ("de", "Hallo")]); ("bye", [])].

(** An English base with two keys and a German file that has one of them
    translated, one empty and one the base does not have. *)
Definition exI18n : FS :=
  [ ("/a/i18n/en.json", [("hello", "Hello"); ("bye", "Bye")]);
    ("/a/i18n/de.json", [("hello", "Hallo"); ("bye", ""); ("old", "x")]) ].

(** The base file of C4: it lies outside the directory that is searched. *)
Definition exOutside : FS := [("/b/i18n/en.json", [("hello", "Hello")])].

(** An admin directory below a directory called [en]: the pattern takes
    that directory for the language segment, and the files of the other
    languages are generated outside the admin directory. *)
Definition exEnDir : FS := [("/en/admin/i18n/en.json", [("hello", "Hello")])].

(** A words file written earlier whose one key names a member every
    object inherits. *)
Definition exInheritedWords : Dict := [("constructor", [("en", "Constructor")])].

(** A dictionary with two backslashes in a value, and one with a value
    that ends in a backslash. *)
Definition exBackslashes : Dict := [("k", [("en", "a\\b")])].
Definition exTrailingBackslash : Dict := [("k", [("en", "a\")])].

(** * Properties *)

(** ** Objects *)

Module ObjFacts.
Section WithValue.
Context {V : Type}.
Implicit Types (o : Obj.t V) (k : string) (v : V).

Lemma get_set_same o k v : Obj.get (Obj.set o k v) k = Some v.
Proof.
  induction o as [|[k' v'] o IH]; simpl.
  - now rewrite String.eqb_refl.
  - destruct (String.eqb k' k) eqn:E; simpl; rewrite E; auto.
Qed.

Lemma get_set_other o k k' v :
  k <> k' -> Obj.get (Obj.set o k v) k' = Obj.get o k'.
Proof.
  intros Hne. induction o as [|[k0 v0] o IH]; simpl.
  - apply String.eqb_neq in Hne. now rewrite Hne.
  - destruct (String.eqb k0 k) eqn:E; simpl.
    + apply String.eqb_eq in E. subst k0.
      apply String.eqb_neq in Hne. now rewrite Hne.
    + destruct (String.eqb k0 k'); auto.
Qed.

Lemma get_set o k k' v :
  Obj.get (Obj.set o k v) k' = if String.eqb k k' then Some v else Obj.get o k'.
Proof.
  destruct (String.eqb k k') eqn:E.
  - apply String.eqb_eq in E. subst. apply get_set_same.
  - apply String.eqb_neq in E. now apply get_set_other.
Qed.

(** Writing the value a property already has changes nothing. *)
Lemma set_get_id o k v : Obj.get o k = Some v -> Obj.set o k v = o.
Proof.
  induction o as [|[k' v'] o IH]; simpl; intros H; [discriminate|].
  destruct (String.eqb k' k) eqn:E.
  - now inversion H.
  - now rewrite IH.
Qed.

(** Assigning to an own property keeps the key list. *)
Lemma keys_set_present o k v v0 :
  Obj.get o k = Some v0 -> Obj.keys (Obj.set o k v) = Obj.keys o.
Proof.
  induction o as [|[k' v'] o IH]; simpl; intros H; [discriminate|].
  destruct (String.eqb k' k) eqn:E; simpl; [reflexivity|].
  f_equal. now apply IH.
Qed.

(** Assigning to a fresh property appends the key. *)
Lemma keys_set_fresh o k v :
  Obj.get o k = None -> Obj.keys (Obj.set o k v) = (Obj.keys o ++ [k])%list.
Proof.
  induction o as [|[k' v'] o IH]; simpl; intros H; [reflexivity|].
  destruct (String.eqb k' k) eqn:E; [discriminate|].
  simpl. f_equal. now apply IH.
Qed.

Lemma in_keys_get o k : In k (Obj.keys o) <-> Obj.get o k <> None.
Proof.
  induction o as [|[k' v'] o IH]; simpl.
  - split; [tauto | congruence].
  - destruct (String.eqb k' k) eqn:E.
    + apply String.eqb_eq in E. split; [congruence | auto].
    + apply String.eqb_neq in E. rewrite IH. split; [intros [?|?]; tauto | auto].
Qed.

Lemma get_none_not_in o k : Obj.get o k = None <-> ~ In k (Obj.keys o).
Proof.
  rewrite in_keys_get. destruct (Obj.get o k); intuition congruence.
Qed.

Lemma get_some_in o k v : Obj.get o k = Some v -> In k (Obj.keys o).
Proof. intros H. apply in_keys_get. congruence. Qed.

Lemma in_keys_set o k k' v :
  In k' (Obj.keys (Obj.set o k v)) <-> k' = k \/ In k' (Obj.keys o).
Proof.
  rewrite !in_keys_get, get_set.
  destruct (String.eqb k k') eqn:E.
  - apply String.eqb_eq in E. subst. split; [auto | congruence].
  - apply String.eqb_neq in E. split; [auto | intros [?|?]; [subst; tauto | assumption]].
Qed.

Lemma hasOwn_true o k : Obj.hasOwn o k = true <-> In k (Obj.keys o).
Proof.
  unfold Obj.hasOwn. rewrite in_keys_get.
  destruct (Obj.get o k); split; congruence.
Qed.

(** The first pair with a key is the one [get] finds. *)
Lemma in_get_first o k v :
  In (k, v) o -> exists v', Obj.get o k = Some v'.
Proof.
  intros H. destruct (Obj.get o k) eqn:E; eauto.
  apply get_none_not_in in E. exfalso. apply E.
  unfold Obj.keys. change k with (fst (k, v)). now apply in_map.
Qed.

Lemma get_in o k v : Obj.get o k = Some v -> In (k, v) o.
Proof.
  induction o as [|[k' v'] o IH]; simpl; [discriminate|].
  destruct (String.eqb k' k) eqn:E.
  - apply String.eqb_eq in E. intros H. inversion H. subst. auto.
  - auto.
Qed.

End WithValue.
End ObjFacts.

Import ObjFacts.

(** ** Strings and the file pattern *)

Lemma append_length (a b : string) :
  String.length (a ++ b) = String.length a + String.length b.
Proof. induction a; simpl; auto. Qed.

Lemma substring_all (s : string) : substring 0 (String.length s) s = s.
Proof. induction s; simpl; congruence. Qed.

Lemma substring_head (a b : string) :
  substring 0 (String.length a) (a ++ b) = a.
Proof.
  induction a; simpl.
  - destruct b; reflexivity.
  - congruence.
Qed.

Lemma substring_tail (a b : string) :
  substring (String.length a) (String.length b) (a ++ b) = b.
Proof.
  induction a; simpl; auto using substring_all.
Qed.

Lemma ciCharEqb_refl (c : ascii) : ciCharEqb c c = true.
Proof. unfold ciCharEqb. apply Ascii.eqb_refl. Qed.

Lemma ciEqb_refl (s : string) : ciEqb s s = true.
Proof. induction s; simpl; auto. now rewrite ciCharEqb_refl. Qed.

Lemma ciStrip_append (pre rest : string) : ciStrip pre (pre ++ rest) = Some rest.
Proof. induction pre; simpl; auto. now rewrite ciCharEqb_refl. Qed.

(** A generated file name is recognised, with the language it was
    generated for. *)
Lemma matchLang_langFileName (p : FilePattern) (lang : string) :
  lang <> "" -> allChars langChar lang = true ->
  matchLang p (langFileName p lang) = Some lang.
Proof.
  intros Hne Hall. unfold matchLang, langFileName.
  rewrite ciStrip_append. simpl.
  rewrite append_length.
  replace (String.length lang + String.length (fp_suffix p) - String.length (fp_suffix p))
    with (String.length lang) by lia.
  rewrite substring_head, substring_tail, Hall, ciEqb_refl.
  destruct lang; [congruence|]. reflexivity.
Qed.

Lemma languages_wellformed (lang : string) :
  In lang getLanguages -> lang <> "" /\ allChars langChar lang = true.
Proof.
  unfold getLanguages. simpl.
  intros H. repeat (destruct H as [H|H]; [subst; split; [discriminate | reflexivity]|]).
  contradiction.
Qed.

Lemma matchLang_generated (p : FilePattern) (lang : string) :
  In lang getLanguages -> matchLang p (langFileName p lang) = Some lang.
Proof.
  intros H. apply languages_wellformed in H. now apply matchLang_langFileName.
Qed.

Lemma langFileName_inj (p : FilePattern) (l1 l2 : string) :
  In l1 getLanguages -> In l2 getLanguages ->
  langFileName p l1 = langFileName p l2 -> l1 = l2.
Proof.
  intros H1 H2 E.
  apply (matchLang_generated p) in H1. apply (matchLang_generated p) in H2.
  rewrite E in H1. congruence.
Qed.

Lemma includes_In (l : list string) (x : string) : includes l x = true <-> In x l.
Proof.
  unfold includes. rewrite existsb_exists. split.
  - intros [y [Hy E]]. apply String.eqb_eq in E. now subst.
  - intros H. exists x. split; auto. apply String.eqb_refl.
Qed.

Lemma afterEn_some (s suf : string) :
  afterEn s = Some suf ->
  s = "en" ++ suf /\ exists c rest, suf = String c rest /\ nonword c = true.
Proof.
  destruct s as [|a [|b [|c rest]]]; simpl; try discriminate.
  destruct (Ascii.eqb a "e") eqn:Ea; try discriminate.
  destruct (Ascii.eqb b "n") eqn:Eb; try discriminate.
  destruct (nonword c) eqn:Ec; try discriminate.
  simpl. intros H. inversion H. subst.
  apply Ascii.eqb_eq in Ea. apply Ascii.eqb_eq in Eb. subst.
  split; eauto.
Qed.

(** Where [splitAtEn] cuts: the name is the prefix, [en] and the suffix,
    the prefix ends and the suffix starts with a non-word character. *)
Lemma splitAtEn_some (s pre suf : string) :
  splitAtEn s = Some (pre, suf) ->
  s = pre ++ "en" ++ suf /\ hasEnToken s.
Proof.
  revert pre suf. induction s as [|c s IH]; simpl; intros pre suf H; [discriminate|].
  destruct (if nonword c then afterEn s else None) as [suf'|] eqn:E.
  - inversion H; subst. destruct (nonword c) eqn:Ec; [|discriminate].
    apply afterEn_some in E. destruct E as [-> [c2 [rest [-> Hc2]]]].
    split; [reflexivity|].
    exists "", c, c2, rest. auto.
  - destruct (splitAtEn s) as [[p q]|] eqn:Es; [|discriminate].
    inversion H; subst.
    destruct (IH _ _ eq_refl) as [Es' [pre' [c1 [c2 [suf' [E' [H1 H2]]]]]]].
    split; [now rewrite Es' at 1|].
    exists (String c pre'), c1, c2, suf'. rewrite E'. auto.
Qed.

Lemma splitAtEn_token (pre : string) (c1 c2 : ascii) (suf : string) :
  nonword c1 = true -> nonword c2 = true ->
  splitAtEn (pre ++ String c1 ("en" ++ String c2 suf)) <> None.
Proof.
  intros H1 H2. induction pre as [|c pre IH].
  - simpl. rewrite H1, H2. simpl. discriminate.
  - cbn [append splitAtEn].
    destruct (if nonword c then afterEn _ else None); [discriminate|].
    destruct (splitAtEn _) as [[p q]|]; [discriminate | contradiction].
Qed.

Lemma createFilePattern_ok (baseFile : string) (pat : FilePattern) :
  createFilePattern baseFile = Ok pat ->
  langFileName pat "en" = baseFile /\ matchLang pat baseFile = Some "en".
Proof.
  unfold createFilePattern. destruct (splitAtEn baseFile) as [[pre suf]|] eqn:E; [|discriminate].
  intros H. inversion H; subst. apply splitAtEn_some in E. destruct E as [E _].
  assert (Hn : langFileName (mkPattern pre suf) "en" = baseFile) by (now rewrite E).
  split; [exact Hn|].
  rewrite <- Hn at 1. apply matchLang_generated. simpl. auto.
Qed.

(** C9. [createFilePattern] throws exactly on the reference names that
    have no [en] token with a non-word character on each side, and gives a
    pattern on all the others. *)
Theorem createFilePattern_fails_iff_no_token (baseFile : string) :
  (createFilePattern baseFile = Err "Base file must be an English JSON file"
   <-> ~ hasEnToken baseFile)
  /\ ((exists pat, createFilePattern baseFile = Ok pat) <-> hasEnToken baseFile).
Proof.
  unfold createFilePattern.
  destruct (splitAtEn baseFile) as [[pre suf]|] eqn:E.
  - apply splitAtEn_some in E. destruct E as [_ Htok].
    split; split; intros H; try tauto; try discriminate; eauto.
  - assert (Hno : ~ hasEnToken baseFile).
    { intros [pre [c1 [c2 [suf [Es [H1 H2]]]]]]. subst.
      now apply (splitAtEn_token pre c1 c2 suf H1 H2). }
    split; split; intros H; try tauto.
    destruct H as [pat H]. discriminate.
Qed.

(** ** translateNotExisting *)

Lemma languages_NoDup : NoDup getLanguages.
Proof.
  unfold getLanguages.
  repeat (constructor; [simpl; intuition discriminate|]). constructor.
Qed.

Lemma includes_cons (x y : string) (l : list string) :
  includes (y :: l) x = String.eqb x y || includes l x.
Proof. reflexivity. Qed.

Lemma includes_false (l : list string) (x : string) :
  ~ In x l -> includes l x = false.
Proof.
  intros H. destruct (includes l x) eqn:E; auto.
  apply includes_In in E. contradiction.
Qed.

Section NotExisting.
Variable translateText : string -> string -> string.

Lemma notExisting_loop (text : string) (ls : list string) :
  NoDup ls ->
  forall (obj : Entry) (log : list Call),
  exists obj',
    fold_left (notExistingStep translateText text) ls (obj, log)
    = (obj', (log ++ map (mkCall text) (missingAmong obj ls))%list)
    /\ forall k, Obj.get obj' k
                 = if includes (missingAmong obj ls) k
                   then Some (translateText text k) else Obj.get obj k.
Proof.
  induction 1 as [|l rest Hnot Hnd IH]; intros obj log.
  - exists obj. simpl. rewrite app_nil_r. auto.
  - cbn [fold_left]. change (notExistingStep translateText text (obj, log) l)
      with (if falsy (Obj.get obj l)
            then (Obj.set obj l (translateText text l), (log ++ [mkCall text l])%list)
            else (obj, log)).
    destruct (falsy (Obj.get obj l)) eqn:Ef.
    + destruct (IH (Obj.set obj l (translateText text l)) (log ++ [mkCall text l])%list)
        as [obj' [Hfold Hget]].
      assert (Hsame : missingAmong (Obj.set obj l (translateText text l)) rest = missingAmong obj rest).
      { unfold missingLangs, missingAmong. apply filter_ext_in. intros x Hx.
        rewrite get_set_other; auto. intros ->. contradiction. }
      rewrite Hsame in *.
      exists obj'. split.
      * etransitivity; [exact Hfold|]. unfold missingAmong at 2. simpl. rewrite Ef.
        now rewrite <- app_assoc.
      * intros k. rewrite Hget. unfold missingAmong at 2. simpl. rewrite Ef.
        rewrite includes_cons, get_set.
        destruct (String.eqb k l) eqn:Ek.
        -- apply String.eqb_eq in Ek. subst k.
           rewrite includes_false, String.eqb_refl; auto.
           unfold missingLangs, missingAmong. rewrite filter_In. tauto.
        -- rewrite String.eqb_sym, Ek. reflexivity.
    + destruct (IH obj log) as [obj' [Hfold Hget]].
      exists obj'. unfold missingAmong at 1 2. simpl. rewrite Ef. auto.
Qed.

(** C1 (amended). With [text = obj.en || baseText]: when [text] is empty
    or absent nothing happens; otherwise the capability is called once,
    with [text], for every language of the set whose value is missing or
    empty, in the order of the set, the results are stored, and every other
    value stays as it was.  English is one of these languages exactly when
    the entry has no English value (the text then comes from [baseText]);
    an entry with an English value keeps it and is never translated into
    English. *)
Theorem translateNotExisting_fills (obj : Entry) (baseText : option string) :
  let text := jsOr (Obj.get obj "en") baseText in
  let result := translateNotExisting translateText obj baseText in
  (falsy text = true -> result = (obj, []))
  /\ (forall t, text = Some t -> t <> "" ->
        snd result = map (mkCall t) (missingLangs obj)
        /\ (forall k, Obj.get (fst result) k
                      = if includes (missingLangs obj) k
                        then Some (translateText t k) else Obj.get obj k)
        /\ (truthy (Obj.get obj "en") = true ->
              Obj.get (fst result) "en" = Obj.get obj "en"
              /\ forall c, In c (snd result) -> call_lang c <> "en")).
Proof.
  cbv zeta. unfold translateNotExisting.
  destruct (jsOr (Obj.get obj "en") baseText) as [t|] eqn:Et.
  - split.
    + simpl. intros H. now rewrite H.
    + intros t' Ht' Hne. inversion Ht'; subst t'. clear Ht'.
      apply String.eqb_neq in Hne. rewrite Hne.
      destruct (notExisting_loop t getLanguages languages_NoDup obj []) as [obj' [Hfold Hget]].
      rewrite Hfold. simpl. split; [reflexivity|]. split; [exact Hget|].
      intros Hen.
      assert (Hnot : ~ In "en" (missingLangs obj)).
      { unfold missingLangs, missingAmong. rewrite filter_In. intros [_ Hf].
        unfold truthy in Hen. rewrite Hf in Hen. discriminate. }
      split.
      * rewrite Hget, includes_false; auto.
      * intros c Hc. apply in_map_iff in Hc. destruct Hc as [l [<- Hl]].
        simpl. intros ->. contradiction.
  - split; [reflexivity|]. intros t H. discriminate.
Qed.

End NotExisting.

(** C1, as first stated, fails: an entry without an English value and a
    fallback text.  The capability is called with target [en] and the
    English value changes. *)
Lemma translateNotExisting_translates_into_en :
  let obj := [("de", "Titel")] in
  let result := translateNotExisting tagTranslate obj (Some "Title") in
  In (mkCall "Title" "en") (snd result)
  /\ Obj.get obj "en" = None
  /\ Obj.get (fst result) "en" = Some "en:Title".
Proof. cbv zeta. vm_compute. auto. Qed.

(** ** adminLanguages2words *)

Lemma emptyLangObject_keys {V : Type} (f : unit -> V) :
  Obj.keys (createEmptyLangObject f) = getLanguages.
Proof. reflexivity. Qed.

Lemma collectKeyStep_complete (lang : string) (translations : Json) (d : Dict)
  (key : string) :
  completeDict d -> completeDict (collectKeyStep lang translations d key).
Proof.
  intros Hd k e He Hk l Hl. unfold collectKeyStep in He.
  destruct (Obj.get d key) as [e0|] eqn:E0.
  - rewrite get_set in He. destruct (String.eqb key k) eqn:Ek; [|eapply Hd; eauto].
    apply String.eqb_eq in Ek. subst k. injection He as He. subst e.
    apply hasOwn_true, in_keys_set. right. apply hasOwn_true. eapply Hd; eauto.
  - destruct (String.eqb key "__proto__"); [eapply Hd; eauto|].
    rewrite get_set in He. destruct (String.eqb key k) eqn:Ek; [|eapply Hd; eauto].
    apply String.eqb_eq in Ek. subst k. rewrite Hk in He.
    pose proof (emptyLangObject_keys (fun _ : unit => "")) as Hkeys.
    set (base0 := createEmptyLangObject (fun _ : unit => "")) in *. clearbody base0.
    injection He as He. subst e.
    apply hasOwn_true, in_keys_set. right. now rewrite Hkeys.
Qed.

Lemma collectKeys_complete (lang : string) (translations : Json)
  (keys : list string) (d : Dict) :
  completeDict d ->
  completeDict (fold_left (collectKeyStep lang translations) keys d).
Proof.
  revert d. induction keys as [|k keys IH]; simpl; intros d Hd; auto.
  apply IH. now apply collectKeyStep_complete.
Qed.

Lemma collectWords_loop_complete (pat : FilePattern) (fs : FS)
  (files : list string) (d d' : Dict) :
  completeDict d ->
  foldM (collectFileStep pat fs) files d = Some d' -> completeDict d'.
Proof.
  revert d. induction files as [|f files IH]; simpl; intros d Hd H.
  - inversion H. now subst.
  - unfold obind in H. destruct (collectFileStep pat fs d f) as [d1|] eqn:E; [|discriminate].
    apply (IH d1); auto.
    unfold collectFileStep in E.
    destruct (matchLang pat f) as [lang|]; [|inversion E; now subst].
    unfold obind in E. destruct (readJson fs f) as [tr|]; [|discriminate].
    inversion E. now apply collectKeys_complete.
Qed.

Lemma present_false {V : Type} (d : Obj.t V) (k : string) :
  present d k = false <-> Obj.get d k = None /\ inherited k = false.
Proof.
  unfold present, Obj.hasOwn. destruct (Obj.get d k), (inherited k); simpl;
    intuition congruence.
Qed.

Section Words.
Variable underAdmin : string -> bool.
Variable evalJs : string -> option Dict.

(** In the dictionary built from the language files, every entry under a
    key that names no inherited member has all the languages. *)
Lemma buildNewWords_complete (i18nBase : string) (fs : FS) (new : Dict) :
  buildNewWords underAdmin i18nBase fs = Some new -> completeDict new.
Proof.
  unfold buildNewWords. destruct (createFilePattern i18nBase) as [pat|]; [|discriminate].
  unfold obind. destruct (findAllLanguageFiles underAdmin i18nBase fs) as [files|];
    [|discriminate].
  unfold collectWords. apply collectWords_loop_complete.
  intros k e H. discriminate.
Qed.

Lemma mergeStep_eq (cur : Dict) (ws : list Warning) (key : string) (tr : Entry) :
  mergeStep (cur, ws) (key, tr)
  = match Obj.get cur key with
    | Some e => (cur, (ws ++ map (fun lang => MissingLang lang key) (missingLangs e))%list)
    | None =>
        if inherited key
        then (cur, (ws ++ map (fun lang => MissingLang lang key) getLanguages)%list)
        else (Obj.set cur key tr,
              ((ws ++ [TakeFromWords key])
               ++ map (fun lang => MissingLang lang key) (missingLangs tr))%list)
    end.
Proof.
  unfold mergeStep, present, Obj.hasOwn, missingAt.
  destruct (Obj.get cur key) as [e|] eqn:E; cbn [orb].
  - now rewrite E.
  - destruct (inherited key); [now rewrite E | now rewrite get_set_same].
Qed.

(** The loop over the existing words: a key the new dictionary has keeps
    its new entry; a key it lacks takes the first entry the old one has for
    it, and is announced, unless the key names an inherited member. *)
Lemma merge_loop (old : Dict) :
  forall (cur : Dict) (ws : list Warning),
  exists final ws',
    fold_left mergeStep old (cur, ws) = (final, ws')
    /\ (forall k, Obj.get final k
                  = match Obj.get cur k with
                    | Some e => Some e
                    | None => if inherited k then None else Obj.get old k
                    end)
    /\ (forall w, In w ws -> In w ws')
    /\ (forall k, Obj.get cur k = None -> inherited k = false ->
                  Obj.get old k <> None -> In (TakeFromWords k) ws').
Proof.
  induction old as [|[key tr] old IH]; intros cur ws.
  - exists cur, ws. simpl. repeat split; auto.
    + intros k. destruct (Obj.get cur k); auto. now destruct (inherited k).
    + intros k _ _ H. congruence.
  - cbn [fold_left]. rewrite mergeStep_eq.
    destruct (Obj.get cur key) as [e0|] eqn:E; [|destruct (inherited key) eqn:Ei].
    + destruct (IH cur (ws ++ map (fun lang => MissingLang lang key) (missingLangs e0))%list)
        as [final [ws' [Hfold [Hget [Hmono Htake]]]]].
      exists final, ws'. repeat split; auto.
      * intros k. rewrite Hget. simpl.
        destruct (Obj.get cur k) eqn:Ek; auto.
        destruct (String.eqb key k) eqn:Ekk; auto.
        apply String.eqb_eq in Ekk. congruence.
      * intros w Hw. apply Hmono, in_or_app. auto.
      * intros k Hk Hi Hold. apply Htake; auto. simpl in Hold.
        destruct (String.eqb key k) eqn:Ekk; auto.
        apply String.eqb_eq in Ekk. congruence.
    + destruct (IH cur (ws ++ map (fun lang => MissingLang lang key) getLanguages)%list)
        as [final [ws' [Hfold [Hget [Hmono Htake]]]]].
      exists final, ws'. repeat split; auto.
      * intros k. rewrite Hget. simpl.
        destruct (Obj.get cur k) eqn:Ek; auto.
        destruct (String.eqb key k) eqn:Ekk; auto.
        apply String.eqb_eq in Ekk. subst k. now rewrite Ei.
      * intros w Hw. apply Hmono, in_or_app. auto.
      * intros k Hk Hi Hold. apply Htake; auto. simpl in Hold.
        destruct (String.eqb key k) eqn:Ekk; auto.
        apply String.eqb_eq in Ekk. congruence.
    + destruct (IH (Obj.set cur key tr)
                   ((ws ++ [TakeFromWords key])
                    ++ map (fun lang => MissingLang lang key) (missingLangs tr))%list)
        as [final [ws' [Hfold [Hget [Hmono Htake]]]]].
      exists final, ws'. repeat split; auto.
      * intros k. rewrite Hget, get_set. simpl.
        destruct (String.eqb key k) eqn:Ekk.
        -- apply String.eqb_eq in Ekk. subst k. now rewrite E, Ei.
        -- reflexivity.
      * intros w Hw. apply Hmono, in_or_app. left. apply in_or_app. auto.
      * intros k Hk Hi Hold. simpl in Hold.
        destruct (String.eqb key k) eqn:Ekk.
        -- apply String.eqb_eq in Ekk. subst k.
           apply Hmono, in_or_app. left. apply in_or_app. right. simpl. auto.
        -- apply Htake; auto. rewrite get_set, Ekk. exact Hk.
Qed.

(** Every warning of the loop is about a key of the existing words. *)
Lemma merge_loop_warns_old_keys (old : Dict) :
  forall (cur : Dict) (ws : list Warning) (w : Warning),
  In w (snd (fold_left mergeStep old (cur, ws))) ->
  In w ws \/ In (warningKey w) (Obj.keys old).
Proof.
  induction old as [|[key tr] old IH]; intros cur ws w H; [now left|].
  cbn [fold_left] in H. rewrite mergeStep_eq in H.
  assert (Hstep : forall ws', (forall x, In x ws' -> In x ws \/ warningKey x = key) ->
            forall cur', In w (snd (fold_left mergeStep old (cur', ws'))) ->
            In w ws \/ In (warningKey w) (Obj.keys ((key, tr) :: old))).
  { intros ws' Hws' cur' Hw. apply IH in Hw. destruct Hw as [Hw|Hw].
    - apply Hws' in Hw. destruct Hw as [Hw|Hw]; auto. right. left. now rewrite Hw.
    - right. right. exact Hw. }
  destruct (Obj.get cur key) as [e0|]; [|destruct (inherited key)].
  - eapply Hstep; [|exact H]. intros x Hx. apply in_app_or in Hx.
    destruct Hx as [Hx|Hx]; auto. apply in_map_iff in Hx. destruct Hx as [l [<- _]]. auto.
  - eapply Hstep; [|exact H]. intros x Hx. apply in_app_or in Hx.
    destruct Hx as [Hx|Hx]; auto. apply in_map_iff in Hx. destruct Hx as [l [<- _]]. auto.
  - eapply Hstep; [|exact H]. intros x Hx. apply in_app_or in Hx.
    destruct Hx as [Hx|Hx].
    + apply in_app_or in Hx. destruct Hx as [Hx|[<-|[]]]; auto.
    + apply in_map_iff in Hx. destruct Hx as [l [<- _]]. auto.
Qed.

(** The warnings of [adminLanguages2words] are about keys of the existing
    words file only: a key that comes from the language files alone is
    never reported, whatever it lacks. *)
Lemma adminLanguages2words_warns_old_keys_only
  (i18nBase : string) (fs : FS) (wordsText : option string) (r : WordsResult)
  (w : Warning) :
  adminLanguages2words underAdmin evalJs i18nBase fs wordsText = Some r ->
  In w (wr_warnings r) ->
  exists text old, wordsText = Some text /\ parseWordJs evalJs text = Some old
                   /\ In (warningKey w) (Obj.keys old).
Proof.
  unfold adminLanguages2words, obind.
  destruct (buildNewWords underAdmin i18nBase fs) as [new|]; [|discriminate].
  unfold mergeExisting, obind. destruct wordsText as [text|].
  - destruct (parseWordJs evalJs text) as [old|] eqn:Hold.
    + destruct (fold_left mergeStep old (new, [])) as [final ws] eqn:Hfold.
      intros [= <-] Hw. simpl in Hw.
      exists text, old. split; auto. split; auto.
      destruct (merge_loop_warns_old_keys old new [] w) as [[]|H]; auto.
      now rewrite Hfold.
    + intros [= <-] [].
  - intros [= <-] [].
Qed.



End Words.

(** *** Worked examples *)

Lemma exFiles_protoFree :
  protoFree (jsonUnder "/a") (mkPattern "/a/i18n/" ".json") exFiles.
Proof.
  intros file content Hf Hc. vm_compute in Hf.
  destruct Hf as [<-|[<-|[]]]; vm_compute in Hc; injection Hc as <-;
    intros [H|[]]; discriminate.
Defined.




(** A key of a language file that names an inherited member: the entry
    is the built-in function, with the languages of the files only. *)
Lemma adminLanguages2words_inherited_file_key :
  exists r,
    adminLanguages2words (jsonUnder "/a") evalReturn "/a/i18n/en.json"
                         [("/a/i18n/en.json", [("constructor", "Constructor")])]
                         None = Some r
    /\ Obj.get (wr_words r) "constructor" = Some [("en", "Constructor")].
Proof. eexists. split; vm_compute; reflexivity. Qed.

(** C2: the input on which the code and the claim part.  The existing
    words file holds an empty dictionary; the key [hello] comes from the
    English file alone and has no German value, and nothing is printed. *)
Lemma adminLanguages2words_silent_on_new_keys :
  exists r entry,
    adminLanguages2words (jsonUnder "/a") evalReturn "/a/i18n/en.json"
                         [("/a/i18n/en.json", [("hello", "Hello")])]
                         (Some (createWordsJs [])) = Some r
    /\ parseWordJs evalReturn (createWordsJs []) = Some []
    /\ Obj.get (wr_words r) "hello" = Some entry
    /\ falsy (Obj.get entry "de") = true
    /\ wr_warnings r = [].
Proof.
  do 2 eexists. do 4 (split; [vm_compute; reflexivity|]). vm_compute; reflexivity.
Qed.

(** C6: the input on which the code and the claim part.  The existing
    words file has the key [constructor], which no language file has.  The
    test [!newWords[key]] finds the member every object inherits under
    that name and takes the key for present: the old entry is not taken
    over, [Take from current words.js] is not printed, the ten languages
    are reported missing, and the dictionary written has no such key. *)
Lemma adminLanguages2words_loses_inherited_old_key :
  exists new r,
    buildNewWords (jsonUnder "/a") "/a/i18n/en.json" exFiles = Some new
    /\ parseWordJs evalReturn (createWordsJs exInheritedWords) = Some exInheritedWords
    /\ Obj.get exInheritedWords "constructor" = Some [("en", "Constructor")]
    /\ Obj.get new "constructor" = None
    /\ adminLanguages2words (jsonUnder "/a") evalReturn "/a/i18n/en.json" exFiles
                            (Some (createWordsJs exInheritedWords)) = Some r
    /\ Obj.get (wr_words r) "constructor" = None
    /\ includes (Obj.keys (wr_words r)) "constructor" = false
    /\ wr_warnings r = map (fun lang => MissingLang lang "constructor") getLanguages.
Proof.
  do 2 eexists. do 7 (split; [vm_compute; reflexivity|]). vm_compute; reflexivity.
Qed.

(** ** adminWords2languages *)

Lemma get_assign_other (o : Json) (k k' v : string) :
  k <> k' -> Obj.get (assign o k v) k' = Obj.get o k'.
Proof.
  intros Hne. unfold assign.
  destruct (String.eqb k "__proto__" && negb (Obj.hasOwn o k)); auto.
  now apply get_set_other.
Qed.

(** An assignment makes the property, except for [__proto__]. *)
Lemma get_assign_same (o : Json) (k v : string) :
  Obj.get (assign o k v) k
  = if String.eqb k "__proto__" && negb (Obj.hasOwn o k) then None else Some v.
Proof.
  unfold assign, Obj.hasOwn.
  destruct (String.eqb k "__proto__"); cbn [andb]; [|apply get_set_same].
  destruct (Obj.get o k) eqn:E; cbn [negb]; [apply get_set_same | exact E].
Qed.

Lemma assign_plain (o : Json) (k v : string) :
  inherited k = false -> assign o k v = Obj.set o k v.
Proof.
  intros Hk. unfold assign. destruct (String.eqb k "__proto__") eqn:E; auto.
  apply String.eqb_eq in E. subst k. discriminate.
Qed.

Lemma in_set_inv {V : Type} (o : Obj.t V) (k k' : string) (v v' : V) :
  In (k', v') (Obj.set o k v) -> (k' = k /\ v' = v) \/ In (k', v') o.
Proof.
  induction o as [|[k0 v0] o IH]; simpl.
  - intros [H|[]]. inversion H. auto.
  - destruct (String.eqb k0 k) eqn:E; simpl.
    + apply String.eqb_eq in E. subst k0.
      intros [H|H]; [inversion H; auto | auto].
    + intros [H|H]; [auto|]. destruct (IH H); auto.
Qed.

Lemma NoDup_keys_get {V : Type} (o : Obj.t V) (k : string) (v : V) :
  NoDup (Obj.keys o) -> In (k, v) o -> Obj.get o k = Some v.
Proof.
  induction o as [|[k0 v0] o IH]; simpl; intros Hnd H; [contradiction|].
  inversion Hnd; subst. destruct H as [H|H].
  - inversion H; subst. now rewrite String.eqb_refl.
  - destruct (String.eqb k0 k) eqn:E.
    + apply String.eqb_eq in E. subst k0. exfalso. apply H2.
      unfold Obj.keys. change k with (fst (k, v)). now apply in_map.
    + auto.
Qed.

Lemma insertSorted_In (k x : string) (l : list string) :
  In x (insertSorted k l) <-> x = k \/ In x l.
Proof.
  induction l as [|y l IH]; simpl.
  - intuition.
  - destruct (String.leb k y); simpl; rewrite ?IH; intuition.
Qed.

Lemma sortStrings_In (x : string) (l : list string) :
  In x (sortStrings l) <-> In x l.
Proof.
  induction l as [|y l IH]; simpl; [tauto|].
  rewrite insertSorted_In, IH. intuition.
Qed.

Lemma copyKeys_subset (translations : Json) (ks : list string) (acc : Json) (k : string) :
  In k (Obj.keys (fold_left
                    (fun obj key => Obj.set obj key (orEmpty (Obj.get translations key)))
                    ks acc)) ->
  In k ks \/ In k (Obj.keys acc).
Proof.
  revert acc. induction ks as [|x ks IH]; simpl; intros acc H; auto.
  apply IH in H. destruct H as [H|H]; auto.
  apply in_keys_set in H. destruct H; auto.
Qed.

(** The sorted copy has no key the map did not have. *)
Lemma sortedCopy_keys (translations : Json) (k : string) :
  In k (Obj.keys (sortedCopy translations)) -> In k (Obj.keys translations).
Proof.
  unfold sortedCopy. intros H. apply copyKeys_subset in H.
  destruct H as [H|[]]. apply (proj1 (sortStrings_In k _)) in H. exact H.
Qed.

Section WordsToLanguages.
Variable evalJs : string -> option Dict.
Variable word : string.

Local Abbreviation absent := (wordAbsent word).

Lemma absent_set (langs : Obj.t Json) (j : string) (o : Json) :
  absent langs -> Obj.get o word = None -> absent (Obj.set langs j o).
Proof.
  intros Ha Ho j' o' H. apply in_set_inv in H.
  destruct H as [[_ ->]|H]; eauto.
Qed.

Lemma prefillStep_absent (w : string) (langs : Obj.t Json) (j : string) :
  w <> word -> absent langs -> absent (prefillStep w langs j).
Proof.
  intros Hw Ha. unfold prefillStep.
  destruct (Obj.hasOwn langs j); auto.
  destruct (Obj.get langs j) as [o|] eqn:E; auto.
  destruct (inherited w && negb (Obj.hasOwn o w)); auto.
  apply absent_set; auto. rewrite get_set_other; auto.
  apply (Ha j). now apply get_in.
Qed.

Lemma prefill_absent (w : string) (ls : list string) (langs : Obj.t Json) :
  w <> word -> absent langs -> absent (fold_left (prefillStep w) ls langs).
Proof.
  intros Hw. revert langs. induction ls as [|l ls IH]; simpl; intros langs Ha; auto.
  apply IH. now apply prefillStep_absent.
Qed.

Lemma wordLangStep_absent (w : string) (langs langs' : Obj.t Json) (e : string * string) :
  w <> word -> absent langs -> wordLangStep w langs e = Some langs' -> absent langs'.
Proof.
  intros Hw Ha. destruct e as [lang translation]. unfold wordLangStep, obind.
  destruct (Obj.get langs lang) as [o|] eqn:E; [|discriminate].
  intros H.
  assert (Hl : langs' = fold_left (prefillStep w) getLanguages
                                  (Obj.set langs lang (assign o w translation)))
    by congruence.
  rewrite Hl. apply (prefill_absent w getLanguages _ Hw).
  apply absent_set; auto. rewrite get_assign_other; auto.
  apply (Ha lang). now apply get_in.
Qed.

Lemma wordLangs_absent (w : string) (translations : Entry) :
  w <> word ->
  forall langs langs', absent langs ->
  foldM (wordLangStep w) translations langs = Some langs' -> absent langs'.
Proof.
  intros Hw. induction translations as [|e rest IH]; simpl; intros langs langs' Ha H.
  - inversion H. now subst.
  - unfold obind in H. destruct (wordLangStep w langs e) as [l1|] eqn:E; [|discriminate].
    apply (IH l1 langs'); auto. exact (wordLangStep_absent w langs l1 e Hw Ha E).
Qed.

Lemma words2langs_loop_absent (data : Dict) :
  (forall e, In (word, e) data -> e = []) ->
  forall langs langs', absent langs ->
  foldM wordStep data langs = Some langs' -> absent langs'.
Proof.
  induction data as [|[w e] data IH]; simpl; intros Hempty langs langs' Ha H.
  - inversion H. now subst.
  - unfold obind in H. destruct (foldM (wordLangStep w) e langs) as [l1|] eqn:E; [|discriminate].
    apply (IH (fun e' He' => Hempty e' (or_intror He')) l1); auto.
    destruct (String.eqb w word) eqn:Ew.
    + apply String.eqb_eq in Ew. subst w.
      rewrite (Hempty e (or_introl eq_refl)) in E. simpl in E. inversion E. now subst.
    + apply String.eqb_neq in Ew. exact (wordLangs_absent w e Ew langs l1 Ha E).
Qed.

(** The loops assign to languages that are there: the language list of
    [langs] never changes. *)
Lemma prefill_keys (w : string) (ls : list string) (langs : Obj.t Json) :
  Obj.keys (fold_left (prefillStep w) ls langs) = Obj.keys langs.
Proof.
  revert langs. induction ls as [|l ls IH]; simpl; intros langs; auto.
  rewrite IH. unfold prefillStep. destruct (Obj.hasOwn langs l); auto.
  destruct (Obj.get langs l) as [o|] eqn:E; auto.
  destruct (inherited w && negb (Obj.hasOwn o w)); auto.
  eapply keys_set_present; eauto.
Qed.

Lemma wordLangs_keys (w : string) (translations : Entry) :
  forall langs langs',
  foldM (wordLangStep w) translations langs = Some langs' ->
  Obj.keys langs' = Obj.keys langs.
Proof.
  induction translations as [|[lang tr] rest IH]; cbn [foldM]; intros langs langs' H.
  - inversion H. now subst.
  - unfold obind in H.
    destruct (wordLangStep w langs (lang, tr)) as [l1|] eqn:E; [|discriminate].
    apply IH in H. rewrite H. unfold wordLangStep, obind in E.
    destruct (Obj.get langs lang) as [o|] eqn:G; [|discriminate].
    assert (Hl1 : l1 = fold_left (prefillStep w) getLanguages
                                 (Obj.set langs lang (assign o w tr))) by congruence.
    rewrite Hl1, prefill_keys. eapply keys_set_present; eauto.
Qed.

Lemma words2langs_loop_keys (data : Dict) :
  forall langs langs',
  foldM wordStep data langs = Some langs' -> Obj.keys langs' = Obj.keys langs.
Proof.
  induction data as [|[w e] data IH]; simpl; intros langs langs' H.
  - inversion H. now subst.
  - unfold obind in H. destruct (foldM (wordLangStep w) e langs) as [l1|] eqn:E; [|discriminate].
    apply IH in H. apply wordLangs_keys in E. congruence.
Qed.

(** What the loop over [langs] leaves at a path: the copy of one of the
    maps, or what was there. *)
Lemma writeLangs_read (pat : FilePattern) (langs : Obj.t Json) :
  forall (fs : FS) (path : string),
  (exists lang translations,
      In (lang, translations) langs /\ langFileName pat lang = path
      /\ readJson (fold_left (writeLangStep pat) langs fs) path
         = Some (sortedCopy translations))
  \/ ((forall lang translations, In (lang, translations) langs ->
                                 langFileName pat lang <> path)
      /\ readJson (fold_left (writeLangStep pat) langs fs) path = readJson fs path).
Proof.
  induction langs as [|[l0 t0] langs IH]; intros fs path.
  - right. simpl. split; auto.
  - cbn [fold_left]. destruct (IH (writeLangStep pat fs (l0, t0)) path)
      as [[lang [tr [Hin [Hname Hread]]]] | [Hnone Hread]].
    + left. exists lang, tr. split; [right; exact Hin|]. auto.
    + destruct (String.eqb (langFileName pat l0) path) eqn:E.
      * apply String.eqb_eq in E. left. exists l0, t0.
        split; [left; reflexivity|]. split; [exact E|].
        rewrite Hread. unfold readJson, writeLangStep, writeJson. rewrite <- E.
        apply get_set_same.
      * apply String.eqb_neq in E. right. split.
        -- intros lang tr [H|H]; [inversion H; now subst | eauto].
        -- rewrite Hread. unfold readJson, writeLangStep, writeJson.
           now apply get_set_other.
Qed.

(** C10. A word whose entry in the dictionary read from the words file is
    an empty map is in none of the language files [adminWords2languages]
    writes. *)
Theorem adminWords2languages_drops_empty_entries
  (words i18nBase : string) (fs fs' : FS) (pat : FilePattern) (data : Dict) :
  createFilePattern i18nBase = Ok pat ->
  parseWordJs evalJs words = Some data ->
  NoDup (Obj.keys data) ->
  Obj.get data word = Some [] ->
  adminWords2languages evalJs words i18nBase fs = Some fs' ->
  forall lang, In lang getLanguages ->
  exists content,
    readJson fs' (langFileName pat lang) = Some content
    /\ Obj.get content word = None.
Proof.
  intros Hpat Hdata Hnd Hword Hrun lang Hlang.
  unfold adminWords2languages in Hrun. rewrite Hpat, Hdata in Hrun.
  unfold obind at 1 in Hrun. unfold obind in Hrun.
  destruct (words2langs data) as [langs|] eqn:Hlangs; [|discriminate].
  inversion Hrun; subst fs'. clear Hrun. unfold words2langs in Hlangs.
  assert (Habsent : absent langs).
  { apply (words2langs_loop_absent data) with (langs := createEmptyLangObject (fun _ => Obj.empty));
      [| |exact Hlangs].
    - intros e He. apply (NoDup_keys_get data word e Hnd) in He. congruence.
    - intros j o H. simpl in H.
      repeat (destruct H as [H|H]; [inversion H; reflexivity|]). contradiction. }
  assert (Hkeys : Obj.keys langs = getLanguages).
  { apply words2langs_loop_keys in Hlangs. now rewrite Hlangs. }
  destruct (writeLangs_read pat langs fs (langFileName pat lang))
    as [[l [tr [Hin [Hname Hread]]]] | [Hnone _]].
  - exists (sortedCopy tr). split; auto.
    apply get_none_not_in. intros Hk. apply sortedCopy_keys in Hk.
    apply in_keys_get in Hk. apply Hk. eapply Habsent; eauto.
  - exfalso. rewrite <- Hkeys in Hlang. apply in_keys_get in Hlang.
    destruct (Obj.get langs lang) as [tr|] eqn:E; [|congruence].
    apply get_in in E. eapply Hnone; eauto.
Qed.

End WordsToLanguages.

(** [adminWords2languages] completes when the base name is valid, the
    words file evaluates to a dictionary and every language in it is one of
    the set. *)
Lemma wordLangs_total (w : string) (translations : Entry) :
  (forall l v, In (l, v) translations -> In l getLanguages) ->
  forall langs, Obj.keys langs = getLanguages ->
  exists langs', foldM (wordLangStep w) translations langs = Some langs'.
Proof.
  induction translations as [|[lang tr] rest IH]; cbn [foldM]; intros Hin langs Hk.
  - eauto.
  - assert (Hl : In lang (Obj.keys langs)).
    { rewrite Hk. apply (Hin lang tr). now left. }
    apply in_keys_get in Hl. destruct (Obj.get langs lang) as [o|] eqn:G; [|tauto].
    assert (E : wordLangStep w langs (lang, tr)
                = Some (fold_left (prefillStep w) getLanguages
                                  (Obj.set langs lang (assign o w tr)))).
    { unfold wordLangStep, obind. now rewrite G. }
    rewrite E. unfold obind. apply IH.
    + intros l v H. apply (Hin l v). now right.
    + rewrite prefill_keys, <- Hk. eapply keys_set_present; eauto.
Qed.

Lemma words2langs_total (data : Dict) :
  (forall w e l v, In (w, e) data -> In (l, v) e -> In l getLanguages) ->
  exists langs, words2langs data = Some langs.
Proof.
  unfold words2langs.
  assert (H0 : Obj.keys (createEmptyLangObject (fun _ : unit => @Obj.empty string))
               = getLanguages) by reflexivity.
  revert H0. generalize (createEmptyLangObject (fun _ : unit => @Obj.empty string)).
  induction data as [|[w e] data IH]; cbn [foldM]; intros langs Hk Hin.
  - eauto.
  - destruct (wordLangs_total w e (fun l v H => Hin w e l v (or_introl eq_refl) H) langs Hk)
      as [l1 E].
    unfold wordStep at 1. rewrite E. unfold obind. apply IH.
    + apply wordLangs_keys in E. etransitivity; [exact E | exact Hk].
    + intros w' e' l v H1 H2. apply (Hin w' e' l v); auto. now right.
Qed.

Lemma adminWords2languages_drops_empty_entries_example :
  (createFilePattern "/a/i18n/en.json" = Ok (mkPattern "/a/i18n/" ".json")
   /\ parseWordJs evalReturn (createWordsJs exWordsWithEmpty) = Some exWordsWithEmpty
   /\ NoDup (Obj.keys exWordsWithEmpty)
   /\ Obj.get exWordsWithEmpty "bye" = Some [])
  /\ exists fs',
       adminWords2languages evalReturn (createWordsJs exWordsWithEmpty)
                            "/a/i18n/en.json" [] = Some fs'
       /\ forall lang, In lang getLanguages ->
          exists content,
            readJson fs' (langFileName (mkPattern "/a/i18n/" ".json") lang) = Some content
            /\ Obj.get content "bye" = None.
Proof.
  assert (Hnd : NoDup (Obj.keys exWordsWithEmpty)).
  { repeat (constructor; [simpl; intuition discriminate|]). constructor. }
  split.
  - split; [vm_compute; reflexivity|]. split; [vm_compute; reflexivity|].
    split; [exact Hnd | vm_compute; reflexivity].
  - eexists. split; [vm_compute; reflexivity|].
    apply (adminWords2languages_drops_empty_entries evalReturn "bye"
             (createWordsJs exWordsWithEmpty) "/a/i18n/en.json" [] _
             (mkPattern "/a/i18n/" ".json") exWordsWithEmpty);
      try (vm_compute; reflexivity).
    exact Hnd.
Defined.

(** ** translateI18nJson *)

Lemma lacks_falsy (o : Json) (k : string) : lacks o k = true -> falsy (Obj.get o k) = true.
Proof. unfold lacks. now destruct (Obj.get o k). Qed.

Lemma lacks_own (o : Json) (k : string) :
  In k (Obj.keys o) -> lacks o k = falsy (Obj.get o k).
Proof.
  intros H. apply in_keys_get in H. unfold lacks.
  destruct (Obj.get o k); [reflexivity | congruence].
Qed.

Lemma lacks_plain (o : Json) (k : string) :
  inherited k = false -> lacks o k = falsy (Obj.get o k).
Proof. intros H. unfold lacks. destruct (Obj.get o k); auto. now rewrite H. Qed.

Lemma truthy_not_lacks (o : Json) (k : string) :
  truthy (Obj.get o k) = true -> lacks o k = false.
Proof.
  unfold truthy, lacks. destruct (Obj.get o k); simpl; [|discriminate].
  now destruct (String.eqb s "").
Qed.

Section I18nJson.
Variable translateText : string -> string -> string.
Variable lang : string.

Local Abbreviation stepC := (fillStep translateText lang).
Local Abbreviation settled := (settledKey translateText lang).

Lemma i18nJsonStep_eq (content : Json) (log : list (string * Call)) (e : string * string) :
  i18nJsonStep translateText lang (content, log) e
  = (stepC content e,
     if lacks content (fst e)
     then (log ++ [(fst e, mkCall (snd e) lang)])%list else log).
Proof.
  destruct e as [t b]. unfold i18nJsonStep, stepC. simpl.
  now destruct (lacks content t).
Qed.

Lemma i18nJson_loop_fst (base : Json) :
  forall content log,
  fst (fold_left (i18nJsonStep translateText lang) base (content, log))
  = fold_left stepC base content.
Proof.
  induction base as [|e base IH]; intros content log; [reflexivity|].
  cbn [fold_left]. rewrite i18nJsonStep_eq. apply IH.
Qed.

(** A step adds the key of the entry, unless it names an inherited member
    the content does not have. *)
Lemma stepC_keys (content : Json) (e : string * string) (k : string) :
  In k (Obj.keys (stepC content e))
  <-> In k (Obj.keys content) \/ (k = fst e /\ inherited k = false).
Proof.
  unfold stepC. destruct (lacks content (fst e)) eqn:Ef.
  - rewrite in_keys_set. split.
    + intros [-> | H]; auto.
      unfold lacks in Ef. destruct (Obj.get content (fst e)) eqn:G.
      * left. eapply get_some_in; eauto.
      * right. split; auto. now apply negb_true_iff in Ef.
    + intros [H | [-> _]]; auto.
  - split; [auto|]. intros [H | [-> Hi]]; auto.
    rewrite (lacks_plain content (fst e) Hi) in Ef.
    apply in_keys_get. intros Hn. rewrite Hn in Ef. discriminate.
Qed.

Lemma stepC_loop_keys (base : Json) :
  forall content k,
  In k (Obj.keys (fold_left stepC base content))
  <-> In k (Obj.keys content) \/ (In k (Obj.keys base) /\ inherited k = false).
Proof.
  induction base as [|e base IH]; intros content k; cbn [fold_left].
  - simpl. tauto.
  - rewrite IH, stepC_keys. simpl. intuition (subst; auto).
Qed.

(** A value that is not empty is never touched. *)
Lemma stepC_loop_truthy (base : Json) :
  forall content k,
  truthy (Obj.get content k) = true ->
  Obj.get (fold_left stepC base content) k = Obj.get content k.
Proof.
  induction base as [|e base IH]; intros content k Hk; cbn [fold_left]; auto.
  assert (Hstep : Obj.get (stepC content e) k = Obj.get content k).
  { unfold stepC. destruct (lacks content (fst e)) eqn:Ef; auto.
    apply get_set_other. intros <-. rewrite (truthy_not_lacks _ _ Hk) in Ef.
    discriminate. }
  rewrite IH; rewrite Hstep; auto.
Qed.

Lemma stepC_fixed (content : Json) (e : string * string) :
  settled content e -> stepC content e = content.
Proof.
  unfold settled, stepC. intros [H|H].
  - destruct (lacks content (fst e)); auto. now apply set_get_id.
  - now rewrite H.
Qed.

Lemma stepC_settles (content : Json) (e : string * string) :
  settled (stepC content e) e.
Proof.
  unfold settled, stepC.
  destruct (lacks content (fst e)) eqn:Ef.
  - left. apply get_set_same.
  - right. exact Ef.
Qed.

Lemma falsy_some (s : string) : falsy (Some s) = true -> s = "".
Proof. simpl. apply String.eqb_eq. Qed.

Lemma stepC_keeps_settled (content : Json) (e e' : string * string) :
  settled content e -> settled (stepC content e') e.
Proof.
  unfold settled, stepC. intros H.
  destruct (lacks content (fst e')) eqn:Ef; auto.
  unfold lacks. rewrite get_set.
  destruct (String.eqb (fst e') (fst e)) eqn:Ek; [|exact H].
  apply String.eqb_eq in Ek. rewrite Ek in Ef.
  destruct H as [H|H]; [|congruence].
  unfold lacks in Ef. rewrite H in Ef. apply String.eqb_eq in Ef.
  destruct (translateText (snd e') lang) as [|c s] eqn:Et.
  - left. now rewrite Ef.
  - right. reflexivity.
Qed.

Lemma stepC_loop_settled (base : Json) :
  forall content e,
  In e base \/ settled content e -> settled (fold_left stepC base content) e.
Proof.
  induction base as [|e0 base IH]; intros content e H; cbn [fold_left].
  - destruct H as [[]|H]. exact H.
  - apply IH. destruct H as [[-> | H] | H]; auto.
    + right. apply stepC_settles.
    + right. now apply stepC_keeps_settled.
Qed.

Lemma settled_loop_fixed (base : Json) (content : Json) :
  (forall e, In e base -> settled content e) ->
  forall log,
  exists log',
    fold_left (i18nJsonStep translateText lang) base (content, log) = (content, log')
    /\ forall kc, In kc log' -> In kc log \/ falsy (Obj.get content (fst kc)) = true.
Proof.
  induction base as [|e base IH]; intros Hs log; cbn [fold_left].
  - exists log. auto.
  - rewrite i18nJsonStep_eq, stepC_fixed by (apply Hs; now left).
    destruct (IH (fun e' He' => Hs e' (or_intror He'))
                 (if lacks content (fst e)
                  then (log ++ [(fst e, mkCall (snd e) lang)])%list else log))
      as [log' [Hfold Hlog]].
    exists log'. split; auto.
    intros kc Hkc. apply Hlog in Hkc. destruct Hkc as [Hkc|Hkc]; auto.
    destruct (lacks content (fst e)) eqn:Ef; auto.
    apply in_app_or in Hkc. destruct Hkc as [Hkc|[<-|[]]]; auto.
    right. now apply lacks_falsy.
Qed.

(** What [translateI18nJson] leaves is stable: a second pass with the
    same base changes nothing. *)
Lemma filled_stable (base content : Json) :
  stable translateText lang base (filled translateText lang base content).
Proof.
  unfold stable, filled, translateI18nJson.
  destruct (String.eqb lang "en"); [simpl; split; [reflexivity | intros kc []]|].
  rewrite !i18nJson_loop_fst.
  destruct (settled_loop_fixed base (fold_left stepC base content)
              (fun e He => stepC_loop_settled base content e (or_introl He)) [])
    as [log' [Hfold Hlog]].
  split.
  - rewrite <- (i18nJson_loop_fst base (fold_left stepC base content) []).
    now rewrite Hfold.
  - rewrite Hfold. simpl.
    intros kc Hkc. destruct (Hlog kc Hkc) as [[]|H]. exact H.
Qed.

Lemma filled_idempotent (base content : Json) :
  filled translateText lang base (filled translateText lang base content)
  = filled translateText lang base content.
Proof. apply filled_stable. Qed.

(** The keys afterwards: those the content had, and those of the base
    that name no inherited member. *)
Lemma filled_keys (base content : Json) (k : string) :
  lang <> "en" ->
  (In k (Obj.keys (filled translateText lang base content))
   <-> In k (Obj.keys content) \/ (In k (Obj.keys base) /\ inherited k = false)).
Proof.
  intros Hne. apply String.eqb_neq in Hne.
  unfold filled, translateI18nJson. rewrite Hne, i18nJson_loop_fst.
  apply stepC_loop_keys.
Qed.

Lemma filled_truthy (base content : Json) (k : string) :
  truthy (Obj.get content k) = true ->
  Obj.get (filled translateText lang base content) k = Obj.get content k.
Proof.
  intros Hk. unfold filled, translateI18nJson.
  destruct (String.eqb lang "en"); [reflexivity|].
  rewrite i18nJson_loop_fst. now apply stepC_loop_truthy.
Qed.

Lemma filled_en (base content : Json) :
  lang = "en" -> translateI18nJson translateText content lang base = (content, []).
Proof. intros ->. reflexivity. Qed.

End I18nJson.

(** ** translateI18n *)

Lemma foundLangs_In (pat : FilePattern) (files : list string) (l : string) :
  In l (foundLangs pat files) <-> exists f, In f files /\ matchLang pat f = Some l.
Proof.
  unfold foundLangs. rewrite in_flat_map. split.
  - intros [f [Hf Hl]]. exists f. split; auto.
    destruct (matchLang pat f) as [l'|]; [|contradiction].
    destruct Hl as [->|[]]. reflexivity.
  - intros [f [Hf Hl]]. exists f. split; auto. rewrite Hl. now left.
Qed.

Lemma remove_In_iff (x a : string) (l : list string) :
  In x (remove string_dec a l) <-> In x l /\ x <> a.
Proof.
  split.
  - apply in_remove.
  - intros [H1 H2]. now apply in_in_remove.
Qed.

Section I18n.
Variable translateText : string -> string -> string.
Variable pat : FilePattern.
Variable baseContent : Json.

Local Abbreviation step := (existingFileStep translateText pat baseContent).
Local Abbreviation fill := (filled translateText).
Local Abbreviation fillAt := (filledAt translateText pat baseContent).

Lemma step_eq (st : I18nState) (file : string) :
  step st file
  = match matchLang pat file with
    | None => Some st
    | Some l =>
        if String.eqb l "en"
        then Some (mkI18nState (st_fs st) (remove string_dec l (st_missing st)) (st_log st))
        else
          match readJson (st_fs st) file with
          | None => None
          | Some c =>
              Some (mkI18nState
                      (writeJson (st_fs st) file (fill l baseContent c))
                      (remove string_dec l (st_missing st))
                      (st_log st
                       ++ fillsOf file (snd (translateI18nJson translateText c l baseContent)))%list)
          end
    end.
Proof.
  unfold existingFileStep, filled. destruct (matchLang pat file) as [l|]; auto.
  destruct (String.eqb l "en"); auto.
  unfold obind. destruct (readJson (st_fs st) file) as [c|]; auto.
  now destruct (translateI18nJson translateText c l baseContent).
Qed.

(** One iteration, seen from any path. *)
Lemma step_read (st st' : I18nState) (file : string) :
  step st file = Some st' ->
  forall p, readJson (st_fs st') p
            = if rewritten pat [file] p
              then option_map (fillAt p) (readJson (st_fs st) p)
              else readJson (st_fs st) p.
Proof.
  rewrite step_eq. intros H p. unfold rewritten, filledAt, includes. simpl.
  rewrite orb_false_r.
  destruct (String.eqb p file) eqn:Ep.
  - apply String.eqb_eq in Ep. subst p.
    destruct (matchLang pat file) as [l|]; [|now inversion H].
    destruct (String.eqb l "en"); simpl; [now inversion H|].
    destruct (readJson (st_fs st) file) as [c|] eqn:Ec; [|discriminate].
    inversion H. simpl. unfold readJson, writeJson. apply get_set_same.
  - assert (Hsame : readJson (st_fs st') p = readJson (st_fs st) p).
    { destruct (matchLang pat file) as [l|]; [|now inversion H].
      destruct (String.eqb l "en"); [now inversion H|].
      destruct (readJson (st_fs st) file) as [c|]; [|discriminate].
      inversion H. simpl. unfold readJson, writeJson. apply get_set_other.
      intros <-. now rewrite String.eqb_refl in Ep. }
    destruct (matchLang pat p); [rewrite andb_false_r|]; exact Hsame.
Qed.

Lemma step_keys (st st' : I18nState) (file : string) :
  step st file = Some st' -> Obj.keys (st_fs st') = Obj.keys (st_fs st).
Proof.
  rewrite step_eq. intros H.
  destruct (matchLang pat file) as [l|]; [|now inversion H].
  destruct (String.eqb l "en"); [now inversion H|].
  destruct (readJson (st_fs st) file) as [c|] eqn:Ec; [|discriminate].
  inversion H. simpl. unfold writeJson. eapply keys_set_present. exact Ec.
Qed.

Lemma step_missing (st st' : I18nState) (file : string) :
  step st file = Some st' ->
  forall l, In l (st_missing st')
            <-> In l (st_missing st) /\ ~ In l (foundLangs pat [file]).
Proof.
  rewrite step_eq. intros H l. unfold foundLangs. simpl. rewrite app_nil_r.
  destruct (matchLang pat file) as [l0|].
  - assert (Hm : st_missing st' = remove string_dec l0 (st_missing st)).
    { destruct (String.eqb l0 "en"); [now inversion H|].
      destruct (readJson (st_fs st) file); [now inversion H | discriminate]. }
    rewrite Hm, remove_In_iff. simpl. intuition congruence.
  - inversion H. simpl. tauto.
Qed.

Lemma fillAt_idempotent (p : string) (c : option Json) :
  option_map (fillAt p) (option_map (fillAt p) c) = option_map (fillAt p) c.
Proof.
  destruct c as [c|]; simpl; auto. unfold filledAt.
  destruct (matchLang pat p); auto. now rewrite filled_idempotent.
Qed.

Lemma rewritten_cons (file : string) (files : list string) (p : string) :
  rewritten pat (file :: files) p = rewritten pat [file] p || rewritten pat files p.
Proof.
  unfold rewritten. destruct (matchLang pat p) as [l|]; auto.
  unfold includes. simpl. rewrite orb_false_r.
  destruct (negb (String.eqb l "en")); auto.
Qed.

(** The first loop, seen from any path: the files found for a language
    other than English are filled, every other path is as before. *)
Lemma loop1_read (files : list string) :
  forall st st',
  foldM step files st = Some st' ->
  forall p, readJson (st_fs st') p
            = if rewritten pat files p
              then option_map (fillAt p) (readJson (st_fs st) p)
              else readJson (st_fs st) p.
Proof.
  induction files as [|f files IH]; intros st st' H p.
  - inversion H. unfold rewritten, includes. simpl.
    destruct (matchLang pat p); [now rewrite andb_false_r | reflexivity].
  - cbn [foldM] in H. unfold obind in H.
    destruct (step st f) as [st1|] eqn:E; [|discriminate].
    rewrite (IH st1 st' H p), (step_read st st1 f E p), (rewritten_cons f files p).
    destruct (rewritten pat [f] p), (rewritten pat files p); simpl; auto.
    apply fillAt_idempotent.
Qed.

Lemma loop1_keys (files : list string) :
  forall st st',
  foldM step files st = Some st' -> Obj.keys (st_fs st') = Obj.keys (st_fs st).
Proof.
  induction files as [|f files IH]; intros st st' H.
  - now inversion H.
  - cbn [foldM] in H. unfold obind in H.
    destruct (step st f) as [st1|] eqn:E; [|discriminate].
    rewrite (IH st1 st' H). exact (step_keys st st1 f E).
Qed.

Lemma loop1_missing (files : list string) :
  forall st st',
  foldM step files st = Some st' ->
  forall l, In l (st_missing st')
            <-> In l (st_missing st) /\ ~ In l (foundLangs pat files).
Proof.
  induction files as [|f files IH]; intros st st' H l.
  - inversion H. simpl. tauto.
  - cbn [foldM] in H. unfold obind in H.
    destruct (step st f) as [st1|] eqn:E; [|discriminate].
    rewrite (IH st1 st' H l), (step_missing st st1 f E l).
    change (f :: files) with ([f] ++ files)%list.
    unfold foundLangs. rewrite flat_map_app, in_app_iff. tauto.
Qed.

(** The first loop completes when the files it is given are there. *)
Lemma loop1_total (files : list string) :
  forall st,
  (forall f, In f files -> In f (Obj.keys (st_fs st))) ->
  exists st', foldM step files st = Some st'.
Proof.
  induction files as [|f files IH]; intros st Hin; cbn [foldM]; eauto.
  assert (Hs : exists st1, step st f = Some st1).
  { rewrite step_eq. destruct (matchLang pat f) as [l|]; eauto.
    destruct (String.eqb l "en"); eauto.
    assert (Hf : In f (Obj.keys (st_fs st))) by (apply Hin; now left).
    apply in_keys_get in Hf. unfold readJson.
    destruct (Obj.get (st_fs st) f); eauto. congruence. }
  destruct Hs as [st1 Hs]. rewrite Hs. unfold obind. apply IH.
  intros f' Hf'. rewrite (step_keys st st1 f Hs). apply Hin. now right.
Qed.

End I18n.

Section I18nLoops.
Variable translateText : string -> string -> string.
Variable pat : FilePattern.
Variable baseContent : Json.

Local Abbreviation step := (existingFileStep translateText pat baseContent).
Local Abbreviation step2 := (missingLangStep translateText pat baseContent).
Local Abbreviation fill := (filled translateText).
Local Abbreviation fillAt := (filledAt translateText pat baseContent).
Local Abbreviation name := (langFileName pat).

Lemma step2_eq (fs : FS) (log : list Fill) (l : string) :
  step2 (fs, log) l
  = (writeJson fs (name l) (fill l baseContent Obj.empty),
     (log ++ fillsOf (name l)
                     (snd (translateI18nJson translateText Obj.empty l baseContent)))%list).
Proof.
  unfold missingLangStep, filled.
  now destruct (translateI18nJson translateText Obj.empty l baseContent).
Qed.

Lemma generated_cons (l0 : string) (missing : list string) (p : string) :
  generated pat (l0 :: missing) p
  = match matchLang pat p with
    | Some l => (String.eqb l l0 || includes missing l) && String.eqb p (name l)
    | None => false
    end.
Proof. reflexivity. Qed.

(** The second loop, seen from any path: the generated names of the
    missing languages hold a freshly filled map, every other path is as
    before. *)
Lemma loop2_read (missing : list string) :
  (forall l, In l missing -> In l getLanguages) ->
  forall fs log p,
  readJson (fst (fold_left step2 missing (fs, log))) p
  = if generated pat missing p then Some (fillAt p Obj.empty) else readJson fs p.
Proof.
  induction missing as [|l0 missing IH]; intros Hin fs log p.
  - simpl. unfold generated. now destruct (matchLang pat p).
  - cbn [fold_left]. rewrite step2_eq.
    rewrite IH by (intros l Hl; apply Hin; now right).
    assert (Hl0 : matchLang pat (name l0) = Some l0)
      by (apply matchLang_generated, Hin; now left).
    rewrite generated_cons. unfold generated, filledAt, readJson, writeJson.
    rewrite get_set.
    destruct (String.eqb (name l0) p) eqn:Ep.
    + apply String.eqb_eq in Ep. subst p. rewrite Hl0.
      rewrite !String.eqb_refl. simpl. rewrite andb_true_r.
      now destruct (includes missing l0).
    + destruct (matchLang pat p) as [l|]; auto.
      destruct (String.eqb l l0) eqn:El; simpl; auto.
      apply String.eqb_eq in El. subst l.
      rewrite String.eqb_sym, Ep, andb_false_r. reflexivity.
Qed.

Lemma loop2_log (missing : list string) :
  forall fs log x,
  In x (snd (fold_left step2 missing (fs, log))) ->
  In x log \/ exists l, In l missing /\ fill_file x = name l.
Proof.
  induction missing as [|l0 missing IH]; intros fs log x H.
  - now left.
  - cbn [fold_left] in H. rewrite step2_eq in H. apply IH in H.
    destruct H as [H|[l [Hl Hx]]].
    + apply in_app_or in H. destruct H as [H|H]; auto.
      right. exists l0. split; [now left|].
      unfold fillsOf in H. apply in_map_iff in H. destruct H as [kc [<- _]]. reflexivity.
    + right. exists l. split; auto. now right.
Qed.

(** On files that are stable the first loop writes back what it read. *)
Lemma loop1_stable (files : list string) :
  forall st,
  (forall f l, In f files -> matchLang pat f = Some l -> l <> "en" ->
               exists c, readJson (st_fs st) f = Some c
                         /\ stable translateText l baseContent c) ->
  exists st',
    foldM step files st = Some st'
    /\ st_fs st' = st_fs st
    /\ forall x, In x (st_log st') ->
                 In x (st_log st)
                 \/ exists c, readJson (st_fs st) (fill_file x) = Some c
                              /\ falsy (Obj.get c (fill_key x)) = true.
Proof.
  induction files as [|f files IH]; intros st Hst; cbn [foldM].
  - exists st. auto.
  - assert (Hs : exists st1, step st f = Some st1 /\ st_fs st1 = st_fs st
                 /\ forall x, In x (st_log st1) ->
                      In x (st_log st)
                      \/ exists c, readJson (st_fs st) (fill_file x) = Some c
                                   /\ falsy (Obj.get c (fill_key x)) = true).
    { rewrite step_eq. destruct (matchLang pat f) as [l|] eqn:El; [|exists st; auto].
      destruct (String.eqb l "en") eqn:Een; [eexists; simpl; eauto|].
      apply String.eqb_neq in Een.
      destruct (Hst f l (or_introl eq_refl) El Een) as [c [Hc [Hfix Hcalls]]].
      rewrite Hc. eexists. split; [reflexivity|]. simpl. split.
      - rewrite Hfix. unfold writeJson. now apply set_get_id.
      - intros x Hx. apply in_app_or in Hx. destruct Hx as [Hx|Hx]; auto.
        right. unfold fillsOf in Hx. apply in_map_iff in Hx.
        destruct Hx as [kc [<- Hkc]]. simpl. eauto. }
    destruct Hs as [st1 [Hs [Hfs Hlog]]]. rewrite Hs. unfold obind.
    destruct (IH st1) as [st' [Hfold [Hfs' Hlog']]].
    { intros f' l Hf' Hl Hne. rewrite Hfs. apply (Hst f' l); auto. now right. }
    exists st'. split; auto. split; [congruence|].
    intros x Hx. apply Hlog' in Hx. destruct Hx as [Hx|Hx]; auto.
    right. now rewrite <- Hfs.
Qed.

(** When the generated names already hold the freshly filled maps, the
    second loop writes the same again. *)
Lemma loop2_stable (missing : list string) :
  forall fs log,
  (forall l, In l missing ->
             readJson fs (name l) = Some (fill l baseContent Obj.empty)) ->
  fst (fold_left step2 missing (fs, log)) = fs.
Proof.
  induction missing as [|l0 missing IH]; intros fs log H; [reflexivity|].
  cbn [fold_left]. rewrite step2_eq.
  assert (Hw : writeJson fs (name l0) (fill l0 baseContent Obj.empty) = fs).
  { unfold writeJson. apply set_get_id. apply H. now left. }
  rewrite Hw. apply IH. intros l Hl. apply H. now right.
Qed.

End I18nLoops.

Section I18nRun.
Variable translateText : string -> string -> string.
Variable underAdmin : string -> bool.

Local Abbreviation fill := (filled translateText).
Local Abbreviation found := (discovered underAdmin).

Lemma discovered_In (pat : FilePattern) (fs : FS) (f : string) :
  In f (found pat fs)
  <-> In f (Obj.keys fs) /\ underAdmin f = true
      /\ exists l, matchLang pat f = Some l /\ In l getLanguages.
Proof.
  unfold discovered, glob, isLanguageFile. rewrite !filter_In. split.
  - intros [[H1 H2] H3]. destruct (matchLang pat f) as [l|]; [|discriminate].
    apply includes_In in H3. eauto.
  - intros [H1 [H2 [l [Hl Hin]]]]. rewrite Hl. apply includes_In in Hin. auto.
Qed.

Lemma findAllLanguageFiles_eq (base : string) (pat : FilePattern) (fs : FS) :
  createFilePattern base = Ok pat ->
  findAllLanguageFiles underAdmin base fs = Some (found pat fs).
Proof. unfold findAllLanguageFiles. now intros ->. Qed.

(** The two loops of a run that completes. *)
Lemma translateI18n_inv (base : string) (fs fs' : FS) (log : list Fill)
  (pat : FilePattern) (B : Json) :
  createFilePattern base = Ok pat ->
  readJson fs base = Some B ->
  translateI18n translateText underAdmin base fs = Some (fs', log) ->
  exists st1,
    foldM (existingFileStep translateText pat B) (found pat fs)
          (mkI18nState fs getLanguages []) = Some st1
    /\ fold_left (missingLangStep translateText pat B) (st_missing st1)
                 (st_fs st1, st_log st1) = (fs', log).
Proof.
  intros Hpat HB. unfold translateI18n.
  rewrite (findAllLanguageFiles_eq base pat fs Hpat), Hpat, HB. unfold obind.
  destruct (foldM _ _ _) as [st1|]; [|discriminate].
  intros H. exists st1. split; auto. congruence.
Qed.

(** [translateI18n] completes when the base name is valid and the base
    file is there. *)
Lemma translateI18n_total (base : string) (fs : FS) (pat : FilePattern) (B : Json) :
  createFilePattern base = Ok pat ->
  readJson fs base = Some B ->
  exists r, translateI18n translateText underAdmin base fs = Some r.
Proof.
  intros Hpat HB. unfold translateI18n.
  rewrite (findAllLanguageFiles_eq base pat fs Hpat), Hpat, HB. unfold obind.
  destruct (loop1_total translateText pat B (found pat fs)
              (mkI18nState fs getLanguages [])) as [st1 H1].
  { intros f Hf. apply discovered_In in Hf. simpl. tauto. }
  rewrite H1. eauto.
Qed.

(** A run that completes, seen from any path. *)
Lemma translateI18n_read (base : string) (fs fs' : FS) (log : list Fill)
  (pat : FilePattern) (B : Json) :
  createFilePattern base = Ok pat ->
  readJson fs base = Some B ->
  translateI18n translateText underAdmin base fs = Some (fs', log) ->
  exists missing,
    (forall l, In l missing
               <-> In l getLanguages /\ ~ In l (foundLangs pat (found pat fs)))
    /\ forall p,
       readJson fs' p
       = if generated pat missing p
         then Some (filledAt translateText pat B p Obj.empty)
         else if rewritten pat (found pat fs) p
              then option_map (filledAt translateText pat B p) (readJson fs p)
              else readJson fs p.
Proof.
  intros Hpat HB Hrun.
  destruct (translateI18n_inv base fs fs' log pat B Hpat HB Hrun) as [st1 [H1 H2]].
  exists (st_missing st1).
  assert (Hm : forall l, In l (st_missing st1)
                 <-> In l getLanguages /\ ~ In l (foundLangs pat (found pat fs))).
  { intros l. apply (loop1_missing translateText pat B _ _ _ H1). }
  split; [exact Hm|]. intros p.
  replace fs' with (fst (fold_left (missingLangStep translateText pat B) (st_missing st1)
                                   (st_fs st1, st_log st1))) by (now rewrite H2).
  rewrite loop2_read by (intros l Hl; now apply Hm in Hl).
  now rewrite (loop1_read translateText pat B _ _ _ H1 p).
Qed.


(** What a run does to the English base file.  When a file is found for
    English the base file stays as it is; when none is found, the second
    loop takes English for a missing language and ends by writing an empty
    map to the generated name, which is the base file. *)
Lemma translateI18n_english_file (base : string) (fs fs' : FS) (log : list Fill)
  (pat : FilePattern) (B : Json) :
  createFilePattern base = Ok pat ->
  readJson fs base = Some B ->
  translateI18n translateText underAdmin base fs = Some (fs', log) ->
  (In "en" (foundLangs pat (discovered underAdmin pat fs)) -> readJson fs' base = Some B)
  /\ (~ In "en" (foundLangs pat (discovered underAdmin pat fs)) ->
      readJson fs' base = Some Obj.empty).
Proof.
  intros Hpat HB Hrun.
  destruct (translateI18n_read base fs fs' log pat B Hpat HB Hrun) as [missing [Hm Hread]].
  destruct (createFilePattern_ok base pat Hpat) as [Hname Hmatch].
  pose proof (Hread base) as Hr. unfold generated, rewritten, filledAt in Hr.
  rewrite Hmatch, Hname, String.eqb_refl in Hr. simpl in Hr. rewrite andb_true_r in Hr.
  split; intros Hen.
  - rewrite includes_false in Hr; [congruence|]. rewrite Hm. tauto.
  - assert (Hinc : includes missing "en" = true).
    { apply includes_In, Hm. split; auto. unfold getLanguages. now left. }
    rewrite Hinc in Hr. exact Hr.
Qed.

End I18nRun.

Section I18nTwice.
Variable translateText : string -> string -> string.
Variable underAdmin : string -> bool.

Local Abbreviation fill := (filled translateText).
Local Abbreviation found := (discovered underAdmin).

(** After a run, every language file the next run can find is stable. *)
Lemma translateI18n_leaves_stable (base : string) (fs0 fs1 : FS) (log1 : list Fill)
  (pat : FilePattern) (B : Json) :
  createFilePattern base = Ok pat ->
  readJson fs0 base = Some B ->
  translateI18n translateText underAdmin base fs0 = Some (fs1, log1) ->
  forall f l,
    In f (found pat fs1) -> matchLang pat f = Some l -> l <> "en" ->
    exists c, readJson fs1 f = Some c /\ stable translateText l B c.
Proof.
  intros Hpat HB Hrun f l Hf Hl Hne.
  destruct (translateI18n_read translateText underAdmin base fs0 fs1 log1 pat B Hpat HB Hrun)
    as [missing [Hm Hread]].
  apply discovered_In in Hf. destruct Hf as [Hk [Hu [l' [Hl' Hin]]]].
  assert (l' = l) by congruence. subst l'.
  pose proof (Hread f) as Hr. unfold generated, rewritten, filledAt in Hr.
  rewrite Hl in Hr.
  destruct (includes missing l && String.eqb f (langFileName pat l)).
  - eexists. split; [exact Hr|]. apply filled_stable.
  - apply String.eqb_neq in Hne. rewrite Hne in Hr. simpl in Hr.
    apply in_keys_get in Hk. unfold readJson in *.
    destruct (includes (found pat fs0) f) eqn:Einc.
    + destruct (Obj.get fs0 f) as [old|]; simpl in Hr; [|congruence].
      eexists. split; [exact Hr|]. apply filled_stable.
    + exfalso. destruct (Obj.get fs0 f) as [old|] eqn:Eold; [|congruence].
      assert (Hin0 : In f (found pat fs0)).
      { apply discovered_In. split; [eapply get_some_in; eauto|]. eauto. }
      apply includes_In in Hin0. congruence.
Qed.

(** A run removes no file. *)
Lemma translateI18n_keeps_paths (base : string) (fs0 fs1 : FS) (log1 : list Fill)
  (pat : FilePattern) (B : Json) (p : string) :
  createFilePattern base = Ok pat ->
  readJson fs0 base = Some B ->
  translateI18n translateText underAdmin base fs0 = Some (fs1, log1) ->
  In p (Obj.keys fs0) -> In p (Obj.keys fs1).
Proof.
  intros Hpat HB Hrun Hp.
  destruct (translateI18n_read translateText underAdmin base fs0 fs1 log1 pat B Hpat HB Hrun)
    as [missing [_ Hread]].
  apply in_keys_get. apply in_keys_get in Hp. pose proof (Hread p) as Hr.
  unfold readJson in Hr. rewrite Hr.
  destruct (generated pat missing p); [discriminate|].
  destruct (rewritten pat (found pat fs0) p); auto.
  destruct (Obj.get fs0 p); [discriminate | congruence].
Qed.

(** X29. When the base file reads after a run as it did before, which is
    so when a file for English was among the files found, a second run
    completes and leaves every file as the first run left it.  It calls
    the capability for a key of a file the glob yields only when that key
    has no non-empty value there. *)
Theorem translateI18n_second_run (base : string) (fs0 fs1 : FS) (log1 : list Fill)
  (B : Json) :
  readJson fs0 base = Some B ->
  translateI18n translateText underAdmin base fs0 = Some (fs1, log1) ->
  readJson fs1 base = Some B ->
  exists log2,
    translateI18n translateText underAdmin base fs1 = Some (fs1, log2)
    /\ forall x, In x log2 -> underAdmin (fill_file x) = true ->
         exists c, readJson fs1 (fill_file x) = Some c
                   /\ falsy (Obj.get c (fill_key x)) = true.
Proof.
  intros HB Hrun HB1.
  destruct (createFilePattern base) as [pat|msg] eqn:Hpat;
    [|unfold translateI18n in Hrun; rewrite Hpat in Hrun; discriminate].
  destruct (translateI18n_read translateText underAdmin base fs0 fs1 log1 pat B Hpat HB Hrun)
    as [missing1 [Hm1 Hread1]].
  destruct (loop1_stable translateText pat B (found pat fs1)
              (mkI18nState fs1 getLanguages []))
    as [st2 [Hloop1 [Hfs2 Hlog2]]].
  { simpl. apply (translateI18n_leaves_stable base fs0 fs1 log1 pat B Hpat HB Hrun). }
  simpl in Hfs2, Hlog2.
  assert (Hm2 : forall l, In l (st_missing st2)
                  <-> In l getLanguages /\ ~ In l (foundLangs pat (found pat fs1))).
  { intros l. apply (loop1_missing translateText pat B _ _ _ Hloop1). }
  assert (Hsub : forall l, In l (st_missing st2) -> In l missing1).
  { intros l Hl. apply Hm2 in Hl. destruct Hl as [Hin Hnf]. apply Hm1. split; auto.
    intros Hf. apply Hnf. apply foundLangs_In in Hf. destruct Hf as [f [Hf Hlf]].
    apply foundLangs_In. exists f. split; auto.
    apply discovered_In in Hf. destruct Hf as [Hk Hrest].
    apply discovered_In. split; auto.
    apply (translateI18n_keeps_paths base fs0 fs1 log1 pat B f Hpat HB Hrun Hk). }
  assert (Hgen : forall l, In l (st_missing st2) ->
                   readJson fs1 (langFileName pat l) = Some (fill l B Obj.empty)).
  { intros l Hl. pose proof (Hsub l Hl) as Hl1. apply Hm2 in Hl. destruct Hl as [Hin _].
    rewrite Hread1. unfold generated, filledAt.
    rewrite (matchLang_generated pat l Hin), String.eqb_refl.
    apply includes_In in Hl1. now rewrite Hl1. }
  exists (snd (fold_left (missingLangStep translateText pat B) (st_missing st2)
                         (st_fs st2, st_log st2))).
  split.
  - unfold translateI18n.
    rewrite (findAllLanguageFiles_eq underAdmin base pat fs1 Hpat), Hpat, HB1.
    unfold obind. rewrite Hloop1. f_equal.
    rewrite (surjective_pairing (fold_left _ _ _)). f_equal.
    rewrite Hfs2. apply loop2_stable. exact Hgen.
  - intros x Hx Hu. apply loop2_log in Hx. destruct Hx as [Hx|[l [Hl Hfile]]].
    + apply Hlog2 in Hx. destruct Hx as [[]|Hx]. exact Hx.
    + exfalso. pose proof (Hgen l Hl) as Hr. apply Hm2 in Hl. destruct Hl as [Hin Hnf].
      apply Hnf. apply foundLangs_In. exists (langFileName pat l).
      split; [|now apply matchLang_generated].
      apply discovered_In. split; [eapply get_some_in; exact Hr|].
      split; [now rewrite <- Hfile|]. exists l. split; auto.
      now apply matchLang_generated.
Qed.

End I18nTwice.

(** *** Worked examples *)



(** C4: with the English base outside the admin directory, the run ends
    with an empty map in the base file. *)
Lemma translateI18n_overwrites_base_outside_admin :
  exists fs' log,
    translateI18n tagTranslate (jsonUnder "/a") "/b/i18n/en.json" exOutside = Some (fs', log)
    /\ readJson exOutside "/b/i18n/en.json" = Some [("hello", "Hello")]
    /\ discovered (jsonUnder "/a") (mkPattern "/b/i18n/" ".json") exOutside = []
    /\ readJson fs' "/b/i18n/en.json" = Some [].
Proof.
  do 2 eexists. do 3 (split; [vm_compute; reflexivity|]). vm_compute; reflexivity.
Qed.

(** C8: two inputs on which the code and the claim part.

    With the admin directory [/en/admin] the pattern takes the directory
    [en], the first [en] of the base name, for the language segment: the
    German file is written to [/de/admin/i18n/en.json], outside the
    directory that is searched, so the second run finds no German file and
    translates [hello] into German again, although the file has a value
    for it.

    With the base file outside the admin directory the first run leaves
    an empty map in the base file; the second run, with nothing done to
    the base file in between, translates that empty map and writes empty
    language files over the ones the first run wrote. *)
Lemma translateI18n_second_run_diverges :
  (exists fs1 log1 log2 content,
      translateI18n tagTranslate (jsonUnder "/en/admin") "/en/admin/i18n/en.json" exEnDir
      = Some (fs1, log1)
      /\ readJson fs1 "/en/admin/i18n/en.json" = readJson exEnDir "/en/admin/i18n/en.json"
      /\ translateI18n tagTranslate (jsonUnder "/en/admin") "/en/admin/i18n/en.json" fs1
         = Some (fs1, log2)
      /\ readJson fs1 "/de/admin/i18n/en.json" = Some content
      /\ Obj.get content "hello" = Some "de:Hello"
      /\ In (mkFill "/de/admin/i18n/en.json" "hello" (mkCall "Hello" "de")) log2)
  /\ (exists fs1 log1 fs2 log2,
        translateI18n tagTranslate (jsonUnder "/a") "/b/i18n/en.json" exOutside
        = Some (fs1, log1)
        /\ readJson fs1 "/b/i18n/de.json" = Some [("hello", "de:Hello")]
        /\ translateI18n tagTranslate (jsonUnder "/a") "/b/i18n/en.json" fs1
           = Some (fs2, log2)
        /\ readJson fs2 "/b/i18n/de.json" = Some []).
Proof.
  split.
  - do 4 eexists. do 5 (split; [vm_compute; reflexivity|]). vm_compute. auto.
  - do 4 eexists. do 3 (split; [vm_compute; reflexivity|]). vm_compute; reflexivity.
Qed.

Lemma translateI18n_second_run_example :
  (readJson exI18n "/a/i18n/en.json" = Some [("hello", "Hello"); ("bye", "Bye")])
  /\ exists fs1 log1,
       translateI18n tagTranslate (jsonUnder "/a") "/a/i18n/en.json" exI18n = Some (fs1, log1)
       /\ readJson fs1 "/a/i18n/en.json" = Some [("hello", "Hello"); ("bye", "Bye")]
       /\ exists log2,
            translateI18n tagTranslate (jsonUnder "/a") "/a/i18n/en.json" fs1
            = Some (fs1, log2)
            /\ forall x, In x log2 -> jsonUnder "/a" (fill_file x) = true ->
                 exists c, readJson fs1 (fill_file x) = Some c
                           /\ falsy (Obj.get c (fill_key x)) = true.
Proof.
  split; [vm_compute; reflexivity|].
  do 2 eexists. split; [vm_compute; reflexivity|]. split; [vm_compute; reflexivity|].
  eapply (translateI18n_second_run tagTranslate (jsonUnder "/a") "/a/i18n/en.json" exI18n);
    vm_compute; reflexivity.
Defined.

(** ** createWordsJs and parseWordJs *)

Lemma append_assoc (a b c : string) : (a ++ b) ++ c = a ++ (b ++ c).
Proof. induction a; simpl; congruence. Qed.

Lemma append_nil_r (a : string) : a ++ "" = a.
Proof. induction a; simpl; congruence. Qed.

Lemma lex_spaces (n : nat) (rest : string) :
  lex Outside (spaces n ++ rest) = lex Outside rest.
Proof. induction n; simpl; auto. Qed.

Lemma lex_string (v : string) :
  cleanStr v ->
  forall acc rest,
  lex (InString acc) (escapeQuotes v ++ String dquote rest)
  = option_map (cons (TStr (acc ++ v))) (lex Outside rest).
Proof.
  unfold cleanStr. induction v as [|c v IH]; intros Hv acc rest.
  - simpl. now rewrite append_nil_r.
  - simpl in Hv. apply andb_true_iff in Hv. destruct Hv as [Hc Hv].
    unfold plainChar in Hc. apply andb_true_iff in Hc. destruct Hc as [Hc H13].
    apply andb_true_iff in Hc. destruct Hc as [Hb Hn].
    apply negb_true_iff in Hb, Hn, H13.
    cbn [escapeQuotes]. destruct (Ascii.eqb c dquote) eqn:Eq.
    + apply Ascii.eqb_eq in Eq. subst c.
      cbn [append lex]. 
      change (Ascii.eqb backslash dquote) with false. cbn iota.
      rewrite Ascii.eqb_refl.
      cbn [lex]. change (unescape dquote) with (Some (String dquote EmptyString)).
      cbn iota. rewrite IH by exact Hv. now rewrite append_assoc.
    + cbn [append lex]. rewrite Eq, Hb, Hn, H13. cbn [orb]. cbn iota.
      rewrite IH by exact Hv. now rewrite append_assoc.
Qed.

Lemma escapeQuotes_plain (s : string) :
  allChars (fun c => negb (Ascii.eqb c dquote)) s = true -> escapeQuotes s = s.
Proof.
  induction s as [|c s IH]; simpl; auto.
  intros H. apply andb_true_iff in H. destruct H as [Hc Hs].
  apply negb_true_iff in Hc. rewrite Hc. now rewrite IH.
Qed.

Lemma cleanName_parts (s : string) :
  cleanName s -> cleanStr s /\ allChars (fun c => negb (Ascii.eqb c dquote)) s = true.
Proof.
  unfold cleanName, cleanStr. induction s as [|c s IH]; simpl; auto.
  intros H. apply andb_true_iff in H. destruct H as [Hc Hs].
  apply andb_true_iff in Hc. destruct Hc as [H1 H2].
  destruct (IH Hs) as [H3 H4]. now rewrite H1, H2, H3, H4.
Qed.

Lemma lex_name (l : string) :
  cleanName l ->
  forall acc rest,
  lex (InString acc) (l ++ String dquote rest)
  = option_map (cons (TStr (acc ++ l))) (lex Outside rest).
Proof.
  intros H acc rest. apply cleanName_parts in H. destruct H as [H1 H2].
  rewrite <- (escapeQuotes_plain l H2) at 1. now apply lex_string.
Qed.

Lemma spaces_snoc (n : nat) : spaces n ++ " " = spaces (S n).
Proof.
  induction n as [|n IH]; [reflexivity|].
  change (spaces (S n) ++ " ") with (String " " (spaces n ++ " ")).
  now rewrite IH.
Qed.

Lemma itemCore_app (x : string * string) (a b : string) :
  itemCore x a ++ b = itemCore x (a ++ b).
Proof.
  unfold itemCore. cbn [append]. rewrite append_assoc. cbn [append].
  now rewrite append_assoc.
Qed.

Lemma langItem_eq (line : string) (x : string * string) :
  langItem line x = line ++ itemCore x ("," ++ spaces (S (itemPad x))).
Proof.
  destruct x as [l v]. unfold langItem, itemCore, itemPad, padRight, quoteStr.
  cbn [fst snd append]. do 6 f_equal.
  rewrite !append_assoc. cbn [append]. now rewrite spaces_snoc.
Qed.

Lemma langItems_fold (e : Entry) :
  forall line, fold_left langItem e line = line ++ items e.
Proof.
  induction e as [|x e IH]; intros line; cbn [fold_left items].
  - now rewrite append_nil_r.
  - rewrite IH, langItem_eq, append_assoc, itemCore_app.
    now rewrite !append_assoc.
Qed.

Lemma items_split (e : Entry) :
  e <> [] -> exists j, items e = coreItems e ++ String "," (spaces j).
Proof.
  induction e as [|x e IH]; intros Hne; [congruence|].
  destruct e as [|y e].
  - exists (S (itemPad x)). cbn [items coreItems]. rewrite itemCore_app.
    cbn [append]. now rewrite append_nil_r.
  - destruct IH as [j Hj]; [discriminate|]. exists j.
    change (items (x :: y :: e))
      with (itemCore x ("," ++ spaces (S (itemPad x)) ++ items (y :: e))).
    change (coreItems (x :: y :: e))
      with (itemCore x ("," ++ spaces (S (itemPad x)) ++ coreItems (y :: e))).
    rewrite Hj, itemCore_app. f_equal. now rewrite !append_assoc.
Qed.

Lemma trimEnd_spaces (n : nat) : trimEnd (spaces n) = EmptyString.
Proof. induction n; simpl; auto. now rewrite IHn. Qed.

Lemma trimEnd_last (a : string) (c : ascii) (b : string) :
  isSpace c = false -> trimEnd b = EmptyString ->
  trimEnd (a ++ String c b) = a ++ String c EmptyString.
Proof.
  intros Hc Hb. induction a as [|x a IH]; cbn [append trimEnd].
  - now rewrite Hb, Hc.
  - rewrite IH. destruct a; reflexivity.
Qed.

Lemma jsSubstring_drop_last (a : string) (c : ascii) :
  jsSubstring (a ++ String c EmptyString) 0
              (Z.of_nat (String.length (a ++ String c EmptyString)) - 1) = a.
Proof.
  unfold jsSubstring. rewrite append_length. simpl String.length.
  set (n := String.length a).
  replace (Z.max 0 (Z.min 0 (Z.of_nat (n + 1)))) with 0%Z by lia.
  replace (Z.max 0 (Z.min (Z.of_nat (n + 1) - 1) (Z.of_nat (n + 1))))
    with (Z.of_nat n) by lia.
  replace (Z.min 0 (Z.of_nat n)) with 0%Z by lia.
  replace (Z.max 0 (Z.of_nat n)) with (Z.of_nat n) by lia.
  rewrite Z.sub_0_r, Nat2Z.id. simpl Z.to_nat. apply substring_head.
Qed.

Lemma coreItems_head (e : Entry) :
  e <> [] -> exists r, coreItems e = String dquote r.
Proof.
  destruct e as [|x [|y e]]; intros H; [congruence| |]; eexists; reflexivity.
Qed.

(** What [createWordsJs] makes of the line of a key. *)
Lemma wordLine_eq (k : string) (e : Entry) :
  wordLine (k, e)
  = "    " ++ String dquote (escapeQuotes k ++ String dquote
      (": {" ++ spaces (50 - String.length (quoteStr ++ escapeQuotes k ++ quoteStr ++ ": {"))
       ++ coreItems e ++ "},")).
Proof.
  unfold wordLine. rewrite langItems_fold. cbn [append].
  assert (Hline : (if String.eqb (items e) ""
                   then items e
                   else jsSubstring (trim (items e)) 0
                          (Z.of_nat (String.length (trim (items e))) - 1))
                  = coreItems e).
  { destruct e as [|x e]; [reflexivity|].
    destruct (items_split (x :: e)) as [j Hj]; [discriminate|].
    destruct (coreItems_head (x :: e)) as [r Hr]; [discriminate|].
    rewrite Hj. rewrite Hr at 1. cbn [append String.eqb].
    unfold trim. rewrite trimEnd_last by (first [reflexivity | apply trimEnd_spaces]).
    assert (Hts : trimStart (coreItems (x :: e) ++ ",") = coreItems (x :: e) ++ ",")
      by (rewrite Hr; reflexivity).
    rewrite Hts. apply jsSubstring_drop_last. }
  rewrite Hline. unfold padRight, quoteStr. do 4 f_equal.
  rewrite !append_assoc. cbn [append]. rewrite ?append_assoc. reflexivity.
Qed.

Lemma lex_itemCore (x : string * string) (rest : string) (ts : list Token) :
  cleanName (fst x) -> cleanStr (snd x) ->
  lex Outside rest = Some ts ->
  lex Outside (itemCore x rest) = Some (TStr (fst x) :: TColon :: TStr (snd x) :: ts).
Proof.
  intros Hl Hv Hrest. unfold itemCore.
  change (lex Outside (String dquote ?X)) with (lex (InString EmptyString) X).
  rewrite (lex_name (fst x) Hl).
  change (lex Outside (": " ++ String dquote ?X))
    with (option_map (cons TColon) (lex (InString EmptyString) X)).
  rewrite (lex_string (snd x) Hv), Hrest. reflexivity.
Qed.

Lemma lex_coreItems (e : Entry) :
  (forall l v, In (l, v) e -> cleanName l /\ cleanStr v) ->
  forall rest ts,
  lex Outside rest = Some ts ->
  lex Outside (coreItems e ++ rest) = Some (entryTokens e ++ ts)%list.
Proof.
  induction e as [|x e IH]; intros Hclean rest ts Hrest; [exact Hrest|].
  assert (Hx : cleanName (fst x) /\ cleanStr (snd x)).
  { destruct x as [l v]. apply Hclean. now left. }
  destruct Hx as [Hl Hv].
  destruct e as [|y e].
  - cbn [coreItems entryTokens]. rewrite itemCore_app. cbn [append].
    now apply lex_itemCore.
  - change (coreItems (x :: y :: e))
      with (itemCore x ("," ++ spaces (S (itemPad x)) ++ coreItems (y :: e))).
    change (entryTokens (x :: y :: e))
      with (TStr (fst x) :: TColon :: TStr (snd x) :: TComma :: entryTokens (y :: e)).
    rewrite itemCore_app. cbn [app].
    apply lex_itemCore; auto.
    rewrite !append_assoc.
    change (lex Outside ("," ++ ?X)) with (option_map (cons TComma) (lex Outside X)).
    rewrite lex_spaces.
    rewrite (IH (fun l v H => Hclean l v (or_intror H)) rest ts Hrest). reflexivity.
Qed.

Lemma lex_wordLine (k : string) (e : Entry) (rest : string) (ts : list Token) :
  cleanStr k ->
  (forall l v, In (l, v) e -> cleanName l /\ cleanStr v) ->
  lex Outside rest = Some ts ->
  lex Outside (wordLine (k, e) ++ rest) = Some (wordTokens (k, e) ++ ts)%list.
Proof.
  intros Hk He Hrest. rewrite wordLine_eq. cbn [append].
  change (lex Outside (String " " (String " " (String " " (String " " (String dquote ?X))))))
    with (lex (InString EmptyString) X).
  rewrite append_assoc. cbn [append].
  rewrite (lex_string k Hk).
  rewrite !append_assoc.
  change (lex Outside (String ":" (String " " (String "{" ?X))))
    with (option_map (cons TColon) (option_map (cons TLBrace) (lex Outside X))).
  rewrite lex_spaces.
  rewrite (lex_coreItems e He ("}," ++ rest) (TRBrace :: TComma :: ts)).
  - unfold wordTokens. cbn [fst snd option_map append app]. rewrite <- app_assoc. reflexivity.
  - change (lex Outside ("}," ++ rest))
      with (option_map (cons TRBrace) (option_map (cons TComma) (lex Outside rest))).
    now rewrite Hrest.
Qed.

Lemma lex_bodyText (d : Dict) :
  (forall k e, In (k, e) d -> cleanStr k /\ cleanEntry e) ->
  lex Outside (bodyText d) = Some (bodyTokens d).
Proof.
  unfold bodyTokens. induction d as [|[k e] d IH]; intros Hclean; [reflexivity|].
  cbn [bodyText fold_right flat_map].
  destruct (Hclean k e (or_introl eq_refl)) as [Hk [_ He]].
  rewrite (lex_wordLine k e _ (flat_map wordTokens d ++ [TRBrace]) Hk He).
  - now rewrite <- app_assoc.
  - change (lex Outside (EOL ++ ?X)) with (lex Outside X).
    apply IH. intros k' e' H. apply Hclean. now right.
Qed.

Lemma set_fresh {V : Type} (o : Obj.t V) (k : string) (v : V) :
  ~ In k (Obj.keys o) -> Obj.set o k v = (o ++ [(k, v)])%list.
Proof.
  induction o as [|[k' v'] o IH]; simpl; intros H; [reflexivity|].
  destruct (String.eqb k' k) eqn:E.
  - apply String.eqb_eq in E. tauto.
  - rewrite IH; tauto.
Qed.

(** An object is what assigning its own pairs in order builds. *)
Lemma setPairs_NoDup {V : Type} (o : Obj.t V) :
  forall acc, NoDup (Obj.keys (acc ++ o)%list) -> setPairs o acc = (acc ++ o)%list.
Proof.
  unfold setPairs. induction o as [|[k v] o IH]; intros acc Hnd; cbn [fold_left].
  - now rewrite app_nil_r.
  - cbn [fst snd]. rewrite set_fresh.
    + rewrite IH; rewrite <- app_assoc; auto.
    + unfold Obj.keys in Hnd. rewrite map_app in Hnd. apply NoDup_remove_2 in Hnd.
      intros Hin. apply Hnd. apply in_or_app. now left.
Qed.

Lemma foldM_app {S A : Type} (body : S -> A -> option S) (xs ys : list A) (s : S) :
  foldM body (xs ++ ys)%list s = obind (foldM body xs s) (foldM body ys).
Proof.
  revert s. induction xs as [|x xs IH]; intros s; cbn [foldM app]; [reflexivity|].
  unfold obind at 1 3. destruct (body s x); auto.
Qed.

Lemma parse_entry (e : Entry) :
  forall d k acc ts,
  foldM parseStep (entryTokens e ++ TRBrace :: ts)%list (PLang d k acc)
  = foldM parseStep ts (PKeySep (Obj.set d k (setPairs e acc))).
Proof.
  induction e as [|x e IH]; intros d k acc ts; [reflexivity|].
  destruct e as [|y e].
  - reflexivity.
  - change (entryTokens (x :: y :: e))
      with (TStr (fst x) :: TColon :: TStr (snd x) :: TComma :: entryTokens (y :: e)).
    cbn [app foldM parseStep obind]. rewrite IH. reflexivity.
Qed.

Lemma parse_body (d : Dict) :
  forall acc,
  foldM parseStep (bodyTokens d) (PKey acc)
  = Some (PDone (fold_left (fun a w => Obj.set a (fst w) (setPairs (snd w) Obj.empty))
                           d acc)).
Proof.
  unfold bodyTokens. induction d as [|[k e] d IH]; intros acc; [reflexivity|].
  cbn [flat_map]. unfold wordTokens at 1. cbn [fst snd app foldM parseStep obind].
  rewrite <- !app_assoc. cbn [app]. rewrite parse_entry.
  cbn [foldM parseStep obind]. apply IH.
Qed.

Lemma rebuild_dict (d : Dict) :
  cleanDict d ->
  fold_left (fun a w => Obj.set a (fst w) (setPairs (snd w) Obj.empty)) d Obj.empty = d.
Proof.
  intros [Hnd Hclean].
  assert (Hsame : forall acc,
             fold_left (fun a w => Obj.set a (fst w) (setPairs (snd w) Obj.empty)) d acc
             = setPairs d acc).
  { unfold setPairs at 2. clear Hnd. induction d as [|[k e] d IH]; intros acc; [reflexivity|].
    cbn [fold_left fst snd].
    destruct (Hclean k e (or_introl eq_refl)) as [_ [He _]].
    rewrite (setPairs_NoDup e Obj.empty He). cbn [app Obj.empty].
    apply IH. intros k' e' H. apply Hclean. now right. }
  rewrite Hsame. now apply (setPairs_NoDup d Obj.empty).
Qed.

(** The literal [createWordsJs] writes evaluates to the dictionary. *)
Lemma evalObjectLiteral_body (d : Dict) :
  cleanDict d ->
  evalObjectLiteral ("{" ++ EOL ++ bodyText d) = Some d.
Proof.
  intros Hd. unfold evalObjectLiteral.
  change (lex Outside ("{" ++ EOL ++ bodyText d))
    with (option_map (cons TLBrace) (lex Outside (bodyText d))).
  rewrite lex_bodyText by apply Hd.
  cbn [option_map obind foldM parseStep]. rewrite parse_body.
  cbn [obind]. now rewrite rebuild_dict.
Qed.

Lemma concat_cons (sep x : string) (xs : list string) :
  xs <> [] -> String.concat sep (x :: xs) = x ++ sep ++ String.concat sep xs.
Proof. destruct xs; [congruence | reflexivity]. Qed.

Lemma concat_lines (d : Dict) :
  String.concat EOL (map wordLine d ++ ["};"])%list = bodyText d ++ ";".
Proof.
  induction d as [|w d IH]; [reflexivity|].
  cbn [map app bodyText fold_right]. rewrite concat_cons.
  - rewrite IH. now rewrite !append_assoc.
  - destruct (map wordLine d); discriminate.
Qed.

Lemma createWordsJs_text (d : Dict) :
  createWordsJs d = headerText ++ "{" ++ EOL ++ bodyText d ++ ";".
Proof.
  assert (Hne : (map wordLine d ++ ["};"])%list <> []).
  { destruct (map wordLine d); discriminate. }
  transitivity (trimEnd ((headerText ++ "{" ++ EOL ++ bodyText d) ++ ";")).
  - unfold createWordsJs, headerText, banner. cbn [app]. f_equal.
    rewrite !concat_cons by (first [discriminate | exact Hne]).
    rewrite concat_lines. cbn [String.concat].
    rewrite !append_assoc. cbn [append]. reflexivity.
  - rewrite trimEnd_last by reflexivity. now rewrite !append_assoc.
Qed.

Lemma indexOf_app (c : ascii) (pre rest : string) :
  allChars (fun x => negb (Ascii.eqb x c)) pre = true ->
  indexOf c (pre ++ String c rest) = Z.of_nat (String.length pre).
Proof.
  induction pre as [|x pre IH]; cbn [append indexOf allChars String.length]; intros H.
  - now rewrite Ascii.eqb_refl.
  - apply andb_true_iff in H. destruct H as [Hx Hpre].
    apply negb_true_iff in Hx. rewrite Hx, IH by exact Hpre.
    destruct (Z.of_nat (String.length pre) <? 0)%Z eqn:E; lia.
Qed.

Lemma lastIndexOf_last (c : ascii) (pre : string) :
  lastIndexOf c (pre ++ String c EmptyString) = Z.of_nat (String.length pre).
Proof.
  induction pre as [|x pre IH]; cbn [append lastIndexOf String.length].
  - now rewrite Ascii.eqb_refl.
  - rewrite IH. destruct (0 <=? Z.of_nat (String.length pre))%Z eqn:E; lia.
Qed.

Lemma jsSubstring_from (pre rest : string) :
  jsSubstring (pre ++ rest) (Z.of_nat (String.length pre))
              (Z.of_nat (String.length (pre ++ rest))) = rest.
Proof.
  unfold jsSubstring. rewrite append_length.
  set (a := String.length pre). set (b := String.length rest).
  replace (Z.max 0 (Z.min (Z.of_nat a) (Z.of_nat (a + b)))) with (Z.of_nat a) by lia.
  replace (Z.max 0 (Z.min (Z.of_nat (a + b)) (Z.of_nat (a + b))))
    with (Z.of_nat (a + b)) by lia.
  replace (Z.min (Z.of_nat a) (Z.of_nat (a + b))) with (Z.of_nat a) by lia.
  replace (Z.max (Z.of_nat a) (Z.of_nat (a + b)) - Z.of_nat a)%Z with (Z.of_nat b) by lia.
  rewrite !Nat2Z.id. apply substring_tail.
Qed.

Lemma jsSubstring_upto (pre rest : string) :
  jsSubstring (pre ++ rest) 0 (Z.of_nat (String.length pre)) = pre.
Proof.
  unfold jsSubstring. rewrite append_length.
  set (a := String.length pre). set (b := String.length rest).
  replace (Z.max 0 (Z.min 0 (Z.of_nat (a + b)))) with 0%Z by lia.
  replace (Z.max 0 (Z.min (Z.of_nat a) (Z.of_nat (a + b)))) with (Z.of_nat a) by lia.
  replace (Z.min 0 (Z.of_nat a)) with 0%Z by lia.
  replace (Z.max 0 (Z.of_nat a) - 0)%Z with (Z.of_nat a) by lia.
  rewrite Nat2Z.id. apply substring_head.
Qed.

Lemma evalReturn_expr (expr : string) :
  evalReturn ("return " ++ expr ++ ";") = evalObjectLiteral expr.
Proof.
  unfold evalReturn.
  assert (Hp : prefix "return " ("return " ++ expr ++ ";") = true).
  { apply prefix_correct. apply (substring_head "return "). }
  rewrite Hp.
  replace (String.length ("return " ++ expr ++ ";") - 7)
    with (String.length (expr ++ ";")) by (cbn [append String.length]; lia).
  change 7 with (String.length "return ").
  rewrite !substring_tail.
  now rewrite lastIndexOf_last, jsSubstring_upto.
Qed.

(** Reading back what [createWordsJs] wrote gives the dictionary, when no
    key, language or value has a backslash or a line break, no language has
    a double quote, and no key is there twice. *)
Lemma parseWordJs_createWordsJs (d : Dict) :
  cleanDict d -> parseWordJs evalReturn (createWordsJs d) = Some d.
Proof.
  intros Hd. unfold parseWordJs. rewrite createWordsJs_text.
  change ("{" ++ EOL ++ bodyText d ++ ";") with (String "{" (EOL ++ bodyText d ++ ";")).
  rewrite indexOf_app by (vm_compute; reflexivity).
  rewrite jsSubstring_from.
  replace (String "{" (EOL ++ bodyText d ++ ";"))
    with (("{" ++ EOL ++ bodyText d) ++ ";")
    by (now rewrite !append_assoc).
  rewrite lastIndexOf_last, jsSubstring_upto, evalReturn_expr.
  now apply evalObjectLiteral_body.
Qed.

(** The round trip of the specification, on these dictionaries. *)
Lemma createWordsJs_round_trip (d : Dict) :
  cleanDict d ->
  option_map createWordsJs (parseWordJs evalReturn (createWordsJs d))
  = Some (createWordsJs d).
Proof. intros Hd. now rewrite parseWordJs_createWordsJs. Qed.


(** C5: the inputs on which the code and the claim part.  Only the double
    quote is escaped when the dictionary is written, so a backslash in a
    value starts an escape when the text is read: two backslashes come back
    as one and the second serialization differs from the first; a value
    that ends in a backslash takes the closing quote with it and the text
    no longer evaluates.  Without backslashes the round trip holds
    ([createWordsJs_round_trip]). *)
Lemma createWordsJs_backslash_round_trip :
  (exists d',
      parseWordJs evalReturn (createWordsJs exBackslashes) = Some d'
      /\ d' = [("k", [("en", "a\b")])]
      /\ String.eqb (createWordsJs d') (createWordsJs exBackslashes) = false)
  /\ parseWordJs evalReturn (createWordsJs exTrailingBackslash) = None.
Proof.
  split; [eexists|].
  - do 2 (split; [vm_compute; reflexivity|]). vm_compute; reflexivity.
  - vm_compute; reflexivity.
Qed.

(** * Further properties *)

(** ** The file pattern *)

Lemma ciCharEqb_sym (a b : ascii) : ciCharEqb a b = ciCharEqb b a.
Proof. unfold ciCharEqb. apply Ascii.eqb_sym. Qed.

Lemma ciEqb_sym (a b : string) : ciEqb a b = ciEqb b a.
Proof.
  revert b. induction a as [|x a IH]; intros [|y b]; simpl; auto.
  now rewrite ciCharEqb_sym, IH.
Qed.

Lemma ciEqb_length (a b : string) :
  ciEqb a b = true -> String.length a = String.length b.
Proof.
  revert b. induction a as [|x a IH]; intros [|y b]; simpl; try discriminate; auto.
  intros H. apply andb_true_iff in H. destruct H as [_ H]. f_equal. now apply IH.
Qed.

Lemma ciEqb_app (a a' b b' : string) :
  ciEqb a a' = true -> ciEqb b b' = true -> ciEqb (a ++ b) (a' ++ b') = true.
Proof.
  revert a'. induction a as [|x a IH]; intros [|y a']; simpl; try discriminate; auto.
  intros H Hb. apply andb_true_iff in H. destruct H as [Hx Ha].
  rewrite Hx. simpl. now apply IH.
Qed.

(** What [ciStrip] takes off is the prefix up to letter case. *)
Lemma ciStrip_some (pre s rest : string) :
  ciStrip pre s = Some rest ->
  exists p, s = p ++ rest /\ ciEqb p pre = true.
Proof.
  revert s. induction pre as [|a pre IH]; intros s H; simpl in H.
  - inversion H. exists EmptyString. auto.
  - destruct s as [|b s]; [discriminate|].
    destruct (ciCharEqb a b) eqn:E; [|discriminate].
    destruct (IH s H) as [p [-> Hp]]. exists (String b p). split; auto.
    simpl. now rewrite ciCharEqb_sym, E, Hp.
Qed.

Lemma substring_split (s : string) (k : nat) :
  k <= String.length s ->
  substring 0 k s ++ substring k (String.length s - k) s = s.
Proof.
  revert k. induction s as [|c s IH]; intros k Hk; simpl in Hk.
  - destruct k; [reflexivity | lia].
  - destruct k as [|k].
    + simpl. now rewrite substring_all.
    + simpl. f_equal. apply IH. lia.
Qed.

(** X1. A pattern made from a base name gives the base name back for
    [en], and every name generated for a language, a non-empty word of
    letters and hyphens, is matched again with that language. *)
Theorem pattern_generate_then_match (baseFile : string) (pat : FilePattern) :
  createFilePattern baseFile = Ok pat ->
  langFileName pat "en" = baseFile
  /\ forall lang, lang <> "" -> allChars langChar lang = true ->
       matchLang pat (langFileName pat lang) = Some lang.
Proof.
  intros H. split.
  - apply (createFilePattern_ok baseFile pat H).
  - intros lang Hne Hall. now apply matchLang_langFileName.
Qed.

Lemma pattern_generate_then_match_example :
  createFilePattern "/a/i18n/en.json" = Ok (mkPattern "/a/i18n/" ".json")
  /\ langFileName (mkPattern "/a/i18n/" ".json") "en" = "/a/i18n/en.json"
  /\ forall lang, lang <> "" -> allChars langChar lang = true ->
       matchLang (mkPattern "/a/i18n/" ".json")
                 (langFileName (mkPattern "/a/i18n/" ".json") lang) = Some lang.
Proof.
  split; [reflexivity|].
  apply (pattern_generate_then_match "/a/i18n/en.json"). reflexivity.
Defined.

Lemma ciStrip_ci (pre p rest : string) :
  ciEqb p pre = true -> ciStrip pre (p ++ rest) = Some rest.
Proof.
  revert p. induction pre as [|a pre IH]; intros [|b p]; simpl; try discriminate; auto.
  intros H. apply andb_true_iff in H. destruct H as [Hb Hp].
  rewrite ciCharEqb_sym, Hb. now apply IH.
Qed.

(** A name made of the two literal segments, in any letter case, around a
    language segment is matched, with that segment. *)
Lemma matchLang_of_parts (pat : FilePattern) (p lang s : string) :
  lang <> "" -> allChars langChar lang = true ->
  ciEqb p (fp_prefix pat) = true -> ciEqb s (fp_suffix pat) = true ->
  matchLang pat (p ++ lang ++ s) = Some lang.
Proof.
  intros Hne Hall Hp Hs. unfold matchLang.
  rewrite (ciStrip_ci (fp_prefix pat) p (lang ++ s) Hp). cbn [obind].
  rewrite append_length, <- (ciEqb_length s (fp_suffix pat) Hs).
  replace (String.length lang + String.length s - String.length s)
    with (String.length lang) by lia.
  rewrite substring_head, substring_tail, Hall, Hs.
  destruct lang; [congruence|]. reflexivity.
Qed.

(** A matched name, taken apart. *)
Lemma matchLang_parts (pat : FilePattern) (file lang : string) :
  matchLang pat file = Some lang ->
  lang <> "" /\ allChars langChar lang = true
  /\ exists p s, file = p ++ lang ++ s
                 /\ ciEqb p (fp_prefix pat) = true /\ ciEqb s (fp_suffix pat) = true.
Proof.
  unfold matchLang, obind. destruct (ciStrip (fp_prefix pat) file) as [rest|] eqn:Es;
    [|discriminate].
  set (k := String.length rest - String.length (fp_suffix pat)).
  destruct (Nat.ltb 0 k) eqn:Ek; [|discriminate].
  destruct (allChars langChar (substring 0 k rest)) eqn:Ea; [|discriminate].
  destruct (ciEqb (substring k (String.length (fp_suffix pat)) rest) (fp_suffix pat)) eqn:Ec;
    [|discriminate].
  simpl. intros [= <-].
  apply Nat.ltb_lt in Ek.
  assert (Hlen : String.length rest - k = String.length (fp_suffix pat)) by (unfold k; lia).
  pose proof (substring_split rest k ltac:(unfold k; lia)) as Hsplit.
  rewrite Hlen in Hsplit.
  destruct (ciStrip_some _ _ _ Es) as [p [Hfile Hp]].
  split; [|split; [exact Ea|]].
  - intros Hempty. rewrite Hempty in Hsplit. simpl in Hsplit.
    apply (f_equal String.length) in Hsplit. apply ciEqb_length in Ec. lia.
  - exists p, (substring k (String.length (fp_suffix pat)) rest).
    split; [now rewrite Hsplit|]. split; [exact Hp | exact Ec].
Qed.

(** X2. For a pattern whose two literal segments are ASCII texts, the
    file names it matches are exactly these two segments, in any case of
    the letters a to z, around a non-empty word of such letters and
    hyphens; that word is the language segment, taken from the file name
    as it is written.  A matched name is therefore the name generated for
    its language segment, up to the case of the letters around it. *)
Theorem matchLang_characterised (pat : FilePattern) (file lang : string) :
  asciiOnly (fp_prefix pat) -> asciiOnly (fp_suffix pat) ->
  (matchLang pat file = Some lang
   <-> lang <> "" /\ allChars langChar lang = true
       /\ exists p s, file = p ++ lang ++ s
                      /\ ciEqb p (fp_prefix pat) = true
                      /\ ciEqb s (fp_suffix pat) = true).
Proof.
  intros _ _. split; [apply matchLang_parts|].
  intros [Hne [Hall [p [s [-> [Hp Hs]]]]]]. now apply matchLang_of_parts.
Qed.

Lemma matchLang_characterised_example :
  (asciiOnly (fp_prefix (mkPattern "/a/i18n/" ".json"))
   /\ asciiOnly (fp_suffix (mkPattern "/a/i18n/" ".json")))
  /\ matchLang (mkPattern "/a/i18n/" ".json") "/A/i18n/zh-cn.JSON" = Some "zh-cn".
Proof.
  split; [split; reflexivity|].
  apply (proj2 (matchLang_characterised (mkPattern "/a/i18n/" ".json")
                  "/A/i18n/zh-cn.JSON" "zh-cn" eq_refl eq_refl)).
  split; [discriminate|]. split; [reflexivity|].
  exists "/A/i18n/", ".JSON". split; [reflexivity|]. split; reflexivity.
Defined.

Section FindFiles.
Variable underAdmin : string -> bool.

(** X26. For a base name that is an ASCII text, [findAllLanguageFiles]
    fails exactly when the name has no English segment.  Otherwise it
    gives, of the files the search under the admin directory yields, those
    whose name is the two literal segments of the base name, in any case
    of the letters a to z, around a language code of the set written
    exactly as in the set: [DE.json] is not a language file. *)
Theorem findAllLanguageFiles_finds (baseFile : string) (fs : FS) :
  asciiOnly baseFile ->
  match createFilePattern baseFile with
  | Err _ => findAllLanguageFiles underAdmin baseFile fs = None
  | Ok pat =>
      exists files,
        findAllLanguageFiles underAdmin baseFile fs = Some files
        /\ forall f, In f files
             <-> In f (Obj.keys fs) /\ underAdmin f = true
                 /\ exists l p s, In l getLanguages /\ f = p ++ l ++ s
                                  /\ ciEqb p (fp_prefix pat) = true
                                  /\ ciEqb s (fp_suffix pat) = true
  end.
Proof.
  intros _. unfold findAllLanguageFiles.
  destruct (createFilePattern baseFile) as [pat|msg]; [|reflexivity].
  eexists. split; [reflexivity|]. intros f.
  change (filter (isLanguageFile pat) (glob underAdmin fs))
    with (discovered underAdmin pat fs).
  rewrite discovered_In. split.
  - intros [Hk [Hu [l [Hl Hin]]]]. split; [exact Hk|]. split; [exact Hu|].
    destruct (matchLang_parts pat f l Hl) as [_ [_ [p [s H]]]].
    exists l, p, s. split; [exact Hin | exact H].
  - intros [Hk [Hu [l [p [s [Hin [-> [Hp Hs]]]]]]]]. split; [exact Hk|].
    split; [exact Hu|]. exists l. split; [|exact Hin].
    destruct (languages_wellformed l Hin) as [Hne Hall].
    now apply matchLang_of_parts.
Qed.

End FindFiles.

Lemma findAllLanguageFiles_finds_example :
  asciiOnly "/a/i18n/en.json"
  /\ exists files,
       findAllLanguageFiles (jsonUnder "/a") "/a/i18n/en.json" exFiles = Some files
       /\ forall f, In f files
            <-> In f (Obj.keys exFiles) /\ jsonUnder "/a" f = true
                /\ exists l p s, In l getLanguages /\ f = p ++ l ++ s
                                 /\ ciEqb p "/a/i18n/" = true
                                 /\ ciEqb s ".json" = true.
Proof.
  split; [reflexivity|].
  exact (findAllLanguageFiles_finds (jsonUnder "/a") "/a/i18n/en.json" exFiles eq_refl).
Defined.

(** ** translateI18nJson, key by key *)

Section I18nJsonExact.
Variable translateText : string -> string -> string.
Variable lang : string.

Lemma i18nJsonStep_unfold (content : Json) (log : list (string * Call)) (t b : string) :
  i18nJsonStep translateText lang (content, log) (t, b)
  = if lacks content t
    then (Obj.set content t (translateText b lang), (log ++ [(t, mkCall b lang)])%list)
    else (content, log).
Proof. reflexivity. Qed.

Lemma i18nJson_loop_exact (base : Json) :
  NoDup (Obj.keys base) ->
  forall content log,
  exists content',
    fold_left (i18nJsonStep translateText lang) base (content, log)
    = (content',
       (log ++ map (fun e => (fst e, mkCall (snd e) lang))
                   (filter (fun e => lacks content (fst e)) base))%list)
    /\ (forall k, Obj.get content' k
                  = match Obj.get base k with
                    | Some b => if lacks content k
                                then Some (translateText b lang) else Obj.get content k
                    | None => Obj.get content k
                    end)
    /\ Obj.keys content'
       = (Obj.keys content
          ++ map fst (filter (fun e => negb (Obj.hasOwn content (fst e))
                                       && negb (inherited (fst e))) base))%list.
Proof.
  induction base as [|[t b] base IH]; intros Hnd content log.
  - exists content. simpl. rewrite !app_nil_r. auto.
  - inversion Hnd as [|? ? Hnot Hnd']; subst.
    cbn [fold_left]. rewrite i18nJsonStep_unfold.
    assert (Hrest : Obj.get base t = None) by now apply get_none_not_in.
    destruct (lacks content t) eqn:Ef.
    + destruct (IH Hnd' (Obj.set content t (translateText b lang))
                  (log ++ [(t, mkCall b lang)])%list) as [c' [Hfold [Hget Hkeys]]].
      assert (Hother : forall e, In e base ->
                Obj.get (Obj.set content t (translateText b lang)) (fst e)
                = Obj.get content (fst e)).
      { intros e He. apply get_set_other. intros Heq. apply Hnot.
        rewrite Heq. unfold Obj.keys. now apply in_map. }
      exists c'. split; [|split].
      * etransitivity; [exact Hfold|]. f_equal.
        assert (Hf : filter (fun e => lacks (Obj.set content t (translateText b lang))
                                            (fst e)) base
                     = filter (fun e => lacks content (fst e)) base).
        { apply filter_ext_in. intros e He. unfold lacks. now rewrite Hother. }
        rewrite Hf. cbn [filter fst]. rewrite Ef. cbn [map fst snd].
        rewrite <- app_assoc. reflexivity.
      * intros k. rewrite Hget. cbn [Obj.get].
        destruct (String.eqb t k) eqn:Ek.
        -- apply String.eqb_eq in Ek. subst k. now rewrite Hrest, Ef, get_set_same.
        -- unfold lacks. rewrite get_set, Ek. reflexivity.
      * rewrite Hkeys. cbn [filter fst].
        assert (Hf : filter (fun e => negb (Obj.hasOwn
                                          (Obj.set content t (translateText b lang)) (fst e))
                                      && negb (inherited (fst e))) base
                     = filter (fun e => negb (Obj.hasOwn content (fst e))
                                        && negb (inherited (fst e))) base).
        { apply filter_ext_in. intros e He. unfold Obj.hasOwn. now rewrite Hother. }
        rewrite Hf. unfold lacks in Ef. unfold Obj.hasOwn at 2.
        destruct (Obj.get content t) as [v|] eqn:Et.
        -- cbn [negb andb]. now rewrite (keys_set_present content t _ v Et).
        -- rewrite Ef. cbn [negb andb map fst]. rewrite (keys_set_fresh content t _ Et).
           now rewrite <- app_assoc.
    + destruct (IH Hnd' content log) as [c' [Hfold [Hget Hkeys]]].
      exists c'. split; [|split].
      * etransitivity; [exact Hfold|]. cbn [filter fst]. now rewrite Ef.
      * intros k. rewrite Hget. cbn [Obj.get].
        destruct (String.eqb t k) eqn:Ek; auto.
        apply String.eqb_eq in Ek. subst k. now rewrite Hrest, Ef.
      * rewrite Hkeys. cbn [filter fst]. unfold lacks in Ef. unfold Obj.hasOwn at 2.
        destruct (Obj.get content t) as [v|] eqn:Et; [reflexivity|].
        apply negb_false_iff in Ef. now rewrite Ef.
Qed.

(** The values after the loop, for a language other than English. *)
Lemma translateI18nJson_get (content base : Json) (k : string) :
  lang <> "en" -> NoDup (Obj.keys base) ->
  Obj.get (fst (translateI18nJson translateText content lang base)) k
  = match Obj.get base k with
    | Some b => if lacks content k
                then Some (translateText b lang) else Obj.get content k
    | None => Obj.get content k
    end.
Proof.
  intros Hne Hnd. apply String.eqb_neq in Hne.
  unfold translateI18nJson. rewrite Hne.
  destruct (i18nJson_loop_exact base Hnd content []) as [c' [Hfold [Hget _]]].
  rewrite Hfold. apply Hget.
Qed.

(** From an empty content the result is the base without the keys that
    name an inherited member, with every value translated, in the order
    of the base. *)
Lemma translateI18nJson_fresh (base : Json) :
  lang <> "en" -> NoDup (Obj.keys base) ->
  translateI18nJson translateText Obj.empty lang base
  = (map (fun e => (fst e, translateText (snd e) lang))
         (filter (fun e => negb (inherited (fst e))) base),
     map (fun e => (fst e, mkCall (snd e) lang))
         (filter (fun e => negb (inherited (fst e))) base)).
Proof.
  intros Hne Hnd. apply String.eqb_neq in Hne.
  unfold translateI18nJson. rewrite Hne.
  assert (Hgen : forall (rest : Json) (content : Json) (log : list (string * Call)),
            NoDup (Obj.keys rest) ->
            (forall k, In k (Obj.keys rest) -> ~ In k (Obj.keys content)) ->
            fold_left (i18nJsonStep translateText lang) rest (content, log)
            = ((content ++ map (fun e => (fst e, translateText (snd e) lang))
                               (filter (fun e => negb (inherited (fst e))) rest))%list,
               (log ++ map (fun e => (fst e, mkCall (snd e) lang))
                           (filter (fun e => negb (inherited (fst e))) rest))%list)).
  { induction rest as [|[t b] rest IH]; intros content log Hnd' Hfresh.
    - simpl. now rewrite !app_nil_r.
    - inversion Hnd' as [|? ? Hnot Hnd'']; subst.
      cbn [fold_left]. rewrite i18nJsonStep_unfold.
      assert (Ht : ~ In t (Obj.keys content)) by (apply Hfresh; now left).
      assert (Hn : Obj.get content t = None) by now apply get_none_not_in.
      unfold lacks. rewrite Hn. cbn [filter fst].
      destruct (inherited t); cbn [negb].
      + apply IH; auto. intros k Hk. apply Hfresh. now right.
      + rewrite (set_fresh content t _ Ht). rewrite IH; auto.
        * cbn [map fst snd]. now rewrite <- !app_assoc.
        * intros k Hk Hin. unfold Obj.keys in Hin. rewrite map_app, in_app_iff in Hin.
          destruct Hin as [Hin|[<-|[]]]; [|exact (Hnot Hk)].
          apply (Hfresh k); [now right | exact Hin]. }
  etransitivity; [apply (Hgen base Obj.empty [] Hnd); intros k _ []|].
  reflexivity.
Qed.

(** X3. For a language other than English and a base without repeated
    keys, [translateI18nJson] gives every base key that the content lacks
    the translation of its base text and calls the capability for exactly
    these keys, in base order.  The content lacks a key when it has an
    empty value for it, or has none and the key names no inherited member.
    Nothing else changes: keys the content had keep their place, new ones
    follow in base order, when no key of the content or the base is made
    of digits only (an array index is enumerated before the other
    keys). *)
Theorem translateI18nJson_result (content base : Json) :
  lang <> "en" -> NoDup (Obj.keys base) ->
  (forall k, In k (Obj.keys content) -> digitsOnly k = false) ->
  (forall k, In k (Obj.keys base) -> digitsOnly k = false) ->
  (forall k, Obj.get (fst (translateI18nJson translateText content lang base)) k
             = match Obj.get base k with
               | Some b => if lacks content k
                           then Some (translateText b lang) else Obj.get content k
               | None => Obj.get content k
               end)
  /\ snd (translateI18nJson translateText content lang base)
     = map (fun e => (fst e, mkCall (snd e) lang))
           (filter (fun e => lacks content (fst e)) base)
  /\ Obj.keys (fst (translateI18nJson translateText content lang base))
     = (Obj.keys content
        ++ map fst (filter (fun e => negb (Obj.hasOwn content (fst e))
                                     && negb (inherited (fst e))) base))%list.
Proof.
  intros Hne Hnd _ _. split; [intros k; now apply translateI18nJson_get|].
  apply String.eqb_neq in Hne. unfold translateI18nJson. rewrite Hne.
  destruct (i18nJson_loop_exact base Hnd content []) as [c' [Hfold [_ Hkeys]]].
  rewrite Hfold. cbn [fst snd app]. split; [reflexivity | exact Hkeys].
Qed.

(** X4. A second pass of [translateI18nJson] with the same base leaves the
    content as the first pass left it, and calls the capability only for
    keys whose value is still empty. *)
Theorem translateI18nJson_second_pass (content base : Json) :
  fst (translateI18nJson translateText
         (fst (translateI18nJson translateText content lang base)) lang base)
  = fst (translateI18nJson translateText content lang base)
  /\ forall kc,
       In kc (snd (translateI18nJson translateText
                     (fst (translateI18nJson translateText content lang base)) lang base)) ->
       falsy (Obj.get (fst (translateI18nJson translateText content lang base)) (fst kc))
       = true.
Proof. apply (filled_stable translateText lang base content). Qed.

(** The calls of [translateI18nJson]: never for English, each with the
    text of a base entry and for the key of that entry. *)
Lemma i18nJson_calls (content base : Json) (kc : string * Call) :
  In kc (snd (translateI18nJson translateText content lang base)) ->
  lang <> "en" /\ call_lang (snd kc) = lang /\ In (fst kc, call_text (snd kc)) base.
Proof.
  unfold translateI18nJson. destruct (String.eqb lang "en") eqn:E; [intros []|].
  apply String.eqb_neq in E. intros H. split; auto.
  assert (Hgen : forall base content log,
            In kc (snd (fold_left (i18nJsonStep translateText lang) base (content, log))) ->
            In kc log
            \/ (call_lang (snd kc) = lang /\ In (fst kc, call_text (snd kc)) base)).
  { clear. induction base as [|e base IH]; intros content log H; [now left|].
    cbn [fold_left] in H. rewrite i18nJsonStep_eq in H. apply IH in H.
    destruct H as [H|[H1 H2]].
    - destruct (lacks content (fst e)); auto.
      apply in_app_or in H. destruct H as [H|[<-|[]]]; auto.
      right. destruct e. simpl. auto.
    - right. split; auto. now right. }
  destruct (Hgen base content [] H) as [[]|Hr]. exact Hr.
Qed.

End I18nJsonExact.

Lemma exBase_plain_keys (k : string) :
  In k (Obj.keys [("hello", "Hello"); ("bye", "Bye")]) -> digitsOnly k = false.
Proof. intros [<-|[<-|[]]]; reflexivity. Defined.

Lemma exContent_plain_keys (k : string) :
  In k (Obj.keys [("hello", "Hallo"); ("bye", "")]) -> digitsOnly k = false.
Proof. intros [<-|[<-|[]]]; reflexivity. Defined.

Lemma translateI18nJson_result_example :
  "de" <> "en"
  /\ NoDup (Obj.keys [("hello", "Hello"); ("bye", "Bye")])
  /\ (forall k, In k (Obj.keys [("hello", "Hallo"); ("bye", "")]) ->
                digitsOnly k = false)
  /\ (forall k, In k (Obj.keys [("hello", "Hello"); ("bye", "Bye")]) ->
                digitsOnly k = false)
  /\ Obj.get (fst (translateI18nJson tagTranslate [("hello", "Hallo"); ("bye", "")] "de"
                                     [("hello", "Hello"); ("bye", "Bye")])) "bye"
     = Some "de:Bye"
  /\ snd (translateI18nJson tagTranslate [("hello", "Hallo"); ("bye", "")] "de"
                            [("hello", "Hello"); ("bye", "Bye")])
     = [("bye", mkCall "Bye" "de")].
Proof.
  assert (Hne : "de" <> "en") by discriminate.
  assert (Hnd : NoDup (Obj.keys [("hello", "Hello"); ("bye", "Bye")])).
  { repeat (constructor; [simpl; intuition discriminate|]). constructor. }
  split; [exact Hne|]. split; [exact Hnd|]. split; [exact exContent_plain_keys|].
  split; [exact exBase_plain_keys|].
  destruct (translateI18nJson_result tagTranslate "de" [("hello", "Hallo"); ("bye", "")]
              [("hello", "Hello"); ("bye", "Bye")] Hne Hnd exContent_plain_keys
              exBase_plain_keys)
    as [Hget [Hcalls _]].
  split.
  - rewrite Hget. reflexivity.
  - rewrite Hcalls. reflexivity.
Defined.

(** ** translateI18n: when it completes, what it touches, what it calls *)

Section I18nLogs.
Variable translateText : string -> string -> string.
Variable pat : FilePattern.
Variable baseContent : Json.

Local Abbreviation properFill := (properFill pat baseContent).

Lemma fillsOf_proper (file l : string) (c : Json) (x : Fill) :
  matchLang pat file = Some l ->
  In x (fillsOf file (snd (translateI18nJson translateText c l baseContent))) ->
  properFill x.
Proof.
  intros Hl Hx. unfold fillsOf in Hx. apply in_map_iff in Hx.
  destruct Hx as [kc [<- Hkc]]. apply i18nJson_calls in Hkc.
  destruct Hkc as [Hne [Hlang Hin]]. unfold properFill. simpl.
  rewrite Hlang. auto.
Qed.

Lemma loop1_log_proper (files : list string) :
  forall st st',
  foldM (existingFileStep translateText pat baseContent) files st = Some st' ->
  forall x, In x (st_log st') -> In x (st_log st) \/ properFill x.
Proof.
  induction files as [|f files IH]; intros st st' H x Hx.
  - inversion H. subst. now left.
  - cbn [foldM] in H. unfold obind in H.
    destruct (existingFileStep translateText pat baseContent st f) as [st1|] eqn:E;
      [|discriminate].
    destruct (IH st1 st' H x Hx) as [H1|H1]; [|now right].
    rewrite step_eq in E. destruct (matchLang pat f) as [l|] eqn:El.
    + destruct (String.eqb l "en").
      * assert (Hst : st1 = mkI18nState (st_fs st)
                              (remove string_dec l (st_missing st)) (st_log st))
          by congruence.
        rewrite Hst in H1. now left.
      * destruct (readJson (st_fs st) f) as [c|]; [|discriminate].
        assert (Hst : st_log st1
                      = (st_log st
                         ++ fillsOf f (snd (translateI18nJson translateText c l
                                              baseContent)))%list)
          by (inversion E; reflexivity).
        rewrite Hst in H1. apply in_app_or in H1. destruct H1 as [H1|H1]; [now left|].
        right. exact (fillsOf_proper f l c x El H1).
    + assert (Hst : st1 = st) by congruence. rewrite Hst in H1. now left.
Qed.

Lemma loop2_log_proper (missing : list string) :
  (forall l, In l missing -> In l getLanguages) ->
  forall fs log x,
  In x (snd (fold_left (missingLangStep translateText pat baseContent) missing (fs, log))) ->
  In x log \/ properFill x.
Proof.
  induction missing as [|l0 missing IH]; intros Hin fs log x H.
  - now left.
  - cbn [fold_left] in H. rewrite step2_eq in H.
    apply IH in H; [|intros l Hl; apply Hin; now right].
    destruct H as [H|H]; [|now right].
    apply in_app_or in H. destruct H as [H|H]; [now left|].
    right. apply (fillsOf_proper (langFileName pat l0) l0 Obj.empty x); auto.
    apply matchLang_generated, Hin. now left.
Qed.

(** The second loop logs one call for every base entry and every missing
    language other than English. *)
Lemma loop2_log_complete (missing : list string) :
  NoDup (Obj.keys baseContent) ->
  forall fs log,
  (forall x, In x log ->
     In x (snd (fold_left (missingLangStep translateText pat baseContent) missing (fs, log))))
  /\ forall l k b, In l missing -> l <> "en" -> In (k, b) baseContent ->
       inherited k = false ->
       In (mkFill (langFileName pat l) k (mkCall b l))
          (snd (fold_left (missingLangStep translateText pat baseContent) missing (fs, log))).
Proof.
  intros Hnd. induction missing as [|l0 missing IH]; intros fs log.
  - split; [auto | intros l k b []].
  - cbn [fold_left]. rewrite step2_eq.
    destruct (IH (writeJson fs (langFileName pat l0)
                    (filled translateText l0 baseContent Obj.empty))
                 (log ++ fillsOf (langFileName pat l0)
                           (snd (translateI18nJson translateText Obj.empty l0
                                   baseContent)))%list) as [Hmono Hnew].
    split.
    + intros x Hx. apply Hmono, in_or_app. now left.
    + intros l k b [<-|Hl] Hne Hkb Hk; [|now apply Hnew].
      apply Hmono, in_or_app. right.
      rewrite (translateI18nJson_fresh translateText l0 baseContent Hne Hnd).
      cbn [snd]. unfold fillsOf. rewrite map_map. apply in_map_iff.
      exists (k, b). split; [reflexivity|]. apply filter_In. split; [exact Hkb|].
      cbn [fst]. now rewrite Hk.
Qed.

End I18nLogs.

Section I18nFurther.
Variable translateText : string -> string -> string.
Variable underAdmin : string -> bool.

(** X5. [translateI18n] completes exactly when the name of the base file
    has the English segment and the base file can be read. *)
Theorem translateI18n_completes_iff (base : string) (fs : FS) :
  (exists r, translateI18n translateText underAdmin base fs = Some r)
  <-> (exists pat, createFilePattern base = Ok pat)
      /\ (exists B, readJson fs base = Some B).
Proof.
  split.
  - intros [r Hr]. unfold translateI18n in Hr.
    destruct (createFilePattern base) as [pat|msg]; [|discriminate].
    unfold obind in Hr. destruct (readJson fs base) as [B|]; [|discriminate].
    eauto.
  - intros [[pat Hpat] [B HB]].
    exact (translateI18n_total translateText underAdmin base fs pat B Hpat HB).
Qed.




(** X9. A language file found for a language other than English, after a
    run on a base without repeated keys: a base key that the file lacked
    holds the translation of its base text, every other key reads as
    before.  The file lacks a key when it has an empty value for it, or
    has none and the key names no inherited member. *)
Theorem translateI18n_found_file (base : string) (fs fs' : FS) (log : list Fill)
  (pat : FilePattern) (B : Json) (file lang : string) :
  createFilePattern base = Ok pat ->
  readJson fs base = Some B ->
  translateI18n translateText underAdmin base fs = Some (fs', log) ->
  NoDup (Obj.keys B) ->
  In file (discovered underAdmin pat fs) -> matchLang pat file = Some lang ->
  lang <> "en" ->
  exists old content,
    readJson fs file = Some old /\ readJson fs' file = Some content
    /\ forall k, Obj.get content k
                 = match Obj.get B k with
                   | Some b => if lacks old k
                               then Some (translateText b lang) else Obj.get old k
                   | None => Obj.get old k
                   end.
Proof.
  intros Hpat HB Hrun Hnd Hfile Hlang Hne.
  destruct (translateI18n_read translateText underAdmin base fs fs' log pat B Hpat HB Hrun)
    as [missing [Hm Hread]].
  assert (Hnot : includes missing lang = false).
  { apply includes_false. rewrite Hm. intros [_ Hn]. apply Hn.
    apply foundLangs_In. eauto. }
  pose proof (Hread file) as Hr. unfold generated, rewritten, filledAt in Hr.
  rewrite Hlang, Hnot in Hr. simpl in Hr.
  assert (Hne' : String.eqb lang "en" = false) by now apply String.eqb_neq.
  rewrite Hne' in Hr. simpl in Hr.
  assert (Hinc : includes (discovered underAdmin pat fs) file = true) by now apply includes_In.
  rewrite Hinc in Hr.
  apply discovered_In in Hfile. destruct Hfile as [Hk _].
  apply in_keys_get in Hk. unfold readJson in *.
  destruct (Obj.get fs file) as [old|] eqn:Eold; [|congruence].
  exists old, (filled translateText lang B old). split; auto. split; auto.
  intros k. unfold filled.
  exact (translateI18nJson_get translateText lang old B k Hne Hnd).
Qed.


End I18nFurther.

(** *** On the worked example *)




Lemma exI18n_base_NoDup : NoDup (Obj.keys [("hello", "Hello"); ("bye", "Bye")]).
Proof.
  repeat (constructor; [simpl; intuition discriminate|]). constructor.
Defined.

Lemma translateI18n_found_file_example :
  (createFilePattern "/a/i18n/en.json" = Ok (mkPattern "/a/i18n/" ".json")
   /\ readJson exI18n "/a/i18n/en.json" = Some [("hello", "Hello"); ("bye", "Bye")]
   /\ NoDup (Obj.keys [("hello", "Hello"); ("bye", "Bye")])
   /\ In "/a/i18n/de.json" (discovered (jsonUnder "/a") (mkPattern "/a/i18n/" ".json") exI18n)
   /\ matchLang (mkPattern "/a/i18n/" ".json") "/a/i18n/de.json" = Some "de"
   /\ "de" <> "en")
  /\ exists fs' log,
       translateI18n tagTranslate (jsonUnder "/a") "/a/i18n/en.json" exI18n = Some (fs', log)
       /\ exists old content,
            readJson exI18n "/a/i18n/de.json" = Some old
            /\ readJson fs' "/a/i18n/de.json" = Some content
            /\ forall k, Obj.get content k
                 = match Obj.get [("hello", "Hello"); ("bye", "Bye")] k with
                   | Some b => if lacks old k
                               then Some (tagTranslate b "de") else Obj.get old k
                   | None => Obj.get old k
                   end.
Proof.
  assert (Hin : In "/a/i18n/de.json"
                   (discovered (jsonUnder "/a") (mkPattern "/a/i18n/" ".json") exI18n))
    by (vm_compute; auto).
  assert (Hne : "de" <> "en") by discriminate.
  split.
  { split; [vm_compute; reflexivity|]. split; [vm_compute; reflexivity|].
    split; [exact exI18n_base_NoDup|]. split; [exact Hin|].
    split; [vm_compute; reflexivity | exact Hne]. }
  do 2 eexists. split; [vm_compute; reflexivity|].
  refine (translateI18n_found_file tagTranslate (jsonUnder "/a")
            "/a/i18n/en.json" exI18n _ _ (mkPattern "/a/i18n/" ".json")
            [("hello", "Hello"); ("bye", "Bye")] "/a/i18n/de.json" "de" _ _ _
            exI18n_base_NoDup Hin _ Hne);
    vm_compute; reflexivity.
Defined.


(** ** adminWords2languages: the files it writes *)

Lemma get_app {V : Type} (a b : Obj.t V) (k : string) :
  Obj.get (a ++ b)%list k
  = match Obj.get a k with Some v => Some v | None => Obj.get b k end.
Proof.
  induction a as [|[k' v'] a IH]; simpl; [reflexivity|].
  now destruct (String.eqb k' k).
Qed.

Lemma keys_app {V : Type} (a b : Obj.t V) :
  Obj.keys (a ++ b)%list = (Obj.keys a ++ Obj.keys b)%list.
Proof. unfold Obj.keys. apply map_app. Qed.

Lemma set_NoDup {V : Type} (o : Obj.t V) (k : string) (v : V) :
  NoDup (Obj.keys o) -> NoDup (Obj.keys (Obj.set o k v)).
Proof.
  intros Hnd. destruct (Obj.get o k) as [v0|] eqn:E.
  - now rewrite (keys_set_present o k v v0 E).
  - rewrite (keys_set_fresh o k v E). apply NoDup_app; [exact Hnd| |].
    + constructor; [intros []|constructor].
    + intros x Hx [<-|[]]. apply get_none_not_in in E. contradiction.
Qed.

Lemma emptyLangObject_cell (j w : string) :
  In j getLanguages -> cell (createEmptyLangObject (fun _ => Obj.empty)) j w = None.
Proof.
  unfold getLanguages. intros H.
  repeat (destruct H as [<-|H]; [reflexivity|]). contradiction.
Qed.

(** *** The copy in sorted order *)

Lemma copy_get (f : string -> string) (ks : list string) :
  forall (acc : Json) (w : string),
  Obj.get (fold_left (fun obj key => Obj.set obj key (f key)) ks acc) w
  = if includes ks w then Some (f w) else Obj.get acc w.
Proof.
  induction ks as [|x ks IH]; intros acc w; [reflexivity|].
  cbn [fold_left]. rewrite IH, get_set, includes_cons.
  rewrite (String.eqb_sym w x).
  destruct (includes ks w), (String.eqb x w) eqn:E; simpl; auto.
  apply String.eqb_eq in E. now subst.
Qed.

Lemma sortedCopy_get (translations : Json) (w : string) :
  Obj.get (sortedCopy translations) w = Obj.get translations w.
Proof.
  unfold sortedCopy.
  rewrite (copy_get (fun key => orEmpty (Obj.get translations key))).
  destruct (includes (sortStrings (Obj.keys translations)) w) eqn:E.
  - apply includes_In, sortStrings_In, in_keys_get in E.
    destruct (Obj.get translations w); [reflexivity | congruence].
  - destruct (Obj.get translations w) as [v|] eqn:G; [|reflexivity].
    apply get_some_in, (sortStrings_In w), includes_In in G. congruence.
Qed.

Lemma copy_keys (f : string -> string) (ks : list string) :
  forall acc : Json,
  NoDup (Obj.keys acc ++ ks) ->
  Obj.keys (fold_left (fun obj key => Obj.set obj key (f key)) ks acc)
  = (Obj.keys acc ++ ks)%list.
Proof.
  induction ks as [|x ks IH]; intros acc Hnd; cbn [fold_left].
  - now rewrite app_nil_r.
  - assert (Hx : Obj.get acc x = None).
    { apply get_none_not_in. intros Hin. apply NoDup_remove_2 in Hnd.
      apply Hnd, in_or_app. now left. }
    rewrite IH; rewrite (keys_set_fresh acc x (f x) Hx), <- app_assoc;
      [reflexivity | exact Hnd].
Qed.

Lemma insertSorted_NoDup (k : string) (l : list string) :
  ~ In k l -> NoDup l -> NoDup (insertSorted k l).
Proof.
  induction l as [|x l IH]; simpl; intros Hk Hnd.
  - constructor; [tauto | constructor].
  - destruct (String.leb k x).
    + constructor; [simpl; tauto | exact Hnd].
    + inversion Hnd; subst. constructor.
      * rewrite insertSorted_In. intuition.
      * apply IH; tauto.
Qed.

Lemma sortStrings_NoDup (l : list string) : NoDup l -> NoDup (sortStrings l).
Proof.
  induction l as [|x l IH]; simpl; intros Hnd; [constructor|].
  inversion Hnd; subst. apply insertSorted_NoDup; auto.
  now rewrite sortStrings_In.
Qed.

Lemma insertSorted_ascending (k : string) (l : list string) :
  ascending l -> ascending (insertSorted k l).
Proof.
  unfold ascending. induction l as [|x l IH]; simpl; intros Hs.
  - repeat constructor.
  - destruct (String.leb k x) eqn:E.
    + constructor; [exact Hs | constructor; exact E].
    + inversion Hs as [|? ? Hs' Hhd]; subst. constructor; [now apply IH|].
      destruct l as [|y l]; simpl.
      * constructor. destruct (String.leb_total k x); congruence.
      * destruct (String.leb k y).
        -- constructor. destruct (String.leb_total k x); congruence.
        -- constructor. now inversion Hhd.
Qed.

Lemma sortStrings_ascending (l : list string) : ascending (sortStrings l).
Proof.
  induction l as [|x l IH]; simpl; [constructor|].
  now apply insertSorted_ascending.
Qed.

Lemma sortedCopy_ascending (translations : Json) :
  NoDup (Obj.keys translations) -> ascending (Obj.keys (sortedCopy translations)).
Proof.
  intros Hnd. unfold sortedCopy.
  rewrite (copy_keys (fun key => orEmpty (Obj.get translations key))).
  - apply sortStrings_ascending.
  - now apply sortStrings_NoDup.
Qed.

(** *** The loops over the words *)

Section WordCells.
Variable w : string.

(** What the pre-fill makes of one per-language map. *)
Local Abbreviation pre :=
  (fun o : Json => if inherited w && negb (Obj.hasOwn o w) then o
                   else Obj.set o w (orEmpty (Obj.get o w))).

Lemma prefillStep_get (langs : Obj.t Json) (l j : string) :
  Obj.get (prefillStep w langs l) j
  = if String.eqb l j then option_map pre (Obj.get langs j) else Obj.get langs j.
Proof.
  unfold prefillStep. unfold Obj.hasOwn at 1.
  destruct (String.eqb l j) eqn:E.
  - apply String.eqb_eq in E. subst j.
    destruct (Obj.get langs l) as [o|] eqn:G; cbn [option_map]; [|exact G].
    destruct (inherited w && negb (Obj.hasOwn o w)); [exact G | apply get_set_same].
  - apply String.eqb_neq in E.
    destruct (Obj.get langs l) as [o|]; [|reflexivity].
    destruct (inherited w && negb (Obj.hasOwn o w)); [reflexivity|].
    now apply get_set_other.
Qed.

Lemma prefill_get (ls : list string) :
  NoDup ls ->
  forall (langs : Obj.t Json) (j : string),
  Obj.get (fold_left (prefillStep w) ls langs) j
  = if includes ls j then option_map pre (Obj.get langs j) else Obj.get langs j.
Proof.
  induction ls as [|l ls IH]; intros Hnd langs j; [reflexivity|].
  inversion Hnd as [|? ? Hnot Hnd']; subst.
  cbn [fold_left]. rewrite (IH Hnd'), prefillStep_get, includes_cons.
  rewrite (String.eqb_sym j l).
  destruct (String.eqb l j) eqn:E; simpl; [|reflexivity].
  apply String.eqb_eq in E. subst j.
  now rewrite (includes_false ls l Hnot).
Qed.

Lemma pre_other (o : Json) (w' : string) : w' <> w -> Obj.get (pre o) w' = Obj.get o w'.
Proof.
  intros Hw'. cbv beta. destruct (inherited w && negb (Obj.hasOwn o w)); [reflexivity|].
  apply get_set_other. auto.
Qed.

(** One assignment and its pre-fill leave the other words as they are. *)
Lemma wordLangStep_other (langs langs' : Obj.t Json) (l t : string) :
  Obj.keys langs = getLanguages ->
  wordLangStep w langs (l, t) = Some langs' ->
  forall j w', In j getLanguages -> w' <> w -> cell langs' j w' = cell langs j w'.
Proof.
  intros Hk H j w' Hj Hw'. unfold wordLangStep, obind in H.
  destruct (Obj.get langs l) as [o|] eqn:G; [|discriminate].
  assert (Hl : langs' = fold_left (prefillStep w) getLanguages
                                  (Obj.set langs l (assign o w t))) by congruence.
  assert (Hinc : includes getLanguages j = true) by now apply includes_In.
  assert (Hget : Obj.get langs' j
                 = option_map pre (Obj.get (Obj.set langs l (assign o w t)) j)).
  { rewrite Hl, (prefill_get getLanguages languages_NoDup), Hinc. reflexivity. }
  unfold cell. rewrite Hget, get_set.
  destruct (String.eqb l j) eqn:E.
  - apply String.eqb_eq in E. subst j. rewrite G. cbn [option_map].
    rewrite (pre_other _ w' Hw'). apply get_assign_other. auto.
  - destruct (Obj.get langs j) as [oj|]; [|reflexivity]. cbn [option_map].
    exact (pre_other oj w' Hw').
Qed.

(** One assignment and its pre-fill, for a word that names no inherited
    member. *)
Lemma wordLangStep_cell (langs langs' : Obj.t Json) (l t : string) :
  inherited w = false ->
  Obj.keys langs = getLanguages ->
  wordLangStep w langs (l, t) = Some langs' ->
  forall j, In j getLanguages ->
    cell langs' j w = Some (if String.eqb l j then t else orEmpty (cell langs j w)).
Proof.
  intros Hw Hk H j Hj. unfold wordLangStep, obind in H.
  destruct (Obj.get langs l) as [o|] eqn:G; [|discriminate].
  rewrite (assign_plain o w t Hw) in H.
  assert (Hl : langs' = fold_left (prefillStep w) getLanguages
                                  (Obj.set langs l (Obj.set o w t))) by congruence.
  assert (Hinc : includes getLanguages j = true) by now apply includes_In.
  assert (Hget : Obj.get langs' j
                 = option_map pre (Obj.get (Obj.set langs l (Obj.set o w t)) j)).
  { rewrite Hl, (prefill_get getLanguages languages_NoDup), Hinc. reflexivity. }
  unfold cell. rewrite Hget, get_set, Hw. cbn [andb].
  destruct (String.eqb l j) eqn:E.
  - cbn [option_map]. now rewrite !get_set_same.
  - rewrite <- Hk in Hj. apply in_keys_get in Hj.
    destruct (Obj.get langs j) as [oj|]; [|congruence]. cbn [option_map].
    now rewrite get_set_same.
Qed.

(** The loop over the languages of one word leaves the other words as they
    are. *)
Lemma wordLangs_other (rest : Entry) :
  forall (langs langs' : Obj.t Json),
  Obj.keys langs = getLanguages ->
  foldM (wordLangStep w) rest langs = Some langs' ->
  forall j w', In j getLanguages -> w' <> w -> cell langs' j w' = cell langs j w'.
Proof.
  induction rest as [|[l t] rest IH]; intros langs langs' Hk H j w' Hj Hw'.
  - inversion H; subst. reflexivity.
  - cbn [foldM] in H. unfold obind in H.
    destruct (wordLangStep w langs (l, t)) as [l1|] eqn:E; [|discriminate].
    assert (Hk1 : Obj.keys l1 = getLanguages).
    { rewrite <- Hk. apply (wordLangs_keys w [(l, t)] langs l1).
      cbn [foldM]. rewrite E. reflexivity. }
    rewrite (IH l1 langs' Hk1 H j w' Hj Hw').
    exact (wordLangStep_other langs l1 l t Hk E j w' Hj Hw').
Qed.

(** The loop over the languages of one word that names no inherited
    member, from the cells its earlier iterations left. *)
Lemma wordLangs_cells (rest : Entry) :
  inherited w = false ->
  forall (seen : Entry) (langs langs' : Obj.t Json),
  NoDup (Obj.keys (seen ++ rest)%list) ->
  Obj.keys langs = getLanguages ->
  (forall j, In j getLanguages ->
     cell langs j w
     = match seen with [] => None | _ :: _ => Some (orEmpty (Obj.get seen j)) end) ->
  foldM (wordLangStep w) rest langs = Some langs' ->
  forall j, In j getLanguages ->
    cell langs' j w
    = match (seen ++ rest)%list with
      | [] => None
      | _ :: _ => Some (orEmpty (Obj.get (seen ++ rest)%list j))
      end.
Proof.
  intros Hw.
  induction rest as [|[l t] rest IH]; intros seen langs langs' Hnd Hk Hinv H j Hj.
  - rewrite app_nil_r. inversion H; subst. auto.
  - cbn [foldM] in H. unfold obind in H.
    destruct (wordLangStep w langs (l, t)) as [l1|] eqn:E; [|discriminate].
    assert (Hk1 : Obj.keys l1 = getLanguages).
    { rewrite <- Hk. apply (wordLangs_keys w [(l, t)] langs l1).
      cbn [foldM]. rewrite E. reflexivity. }
    assert (Hsplit : (seen ++ (l, t) :: rest)%list = ((seen ++ [(l, t)]) ++ rest)%list)
      by now rewrite <- app_assoc.
    assert (Hfresh : Obj.get seen l = None).
    { apply get_none_not_in. intros Hin. rewrite keys_app in Hnd.
      apply NoDup_remove_2 in Hnd. apply Hnd, in_or_app. now left. }
    rewrite Hsplit in Hnd |- *.
    apply (IH (seen ++ [(l, t)])%list l1 langs' Hnd Hk1); auto.
    intros j' Hj'.
    rewrite (wordLangStep_cell langs l1 l t Hw Hk E j' Hj'), (Hinv j' Hj').
    assert (Hne : exists p q, (seen ++ [(l, t)])%list = p :: q).
    { destruct seen; simpl; eauto. }
    destruct Hne as [p [q Hpq]]. rewrite Hpq, <- Hpq. f_equal.
    rewrite get_app. cbn [Obj.get].
    destruct (String.eqb l j') eqn:Ej.
    + apply String.eqb_eq in Ej. subst j'. now rewrite Hfresh.
    + destruct seen as [|s seen']; [reflexivity|]. cbn [orEmpty].
      now destruct (Obj.get (s :: seen') j').
Qed.

End WordCells.

(** The loop over the words, from the cells the earlier words left, for
    the words that name no inherited member. *)
Lemma words2langs_cells (rest : Dict) :
  forall (seen : Dict) (langs langs' : Obj.t Json),
  NoDup (Obj.keys (seen ++ rest)%list) ->
  (forall w e, In (w, e) rest -> NoDup (Obj.keys e)) ->
  Obj.keys langs = getLanguages ->
  (forall j w, In j getLanguages -> inherited w = false ->
               cell langs j w = wordValue seen j w) ->
  foldM wordStep rest langs = Some langs' ->
  forall j w, In j getLanguages -> inherited w = false ->
              cell langs' j w = wordValue (seen ++ rest)%list j w.
Proof.
  induction rest as [|[w0 e] rest IH]; intros seen langs langs' Hnd Hent Hk Hinv H j w Hj Hw.
  - rewrite app_nil_r. inversion H; subst. auto.
  - cbn [foldM] in H. unfold obind in H.
    destruct (wordStep langs (w0, e)) as [l1|] eqn:E; [|discriminate].
    unfold wordStep in E.
    assert (Hk1 : Obj.keys l1 = getLanguages).
    { rewrite <- Hk. exact (wordLangs_keys w0 e langs l1 E). }
    assert (Hsplit : (seen ++ (w0, e) :: rest)%list = ((seen ++ [(w0, e)]) ++ rest)%list)
      by now rewrite <- app_assoc.
    assert (Hfresh : Obj.get seen w0 = None).
    { apply get_none_not_in. intros Hin. rewrite keys_app in Hnd.
      apply NoDup_remove_2 in Hnd. apply Hnd, in_or_app. now left. }
    rewrite Hsplit in Hnd |- *.
    apply (IH (seen ++ [(w0, e)])%list l1 langs' Hnd); auto.
    + intros w' e' Hin. apply (Hent w' e'). now right.
    + intros j' w' Hj' Hw'.
      unfold wordValue. rewrite get_app. cbn [Obj.get].
      destruct (String.eqb w0 w') eqn:Ew.
      * apply String.eqb_eq in Ew. subst w'. rewrite Hfresh.
        assert (Hw0 : forall j0, In j0 getLanguages ->
                  cell langs j0 w0
                  = match @nil (string * string) with
                    | [] => None
                    | _ :: _ => Some (orEmpty (Obj.get (@nil (string * string)) j0))
                    end).
        { intros j0 Hj0. rewrite (Hinv j0 w0 Hj0 Hw'). unfold wordValue.
          now rewrite Hfresh. }
        exact (wordLangs_cells w0 e Hw' [] langs l1
                 (Hent w0 e (or_introl eq_refl)) Hk Hw0 E j' Hj').
      * apply String.eqb_neq in Ew.
        rewrite (wordLangs_other w0 e langs l1 Hk E j' w' Hj' (fun H0 => Ew (eq_sym H0))).
        rewrite (Hinv j' w' Hj' Hw').
        unfold wordValue. now destruct (Obj.get seen w').
Qed.

(** *** Keys without repetition *)

Lemma distinctKeys_set (langs : Obj.t Json) (j : string) (o : Json) :
  distinctKeys langs -> NoDup (Obj.keys o) -> distinctKeys (Obj.set langs j o).
Proof.
  intros Hd Ho j' o' H. apply in_set_inv in H.
  destruct H as [[_ ->]|H]; [exact Ho | exact (Hd j' o' H)].
Qed.

Lemma assign_NoDup (o : Json) (k v : string) :
  NoDup (Obj.keys o) -> NoDup (Obj.keys (assign o k v)).
Proof.
  intros Hnd. unfold assign.
  destruct (String.eqb k "__proto__" && negb (Obj.hasOwn o k)); [exact Hnd|].
  now apply set_NoDup.
Qed.

Lemma prefill_distinctKeys (w : string) (ls : list string) :
  forall langs, distinctKeys langs -> distinctKeys (fold_left (prefillStep w) ls langs).
Proof.
  induction ls as [|l ls IH]; intros langs Hd; [exact Hd|].
  cbn [fold_left]. apply IH. unfold prefillStep.
  destruct (Obj.hasOwn langs l); [|exact Hd].
  destruct (Obj.get langs l) as [o|] eqn:G; [|exact Hd].
  destruct (inherited w && negb (Obj.hasOwn o w)); [exact Hd|].
  apply distinctKeys_set; [exact Hd|].
  apply set_NoDup. apply (Hd l o). now apply get_in.
Qed.

Lemma wordLangs_distinctKeys (w : string) (e : Entry) :
  forall langs langs', distinctKeys langs ->
  foldM (wordLangStep w) e langs = Some langs' -> distinctKeys langs'.
Proof.
  induction e as [|[l t] e IH]; cbn [foldM]; intros langs langs' Hd H.
  - inversion H. now subst.
  - unfold obind in H.
    destruct (wordLangStep w langs (l, t)) as [l1|] eqn:E; [|discriminate].
    apply (IH l1 langs'); [|exact H].
    unfold wordLangStep, obind in E.
    destruct (Obj.get langs l) as [o|] eqn:G; [|discriminate].
    assert (Hl1 : l1 = fold_left (prefillStep w) getLanguages
                                 (Obj.set langs l (assign o w t))) by congruence.
    rewrite Hl1. apply prefill_distinctKeys, distinctKeys_set; [exact Hd|].
    apply assign_NoDup. apply (Hd l o). now apply get_in.
Qed.

Lemma words2langs_distinctKeys (data : Dict) (langs : Obj.t Json) :
  words2langs data = Some langs -> distinctKeys langs.
Proof.
  unfold words2langs.
  assert (H0 : distinctKeys (createEmptyLangObject (fun _ : unit => @Obj.empty string))).
  { intros j o H. simpl in H.
    repeat (destruct H as [H|H]; [inversion H; constructor|]). contradiction. }
  revert H0. generalize (createEmptyLangObject (fun _ : unit => @Obj.empty string)).
  induction data as [|[w e] data IH]; cbn [foldM]; intros l0 Hd H.
  - inversion H. now subst.
  - unfold obind in H. destruct (wordStep l0 (w, e)) as [l1|] eqn:E; [|discriminate].
    apply (IH l1); [|exact H]. exact (wordLangs_distinctKeys w e l0 l1 Hd E).
Qed.

(** *** The run *)

Lemma words2langs_keys (data : Dict) (langs : Obj.t Json) :
  words2langs data = Some langs -> Obj.keys langs = getLanguages.
Proof.
  unfold words2langs. intros H. apply words2langs_loop_keys in H.
  rewrite H. apply emptyLangObject_keys.
Qed.

Lemma words2langs_cell (data : Dict) (langs : Obj.t Json) :
  NoDup (Obj.keys data) ->
  (forall w e, In (w, e) data -> NoDup (Obj.keys e)) ->
  words2langs data = Some langs ->
  forall j w, In j getLanguages -> inherited w = false ->
              cell langs j w = wordValue data j w.
Proof.
  intros Hnd Hent H j w Hj Hw. unfold words2langs in H.
  apply (words2langs_cells data [] (createEmptyLangObject (fun _ => Obj.empty)) langs);
    auto.
  intros j' w' Hj' _. exact (emptyLangObject_cell j' w' Hj').
Qed.

(** What a run leaves at the generated name of a language of the set: the
    sorted copy of the map of that language. *)
Lemma adminWords2languages_file (pat : FilePattern) (langs : Obj.t Json) (fs : FS)
  (lang : string) :
  Obj.keys langs = getLanguages -> In lang getLanguages ->
  exists translations,
    Obj.get langs lang = Some translations
    /\ readJson (fold_left (writeLangStep pat) langs fs) (langFileName pat lang)
       = Some (sortedCopy translations).
Proof.
  intros Hk Hlang.
  assert (Hnd : NoDup (Obj.keys langs)) by (rewrite Hk; apply languages_NoDup).
  destruct (writeLangs_read pat langs fs (langFileName pat lang))
    as [[l [tr [Hin [Hname Hread]]]] | [Hnone _]].
  - assert (Hl : In l getLanguages).
    { rewrite <- Hk. unfold Obj.keys. change l with (fst (l, tr)). now apply in_map. }
    assert (l = lang) by exact (langFileName_inj pat l lang Hl Hlang Hname). subst l.
    exists tr. split; [exact (NoDup_keys_get langs lang tr Hnd Hin) | exact Hread].
  - exfalso. rewrite <- Hk in Hlang. apply in_keys_get in Hlang.
    destruct (Obj.get langs lang) as [tr|] eqn:E; [|congruence].
    apply get_in in E. exact (Hnone lang tr E eq_refl).
Qed.

Lemma writeLangs_keep (pat : FilePattern) (langs : Obj.t Json) :
  forall (fs : FS) (path : string),
  In path (Obj.keys fs) -> In path (Obj.keys (fold_left (writeLangStep pat) langs fs)).
Proof.
  induction langs as [|[l t] langs IH]; intros fs path H; [exact H|].
  cbn [fold_left]. apply IH. unfold writeLangStep, writeJson.
  apply in_keys_set. now right.
Qed.

Section WordsToLanguagesFurther.
Variable evalJs : string -> option Dict.

(** X11. [adminWords2languages] completes when the name of the base file
    has the English segment, the words file evaluates to a dictionary and
    every language code in the dictionary is one of the set. *)
Theorem adminWords2languages_completes (words i18nBase : string) (fs : FS)
  (pat : FilePattern) (data : Dict) :
  createFilePattern i18nBase = Ok pat ->
  parseWordJs evalJs words = Some data ->
  (forall w e l v, In (w, e) data -> In (l, v) e -> In l getLanguages) ->
  exists fs', adminWords2languages evalJs words i18nBase fs = Some fs'.
Proof.
  intros Hpat Hdata Hlangs. unfold adminWords2languages.
  rewrite Hpat, Hdata. unfold obind at 1.
  destruct (words2langs_total data Hlangs) as [langs H]. rewrite H.
  unfold obind. eauto.
Qed.

(** X12. The language files after a run on a dictionary without repeated
    keys whose language codes are all of the set: among the words that
    name no inherited member, the file of every language of the set holds
    exactly those whose entry is not empty, each with the value its entry
    has for the language, or the empty string.  What the file held before
    plays no part. *)
Theorem adminWords2languages_files (words i18nBase : string) (fs fs' : FS)
  (pat : FilePattern) (data : Dict) :
  createFilePattern i18nBase = Ok pat ->
  parseWordJs evalJs words = Some data ->
  NoDup (Obj.keys data) ->
  (forall w e, In (w, e) data -> NoDup (Obj.keys e)) ->
  (forall w e l v, In (w, e) data -> In (l, v) e -> In l getLanguages) ->
  adminWords2languages evalJs words i18nBase fs = Some fs' ->
  forall lang, In lang getLanguages ->
  exists content,
    readJson fs' (langFileName pat lang) = Some content
    /\ forall w, inherited w = false -> Obj.get content w = wordValue data lang w.
Proof.
  intros Hpat Hdata Hnd Hent _ Hrun lang Hlang.
  unfold adminWords2languages in Hrun. rewrite Hpat, Hdata in Hrun.
  unfold obind at 1 in Hrun. unfold obind in Hrun.
  destruct (words2langs data) as [langs|] eqn:Hlangs; [|discriminate].
  assert (Hfs : fs' = fold_left (writeLangStep pat) langs fs) by congruence.
  destruct (adminWords2languages_file pat langs fs lang (words2langs_keys data langs Hlangs)
              Hlang) as [tr [Hget Hread]].
  exists (sortedCopy tr). split; [now rewrite Hfs|].
  intros w Hw. rewrite sortedCopy_get.
  rewrite <- (words2langs_cell data langs Hnd Hent Hlangs lang w Hlang Hw).
  unfold cell. now rewrite Hget.
Qed.

(** X13. When every word of the dictionary is an ASCII text, none is made
    of digits only and every language code is one of the set, the keys of
    every language file a run writes are in ascending order and without
    repetition. *)
Theorem adminWords2languages_sorted (words i18nBase : string) (fs fs' : FS)
  (pat : FilePattern) (data : Dict) :
  createFilePattern i18nBase = Ok pat ->
  parseWordJs evalJs words = Some data ->
  (forall w, In w (Obj.keys data) -> asciiOnly w /\ digitsOnly w = false) ->
  (forall w e l v, In (w, e) data -> In (l, v) e -> In l getLanguages) ->
  adminWords2languages evalJs words i18nBase fs = Some fs' ->
  forall lang, In lang getLanguages ->
  exists content,
    readJson fs' (langFileName pat lang) = Some content
    /\ ascending (Obj.keys content) /\ NoDup (Obj.keys content).
Proof.
  intros Hpat Hdata _ _ Hrun lang Hlang.
  unfold adminWords2languages in Hrun. rewrite Hpat, Hdata in Hrun.
  unfold obind at 1 in Hrun.
  unfold obind in Hrun.
  destruct (words2langs data) as [langs|] eqn:Hlangs; [|discriminate].
  assert (Hfs : fs' = fold_left (writeLangStep pat) langs fs) by congruence.
  destruct (adminWords2languages_file pat langs fs lang (words2langs_keys data langs Hlangs)
              Hlang) as [tr [Hget Hread]].
  assert (Htr : NoDup (Obj.keys tr)).
  { apply (words2langs_distinctKeys data langs Hlangs lang tr). now apply get_in. }
  exists (sortedCopy tr). split; [now rewrite Hfs|].
  split; [now apply sortedCopy_ascending|].
  unfold sortedCopy.
  rewrite (copy_keys (fun key => orEmpty (Obj.get tr key))); now apply sortStrings_NoDup.
Qed.

(** X14. A run writes the ten language files and nothing else: every path
    that is not the generated name of a language of the set reads as
    before, and no path is removed. *)
Theorem adminWords2languages_other_paths (words i18nBase : string) (fs fs' : FS)
  (pat : FilePattern) :
  createFilePattern i18nBase = Ok pat ->
  adminWords2languages evalJs words i18nBase fs = Some fs' ->
  (forall path,
      (forall lang, In lang getLanguages -> langFileName pat lang <> path) ->
      readJson fs' path = readJson fs path)
  /\ forall path, In path (Obj.keys fs) -> In path (Obj.keys fs').
Proof.
  intros Hpat Hrun.
  unfold adminWords2languages in Hrun. rewrite Hpat in Hrun.
  unfold obind at 1 in Hrun.
  destruct (parseWordJs evalJs words) as [data|]; [|discriminate].
  unfold obind in Hrun.
  destruct (words2langs data) as [langs|] eqn:Hlangs; [|discriminate].
  assert (Hfs : fs' = fold_left (writeLangStep pat) langs fs) by congruence.
  rewrite Hfs. split.
  - intros path Hother.
    destruct (writeLangs_read pat langs fs path)
      as [[l [tr [Hin [Hname Hread]]]] | [_ Hread]]; [|exact Hread].
    exfalso. apply (Hother l); [|exact Hname].
    rewrite <- (words2langs_keys data langs Hlangs).
    unfold Obj.keys. change l with (fst (l, tr)). now apply in_map.
  - intros path. apply writeLangs_keep.
Qed.

End WordsToLanguagesFurther.

(** *** On the worked example *)

Lemma exWordsWithEmpty_NoDup : NoDup (Obj.keys exWordsWithEmpty).
Proof.
  repeat (constructor; [simpl; intuition discriminate|]). constructor.
Defined.

Lemma exWordsWithEmpty_entries_NoDup (w : string) (e : Entry) :
  In (w, e) exWordsWithEmpty -> NoDup (Obj.keys e).
Proof.
  intros [H|[H|[]]]; inversion H; subst.
  - repeat (constructor; [simpl; intuition discriminate|]). constructor.
  - constructor.
Defined.

Lemma exWordsWithEmpty_languages (w : string) (e : Entry) (l v : string) :
  In (w, e) exWordsWithEmpty -> In (l, v) e -> In l getLanguages.
Proof.
  intros [H|[H|[]]] Hl; inversion H; subst.
  - destruct Hl as [Hl|[Hl|[]]]; inversion Hl; subst; unfold getLanguages; simpl; auto.
  - destruct Hl.
Defined.

Lemma adminWords2languages_completes_example :
  (createFilePattern "/a/i18n/en.json" = Ok (mkPattern "/a/i18n/" ".json")
   /\ parseWordJs evalReturn (createWordsJs exWordsWithEmpty) = Some exWordsWithEmpty
   /\ forall w e l v, In (w, e) exWordsWithEmpty -> In (l, v) e -> In l getLanguages)
  /\ exists fs',
       adminWords2languages evalReturn (createWordsJs exWordsWithEmpty)
                            "/a/i18n/en.json" [] = Some fs'.
Proof.
  split.
  - split; [vm_compute; reflexivity|]. split; [vm_compute; reflexivity|].
    exact exWordsWithEmpty_languages.
  - apply (adminWords2languages_completes evalReturn (createWordsJs exWordsWithEmpty)
             "/a/i18n/en.json" [] (mkPattern "/a/i18n/" ".json") exWordsWithEmpty);
      try (vm_compute; reflexivity).
    exact exWordsWithEmpty_languages.
Defined.

Lemma adminWords2languages_files_example :
  (createFilePattern "/a/i18n/en.json" = Ok (mkPattern "/a/i18n/" ".json")
   /\ parseWordJs evalReturn (createWordsJs exWordsWithEmpty) = Some exWordsWithEmpty
   /\ NoDup (Obj.keys exWordsWithEmpty)
   /\ (forall w e, In (w, e) exWordsWithEmpty -> NoDup (Obj.keys e))
   /\ (forall w e l v, In (w, e) exWordsWithEmpty -> In (l, v) e -> In l getLanguages)
   /\ In "ru" getLanguages)
  /\ exists fs',
       adminWords2languages evalReturn (createWordsJs exWordsWithEmpty)
                            "/a/i18n/en.json" [("/a/i18n/ru.json", [("old", "x")])]
       = Some fs'
       /\ exists content,
            readJson fs' "/a/i18n/ru.json" = Some content
            /\ (forall w, inherited w = false ->
                          Obj.get content w = wordValue exWordsWithEmpty "ru" w)
            /\ wordValue exWordsWithEmpty "ru" "hello" = Some ""
            /\ wordValue exWordsWithEmpty "ru" "old" = None.
Proof.
  assert (Hin : In "ru" getLanguages) by (unfold getLanguages; simpl; auto).
  split.
  - split; [vm_compute; reflexivity|]. split; [vm_compute; reflexivity|].
    split; [exact exWordsWithEmpty_NoDup|].
    split; [exact exWordsWithEmpty_entries_NoDup|].
    split; [exact exWordsWithEmpty_languages | exact Hin].
  - eexists. split; [vm_compute; reflexivity|].
    match goal with
    | |- exists content, readJson ?f _ = _ /\ _ =>
        destruct (adminWords2languages_files evalReturn (createWordsJs exWordsWithEmpty)
                    "/a/i18n/en.json" [("/a/i18n/ru.json", [("old", "x")])] f
                    (mkPattern "/a/i18n/" ".json") exWordsWithEmpty)
          with (lang := "ru") as [content [Hread Hget]]
    end; try (vm_compute; reflexivity); try assumption;
      [exact exWordsWithEmpty_NoDup | exact exWordsWithEmpty_entries_NoDup
       | exact exWordsWithEmpty_languages |].
    exists content. split; [exact Hread|]. split; [exact Hget|].
    split; reflexivity.
Defined.

Lemma exZebraAnt_plain (w : string) :
  In w (Obj.keys [("zebra", [("de", "Zebra")]); ("ant", [("de", "Ameise")])]) ->
  asciiOnly w /\ digitsOnly w = false.
Proof. intros [<-|[<-|[]]]; split; reflexivity. Defined.

Lemma exZebraAnt_languages (w : string) (e : Entry) (l v : string) :
  In (w, e) [("zebra", [("de", "Zebra")]); ("ant", [("de", "Ameise")])] ->
  In (l, v) e -> In l getLanguages.
Proof.
  intros [H|[H|[]]] Hl; inversion H; subst;
    destruct Hl as [Hl|[]]; inversion Hl; subst; unfold getLanguages; simpl; auto.
Defined.

Lemma adminWords2languages_sorted_example :
  (createFilePattern "/a/i18n/en.json" = Ok (mkPattern "/a/i18n/" ".json")
   /\ parseWordJs evalReturn
        (createWordsJs [("zebra", [("de", "Zebra")]); ("ant", [("de", "Ameise")])])
      = Some [("zebra", [("de", "Zebra")]); ("ant", [("de", "Ameise")])]
   /\ (forall w,
         In w (Obj.keys [("zebra", [("de", "Zebra")]); ("ant", [("de", "Ameise")])]) ->
         asciiOnly w /\ digitsOnly w = false)
   /\ (forall w e l v,
         In (w, e) [("zebra", [("de", "Zebra")]); ("ant", [("de", "Ameise")])] ->
         In (l, v) e -> In l getLanguages)
   /\ In "de" getLanguages)
  /\ exists fs',
       adminWords2languages evalReturn
         (createWordsJs [("zebra", [("de", "Zebra")]); ("ant", [("de", "Ameise")])])
         "/a/i18n/en.json" [] = Some fs'
       /\ exists content,
            readJson fs' "/a/i18n/de.json" = Some content
            /\ ascending (Obj.keys content) /\ NoDup (Obj.keys content).
Proof.
  assert (Hin : In "de" getLanguages) by (unfold getLanguages; simpl; auto).
  assert (Hparse : parseWordJs evalReturn
            (createWordsJs [("zebra", [("de", "Zebra")]); ("ant", [("de", "Ameise")])])
          = Some [("zebra", [("de", "Zebra")]); ("ant", [("de", "Ameise")])])
    by (vm_compute; reflexivity).
  split.
  { split; [vm_compute; reflexivity|]. split; [exact Hparse|].
    split; [exact exZebraAnt_plain|].
    split; [exact exZebraAnt_languages | exact Hin]. }
  eexists. split; [vm_compute; reflexivity|].
  match goal with
  | |- exists content, readJson ?f _ = _ /\ _ =>
      exact (adminWords2languages_sorted evalReturn
               (createWordsJs [("zebra", [("de", "Zebra")]); ("ant", [("de", "Ameise")])])
               "/a/i18n/en.json" [] f (mkPattern "/a/i18n/" ".json")
               [("zebra", [("de", "Zebra")]); ("ant", [("de", "Ameise")])]
               eq_refl Hparse exZebraAnt_plain exZebraAnt_languages eq_refl "de" Hin)
  end.
Defined.

Lemma adminWords2languages_other_paths_example :
  createFilePattern "/a/i18n/en.json" = Ok (mkPattern "/a/i18n/" ".json")
  /\ exists fs',
       adminWords2languages evalReturn (createWordsJs exWordsWithEmpty)
                            "/a/i18n/en.json" [("/a/io-package.json", [("k", "v")])]
       = Some fs'
       /\ (forall path,
             (forall lang, In lang getLanguages ->
                           langFileName (mkPattern "/a/i18n/" ".json") lang <> path) ->
             readJson fs' path = readJson [("/a/io-package.json", [("k", "v")])] path)
       /\ forall path, In path (Obj.keys [("/a/io-package.json", [("k", "v")])]) ->
                       In path (Obj.keys fs').
Proof.
  split; [vm_compute; reflexivity|].
  eexists. split; [vm_compute; reflexivity|].
  match goal with
  | |- (forall path, _ -> readJson ?f _ = _) /\ _ =>
      exact (adminWords2languages_other_paths evalReturn (createWordsJs exWordsWithEmpty)
               "/a/i18n/en.json" [("/a/io-package.json", [("k", "v")])] f
               (mkPattern "/a/i18n/" ".json") eq_refl eq_refl)
  end.
Defined.

(** ** adminLanguages2words: the warnings, and where the values come from *)

Lemma in_missingLangs (e : Entry) (l : string) :
  In l (missingLangs e) <-> In l getLanguages /\ falsy (Obj.get e l) = true.
Proof. unfold missingLangs, missingAmong. apply filter_In. Qed.

Lemma in_missing_warnings (e : Entry) (key k l : string) :
  In (MissingLang l k) (map (fun lang => MissingLang lang key) (missingLangs e))
  <-> key = k /\ In l getLanguages /\ falsy (Obj.get e l) = true.
Proof.
  rewrite in_map_iff. split.
  - intros [l' [Heq Hl']]. inversion Heq; subst. split; auto. now apply in_missingLangs.
  - intros [-> Hl]. exists l. split; auto. now apply in_missingLangs.
Qed.

Lemma take_not_in_missing_warnings (e : Entry) (key k : string) :
  ~ In (TakeFromWords k) (map (fun lang => MissingLang lang key) (missingLangs e)).
Proof. rewrite in_map_iff. intros [l [Heq _]]. discriminate. Qed.

(** The loop over the existing words announces exactly the keys the new
    dictionary lacks, unless they name an inherited member. *)
Lemma merge_loop_take (old : Dict) :
  forall (cur : Dict) (ws : list Warning) (k : string),
  In (TakeFromWords k) (snd (fold_left mergeStep old (cur, ws)))
  <-> In (TakeFromWords k) ws
      \/ (Obj.get cur k = None /\ In k (Obj.keys old) /\ inherited k = false).
Proof.
  induction old as [|[key tr] old IH]; intros cur ws k.
  - simpl. tauto.
  - cbn [fold_left]. rewrite mergeStep_eq.
    destruct (Obj.get cur key) as [e0|] eqn:E; [|destruct (inherited key) eqn:Ei];
      rewrite IH; clear IH.
    + rewrite in_app_iff. pose proof (take_not_in_missing_warnings e0 key k) as Hno.
      cbn [Obj.keys map fst In].
      intuition (subst; congruence).
    + rewrite in_app_iff.
      assert (Hno : ~ In (TakeFromWords k)
                         (map (fun lang => MissingLang lang key) getLanguages)).
      { rewrite in_map_iff. intros [l [Heq _]]. discriminate. }
      cbn [Obj.keys map fst In].
      intuition (subst; congruence).
    + rewrite !in_app_iff. pose proof (take_not_in_missing_warnings tr key k) as Hno.
      rewrite get_set. cbn [Obj.keys map fst In].
      destruct (String.eqb key k) eqn:Ek.
      * apply String.eqb_eq in Ek. subst k. intuition discriminate.
      * apply String.eqb_neq in Ek. intuition congruence.
Qed.

(** The loop reports a language as missing exactly for the keys of the
    existing words and the languages of the set that have no non-empty
    value in the entry it leaves for the key. *)
Lemma merge_loop_missing (old : Dict) :
  forall (cur : Dict) (ws : list Warning) (l k : string),
  In (MissingLang l k) (snd (fold_left mergeStep old (cur, ws)))
  <-> In (MissingLang l k) ws
      \/ (In k (Obj.keys old) /\ In l getLanguages
          /\ falsy (entryValue (mergedEntry cur old k) l) = true).
Proof.
  induction old as [|[key tr] old IH]; intros cur ws l k.
  - simpl. tauto.
  - cbn [fold_left]. rewrite mergeStep_eq. unfold mergedEntry.
    destruct (Obj.get cur key) as [e0|] eqn:E; [|destruct (inherited key) eqn:Ei];
      rewrite IH; clear IH; unfold mergedEntry.
    + rewrite in_app_iff, in_missing_warnings. cbn [Obj.keys map fst In Obj.get].
      destruct (String.eqb key k) eqn:Ek.
      * apply String.eqb_eq in Ek. subst k. rewrite E. cbn [entryValue]. tauto.
      * apply String.eqb_neq in Ek. tauto.
    + rewrite in_app_iff, in_map_iff. cbn [Obj.keys map fst In Obj.get].
      destruct (String.eqb key k) eqn:Ek.
      * apply String.eqb_eq in Ek. subst k. rewrite E, Ei. cbn [entryValue falsy].
        split.
        -- intros [[H|[l' [Heq Hl']]]|H]; [now left| |tauto].
           inversion Heq; subst. right. auto.
        -- intros [H|[_ [Hl _]]]; [now left; left|]. left. right. eauto.
      * apply String.eqb_neq in Ek. split.
        -- intros [[H|[l' [Heq Hl']]]|H]; [now left| |tauto].
           inversion Heq; subst. contradiction.
        -- intros [H|[[H|H] H']]; [now left; left | contradiction | tauto].
    + rewrite !in_app_iff, in_missing_warnings, get_set.
      cbn [Obj.keys map fst In Obj.get].
      destruct (String.eqb key k) eqn:Ek.
      * apply String.eqb_eq in Ek. subst k. rewrite E, Ei. cbn [entryValue].
        intuition discriminate.
      * apply String.eqb_neq in Ek. intuition discriminate.
Qed.

(** *** The loop over the language files *)

Lemma emptyLangObject_values (l v : string) :
  Obj.get (createEmptyLangObject (fun _ => "")) l = Some v -> v = "".
Proof.
  intros H. apply get_in in H. simpl in H.
  repeat (destruct H as [H|H]; [now inversion H|]). contradiction.
Qed.

Lemma collectKeyStep_eq (lang : string) (tr : Json) (d : Dict) (key : string) :
  collectKeyStep lang tr d key
  = match Obj.get d key with
    | Some e => Obj.set d key (Obj.set e lang (orEmpty (Obj.get tr key)))
    | None =>
        if String.eqb key "__proto__" then d
        else Obj.set d key
               (Obj.set (if inherited key then Obj.empty
                         else createEmptyLangObject (fun _ => ""))
                        lang (orEmpty (Obj.get tr key)))
    end.
Proof. reflexivity. Qed.

Lemma collectKeyStep_sets (lang : string) (tr : Json) (d : Dict) (k : string) :
  k <> "__proto__" ->
  hasValue (collectKeyStep lang tr d k) k lang (orEmpty (Obj.get tr k)).
Proof.
  intros Hk. apply String.eqb_neq in Hk.
  unfold hasValue. rewrite collectKeyStep_eq, Hk.
  destruct (Obj.get d k); (eexists; split; [apply get_set_same|]); apply get_set_same.
Qed.

Lemma collectKeyStep_keeps (lang' : string) (tr : Json) (d : Dict) (key : string)
  (k lang v : string) :
  hasValue d k lang v ->
  lang' <> lang \/ orEmpty (Obj.get tr k) = v ->
  hasValue (collectKeyStep lang' tr d key) k lang v.
Proof.
  intros [e [He Hv]] Hor. unfold hasValue. rewrite collectKeyStep_eq.
  destruct (String.eqb key k) eqn:Ek.
  - apply String.eqb_eq in Ek. subst key. rewrite He, get_set_same.
    eexists. split; [reflexivity|]. rewrite get_set.
    destruct (String.eqb lang' lang) eqn:El; [|exact Hv].
    apply String.eqb_eq in El.
    destruct Hor as [Hne|Heq]; [contradiction | now rewrite Heq].
  - destruct (Obj.get d key); [rewrite get_set, Ek; eauto|].
    destruct (String.eqb key "__proto__"); [eauto|]. rewrite get_set, Ek. eauto.
Qed.

Lemma collectKeys_keeps (lang' : string) (tr : Json) (k lang v : string)
  (keys : list string) :
  forall d, hasValue d k lang v ->
  lang' <> lang \/ orEmpty (Obj.get tr k) = v ->
  hasValue (fold_left (collectKeyStep lang' tr) keys d) k lang v.
Proof.
  induction keys as [|x keys IH]; intros d Hd Hor; [exact Hd|].
  cbn [fold_left]. apply IH; [|exact Hor]. now apply collectKeyStep_keeps.
Qed.

Lemma collectKeys_sets (lang : string) (tr : Json) (k : string) (keys : list string) :
  k <> "__proto__" ->
  forall d, In k keys ->
  hasValue (fold_left (collectKeyStep lang tr) keys d) k lang (orEmpty (Obj.get tr k)).
Proof.
  intros Hk. induction keys as [|x keys IH]; intros d Hin; [destruct Hin|].
  cbn [fold_left]. destruct (string_dec x k) as [->|Hne].
  - apply collectKeys_keeps; [now apply collectKeyStep_sets | now right].
  - apply IH. destruct Hin as [Hx|Hin]; [contradiction | exact Hin].
Qed.

Section CollectFiles.
Variable pat : FilePattern.
Variable fs : FS.

Lemma collectFileStep_eq (d : Dict) (file : string) :
  collectFileStep pat fs d file
  = match matchLang pat file with
    | None => Some d
    | Some lang =>
        match readJson fs file with
        | Some c => Some (fold_left (collectKeyStep lang c) (Obj.keys c) d)
        | None => None
        end
    end.
Proof.
  unfold collectFileStep, obind. destruct (matchLang pat file); [|reflexivity].
  now destruct (readJson fs file).
Qed.

Lemma collectFileStep_keeps (d d' : Dict) (file k lang v : string) :
  collectFileStep pat fs d file = Some d' ->
  hasValue d k lang v ->
  (matchLang pat file = Some lang ->
   exists c, readJson fs file = Some c /\ orEmpty (Obj.get c k) = v) ->
  hasValue d' k lang v.
Proof.
  rewrite collectFileStep_eq. intros H Hd Hsame.
  destruct (matchLang pat file) as [lang'|]; [|now inversion H; subst].
  destruct (readJson fs file) as [c|]; [|discriminate].
  assert (Hd' : d' = fold_left (collectKeyStep lang' c) (Obj.keys c) d) by congruence.
  rewrite Hd'. apply collectKeys_keeps; [exact Hd|].
  destruct (string_dec lang' lang) as [->|Hne]; [|now left].
  right. destruct (Hsame eq_refl) as [c' [Hc' Hv]]. congruence.
Qed.

Lemma collectFiles_keeps (files : list string) (k lang v : string) :
  forall d d',
  foldM (collectFileStep pat fs) files d = Some d' ->
  hasValue d k lang v ->
  (forall f, In f files -> matchLang pat f = Some lang ->
             exists c, readJson fs f = Some c /\ orEmpty (Obj.get c k) = v) ->
  hasValue d' k lang v.
Proof.
  induction files as [|f files IH]; intros d d' H Hd Hsame.
  - inversion H. now subst.
  - cbn [foldM] in H. unfold obind in H.
    destruct (collectFileStep pat fs d f) as [d1|] eqn:E; [|discriminate].
    apply (IH d1 d' H).
    + apply (collectFileStep_keeps d d1 f k lang v E Hd). apply Hsame. now left.
    + intros f' Hf'. apply Hsame. now right.
Qed.

(** A value of a file, the only one of the list for its language, is in
    the dictionary the loop builds. *)
Lemma collectFiles_sets (files : list string) (file k lang v : string) (c : Json) :
  k <> "__proto__" ->
  matchLang pat file = Some lang -> readJson fs file = Some c -> Obj.get c k = Some v ->
  forall d d',
  foldM (collectFileStep pat fs) files d = Some d' ->
  In file files ->
  (forall f, In f files -> matchLang pat f = Some lang -> f = file) ->
  hasValue d' k lang v.
Proof.
  intros Hk Hlang Hc Hv.
  assert (Hor : orEmpty (Obj.get c k) = v) by now rewrite Hv.
  induction files as [|f files IH]; intros d d' H Hin Huniq; [destruct Hin|].
  cbn [foldM] in H. unfold obind in H.
  destruct (collectFileStep pat fs d f) as [d1|] eqn:E; [|discriminate].
  destruct (string_dec f file) as [->|Hne].
  - apply (collectFiles_keeps files k lang v d1 d' H).
    + rewrite collectFileStep_eq, Hlang, Hc in E.
      assert (Hd1 : d1 = fold_left (collectKeyStep lang c) (Obj.keys c) d) by congruence.
      rewrite Hd1, <- Hor. apply collectKeys_sets; [exact Hk|].
      eapply get_some_in; exact Hv.
    + intros f' Hf' Hl'. rewrite (Huniq f' (or_intror Hf') Hl'). eauto.
  - apply (IH d1 d' H).
    + destruct Hin as [Hin|Hin]; [contradiction | exact Hin].
    + intros f' Hf'. apply Huniq. now right.
Qed.

Lemma fromFiles_more (files : list string) (f : string) (d : Dict) :
  fromFiles pat fs files d -> fromFiles pat fs (f :: files) d.
Proof.
  intros [Hv Hk]. split.
  - intros k e lang v He Hl Hne.
    destruct (Hv k e lang v He Hl Hne) as [file [c [Hin H]]].
    exists file, c. split; [now right | exact H].
  - intros k Hin. destruct (Hk k Hin) as [file [c [lang [Hf H]]]].
    exists file, c, lang. split; [now right | exact H].
Qed.

Lemma collectKeyStep_fromFiles (files : list string) (file lang key : string) (c : Json)
  (d : Dict) :
  In file files -> matchLang pat file = Some lang -> readJson fs file = Some c ->
  In key (Obj.keys c) ->
  fromFiles pat fs files d -> fromFiles pat fs files (collectKeyStep lang c d key).
Proof.
  intros Hin Hlang Hc Hkey [Hv Hk].
  assert (Hfile : forall l v, l = lang -> Some (orEmpty (Obj.get c key)) = Some v ->
            v <> "" ->
            exists file c0, In file files /\ matchLang pat file = Some l
                            /\ readJson fs file = Some c0 /\ Obj.get c0 key = Some v).
  { intros l v -> Hl Hne. exists file, c.
    split; [exact Hin|]. split; [exact Hlang|]. split; [exact Hc|].
    destruct (Obj.get c key) as [v'|]; simpl in Hl; [exact Hl | congruence]. }
  rewrite collectKeyStep_eq.
  destruct (Obj.get d key) as [e0|] eqn:E0; [|destruct (String.eqb key "__proto__")].
  - split.
    + intros k e l v He Hl Hne. rewrite get_set in He.
      destruct (String.eqb key k) eqn:Ek; [|exact (Hv k e l v He Hl Hne)].
      apply String.eqb_eq in Ek. subst k.
      injection He as He'. rewrite <- He', get_set in Hl.
      destruct (String.eqb lang l) eqn:El.
      * apply String.eqb_eq in El. now apply Hfile.
      * exact (Hv key e0 l v E0 Hl Hne).
    + intros k Hkin. apply in_keys_set in Hkin.
      destruct Hkin as [->|Hkin]; [|exact (Hk k Hkin)].
      exists file, c, lang. auto.
  - split; assumption.
  - split.
    + intros k e l v He Hl Hne. rewrite get_set in He.
      destruct (String.eqb key k) eqn:Ek; [|exact (Hv k e l v He Hl Hne)].
      apply String.eqb_eq in Ek. subst k.
      injection He as He'. rewrite <- He', get_set in Hl.
      destruct (String.eqb lang l) eqn:El.
      * apply String.eqb_eq in El. now apply Hfile.
      * destruct (inherited key); [discriminate|].
        apply emptyLangObject_values in Hl. contradiction.
    + intros k Hkin. apply in_keys_set in Hkin.
      destruct Hkin as [->|Hkin]; [|exact (Hk k Hkin)].
      exists file, c, lang. auto.
Qed.

Lemma collectKeys_fromFiles (files : list string) (file lang : string) (c : Json)
  (keys : list string) :
  In file files -> matchLang pat file = Some lang -> readJson fs file = Some c ->
  (forall key, In key keys -> In key (Obj.keys c)) ->
  forall d, fromFiles pat fs files d ->
  fromFiles pat fs files (fold_left (collectKeyStep lang c) keys d).
Proof.
  intros Hin Hlang Hc. induction keys as [|x keys IH]; intros Hsub d Hd; [exact Hd|].
  cbn [fold_left]. apply IH; [intros key Hk; apply Hsub; now right|].
  apply (collectKeyStep_fromFiles files file lang x c d); auto. apply Hsub. now left.
Qed.

Lemma collectFiles_fromFiles (rest : list string) :
  forall (files : list string) (d d' : Dict),
  (forall f, In f rest -> In f files) ->
  fromFiles pat fs files d ->
  foldM (collectFileStep pat fs) rest d = Some d' ->
  fromFiles pat fs files d'.
Proof.
  induction rest as [|f rest IH]; intros files d d' Hsub Hd H.
  - inversion H. now subst.
  - cbn [foldM] in H. unfold obind in H.
    destruct (collectFileStep pat fs d f) as [d1|] eqn:E; [|discriminate].
    apply (IH files d1 d'); [intros f' Hf'; apply Hsub; now right | | exact H].
    rewrite collectFileStep_eq in E.
    destruct (matchLang pat f) as [lang|] eqn:El; [|now inversion E; subst].
    destruct (readJson fs f) as [c|] eqn:Ec; [|discriminate].
    assert (Hd1 : d1 = fold_left (collectKeyStep lang c) (Obj.keys c) d) by congruence.
    rewrite Hd1. apply (collectKeys_fromFiles files f lang c); auto.
    apply Hsub. now left.
Qed.

Lemma collectFiles_total (files : list string) :
  (forall f, In f files -> In f (Obj.keys fs)) ->
  forall d, exists d', foldM (collectFileStep pat fs) files d = Some d'.
Proof.
  induction files as [|f files IH]; intros Hin d; cbn [foldM]; [eauto|].
  rewrite collectFileStep_eq.
  destruct (matchLang pat f) as [lang|].
  - assert (Hf : In f (Obj.keys fs)) by (apply Hin; now left).
    apply in_keys_get in Hf. unfold readJson.
    destruct (Obj.get fs f) as [c|]; [|congruence].
    unfold obind. apply IH. intros f' Hf'. apply Hin. now right.
  - unfold obind. apply IH. intros f' Hf'. apply Hin. now right.
Qed.

End CollectFiles.

Section WordsFurther.
Variable underAdmin : string -> bool.
Variable evalJs : string -> option Dict.



Lemma buildNewWords_eq (i18nBase : string) (fs : FS) (pat : FilePattern) :
  createFilePattern i18nBase = Ok pat ->
  buildNewWords underAdmin i18nBase fs
  = foldM (collectFileStep pat fs) (discovered underAdmin pat fs) Obj.empty.
Proof.
  intros Hpat. unfold buildNewWords.
  rewrite (findAllLanguageFiles_eq underAdmin i18nBase pat fs Hpat), Hpat.
  reflexivity.
Qed.




End WordsFurther.

(** *** On the worked example *)






(** ** parseWordJs: what it hands to the engine *)

Lemma indexOf_none (c : ascii) (s : string) :
  allChars (fun x => negb (Ascii.eqb x c)) s = true -> indexOf c s = (-1)%Z.
Proof.
  induction s as [|x s IH]; cbn [indexOf allChars]; intros H; [reflexivity|].
  apply andb_true_iff in H. destruct H as [Hx Hs].
  apply negb_true_iff in Hx. rewrite Hx, (IH Hs). reflexivity.
Qed.

Lemma lastIndexOf_none (c : ascii) (s : string) :
  allChars (fun x => negb (Ascii.eqb x c)) s = true -> lastIndexOf c s = (-1)%Z.
Proof.
  induction s as [|x s IH]; cbn [lastIndexOf allChars]; intros H; [reflexivity|].
  apply andb_true_iff in H. destruct H as [Hx Hs].
  apply negb_true_iff in Hx. rewrite Hx, (IH Hs). reflexivity.
Qed.

Lemma lastIndexOf_app (c : ascii) (pre tail : string) :
  allChars (fun x => negb (Ascii.eqb x c)) tail = true ->
  lastIndexOf c (pre ++ String c tail) = Z.of_nat (String.length pre).
Proof.
  intros Ht. induction pre as [|x pre IH]; cbn [append lastIndexOf String.length].
  - rewrite (lastIndexOf_none c tail Ht), Ascii.eqb_refl. reflexivity.
  - rewrite IH. destruct (0 <=? Z.of_nat (String.length pre))%Z eqn:E; lia.
Qed.

Lemma allChars_substring (p : ascii -> bool) (s : string) :
  allChars p s = true -> forall n m, allChars p (substring n m s) = true.
Proof.
  induction s as [|x s IH]; intros H n m.
  - destruct n, m; reflexivity.
  - cbn [allChars] in H. apply andb_true_iff in H. destruct H as [Hx Hs].
    destruct n as [|n]; cbn [substring].
    + destruct m as [|m]; [reflexivity|]. cbn [allChars]. now rewrite Hx, IH.
    + now apply IH.
Qed.

Lemma jsSubstring_empty (s : string) (stop : Z) :
  (stop <= 0)%Z -> jsSubstring s 0 stop = "".
Proof.
  intros H. unfold jsSubstring.
  replace (Z.max 0 (Z.min 0 (Z.of_nat (String.length s)))) with 0%Z by lia.
  replace (Z.max 0 (Z.min stop (Z.of_nat (String.length s)))) with 0%Z by lia.
  simpl. now destruct s.
Qed.

Section ParseWords.
Variable evalJs : string -> option Dict.

(** X20. [parseWordJs] drops what stands before the first opening brace and
    what stands from the last semicolon on, and has the rest evaluated as
    the operand of a [return]. *)
Theorem parseWordJs_slice (pre body tail : string) :
  allChars (fun x => negb (Ascii.eqb x "{")) pre = true ->
  allChars (fun x => negb (Ascii.eqb x ";")) tail = true ->
  parseWordJs evalJs (pre ++ "{" ++ body ++ ";" ++ tail)
  = evalJs ("return {" ++ body ++ ";").
Proof.
  intros Hpre Htail. unfold parseWordJs.
  change ("{" ++ body ++ ";" ++ tail) with (String "{" (body ++ String ";" tail)).
  rewrite (indexOf_app "{" pre _ Hpre), jsSubstring_from.
  change (String "{" (body ++ String ";" tail)) with (("{" ++ body) ++ String ";" tail).
  rewrite (lastIndexOf_app ";" ("{" ++ body) tail Htail), jsSubstring_upto.
  reflexivity.
Qed.

(** X21. A text without a semicolon leaves nothing to evaluate: the engine
    is handed [return ;], whatever the text holds. *)
Theorem parseWordJs_without_semicolon (words : string) :
  allChars (fun x => negb (Ascii.eqb x ";")) words = true ->
  parseWordJs evalJs words = evalJs "return ;".
Proof.
  intros H. unfold parseWordJs.
  set (w1 := jsSubstring words (indexOf "{" words) (Z.of_nat (String.length words))).
  assert (H1 : allChars (fun x => negb (Ascii.eqb x ";")) w1 = true).
  { unfold w1, jsSubstring. now apply allChars_substring. }
  rewrite (lastIndexOf_none ";" w1 H1), jsSubstring_empty by lia.
  reflexivity.
Qed.

End ParseWords.

Lemma parseWordJs_slice_example :
  (allChars (fun x => negb (Ascii.eqb x "{")) "systemDictionary = " = true
   /\ allChars (fun x => negb (Ascii.eqb x ";")) " // end" = true)
  /\ parseWordJs evalReturn ("systemDictionary = " ++ "{" ++ "}" ++ ";" ++ " // end")
     = evalReturn ("return {" ++ "}" ++ ";")
  /\ evalReturn ("return {" ++ "}" ++ ";") = Some [].
Proof.
  split; [split; reflexivity|]. split; [|vm_compute; reflexivity].
  apply (parseWordJs_slice evalReturn "systemDictionary = " "}" " // end"); reflexivity.
Defined.

Lemma parseWordJs_without_semicolon_example :
  allChars (fun x => negb (Ascii.eqb x ";")) "systemDictionary = {}" = true
  /\ parseWordJs evalReturn "systemDictionary = {}" = evalReturn "return ;"
  /\ evalReturn "return ;" = None.
Proof.
  split; [reflexivity|]. split; [|vm_compute; reflexivity].
  apply (parseWordJs_without_semicolon evalReturn). reflexivity.
Defined.

(** ** From a words file to the language files *)

(** X22. The words file [createWordsJs] writes for a dictionary, handed to
    [adminWords2languages]: when no key, language or value has a backslash
    or a line break and every language is one of the set, the run
    completes and, among the words that name no inherited member, the file
    of every language holds exactly those with a non-empty entry, each
    with the value the dictionary has for it, or the empty string. *)
Theorem createWordsJs_to_language_files (d : Dict) (i18nBase : string) (fs : FS)
  (pat : FilePattern) :
  cleanDict d ->
  (forall w e l v, In (w, e) d -> In (l, v) e -> In l getLanguages) ->
  createFilePattern i18nBase = Ok pat ->
  exists fs',
    adminWords2languages evalReturn (createWordsJs d) i18nBase fs = Some fs'
    /\ forall lang, In lang getLanguages ->
       exists content,
         readJson fs' (langFileName pat lang) = Some content
         /\ forall w, inherited w = false -> Obj.get content w = wordValue d lang w.
Proof.
  intros Hd Hlangs Hpat.
  destruct (words2langs_total d Hlangs) as [langs Hl].
  exists (fold_left (writeLangStep pat) langs fs). split.
  - unfold adminWords2languages.
    rewrite Hpat, (parseWordJs_createWordsJs d Hd). unfold obind at 1.
    rewrite Hl. reflexivity.
  - intros lang Hlang.
    destruct (adminWords2languages_file pat langs fs lang (words2langs_keys d langs Hl)
                Hlang) as [tr [Hget Hread]].
    exists (sortedCopy tr). split; [exact Hread|].
    intros w Hw. rewrite sortedCopy_get.
    destruct Hd as [Hnd Hent].
    rewrite <- (words2langs_cell d langs Hnd
                  (fun w0 e H => proj1 (proj2 (Hent w0 e H))) Hl lang w Hlang Hw).
    unfold cell. now rewrite Hget.
Qed.

Lemma exWordsWithEmpty_clean : cleanDict exWordsWithEmpty.
Proof.
  split; [exact exWordsWithEmpty_NoDup|].
  intros k e [H|[H|[]]]; inversion H; subst.
  - split; [reflexivity|]. split.
    + repeat (constructor; [simpl; intuition discriminate|]). constructor.
    + intros l v [Hl|[Hl|[]]]; inversion Hl; subst; split; reflexivity.
  - split; [reflexivity|]. split; [constructor|]. intros l v [].
Defined.

Lemma createWordsJs_to_language_files_example :
  (cleanDict exWordsWithEmpty
   /\ (forall w e l v, In (w, e) exWordsWithEmpty -> In (l, v) e -> In l getLanguages)
   /\ createFilePattern "/a/i18n/en.json" = Ok (mkPattern "/a/i18n/" ".json"))
  /\ exists fs',
       adminWords2languages evalReturn (createWordsJs exWordsWithEmpty)
                            "/a/i18n/en.json" [] = Some fs'
       /\ forall lang, In lang getLanguages ->
          exists content,
            readJson fs' (langFileName (mkPattern "/a/i18n/" ".json") lang) = Some content
            /\ forall w, inherited w = false ->
                         Obj.get content w = wordValue exWordsWithEmpty lang w.
Proof.
  split.
  - split; [exact exWordsWithEmpty_clean|].
    split; [exact exWordsWithEmpty_languages | vm_compute; reflexivity].
  - apply (createWordsJs_to_language_files exWordsWithEmpty "/a/i18n/en.json" []
             (mkPattern "/a/i18n/" ".json") exWordsWithEmpty_clean
             exWordsWithEmpty_languages).
    vm_compute; reflexivity.
Defined.

(** X27. [createWordsJs] tells dictionaries apart: two dictionaries without
    repeated keys, backslashes and line breaks that give the same text are
    the same dictionary, entry by entry and in the same order. *)
Theorem createWordsJs_injective (d1 d2 : Dict) :
  cleanDict d1 -> cleanDict d2 -> createWordsJs d1 = createWordsJs d2 -> d1 = d2.
Proof.
  intros H1 H2 Heq.
  pose proof (parseWordJs_createWordsJs d1 H1) as P1.
  pose proof (parseWordJs_createWordsJs d2 H2) as P2.
  rewrite Heq in P1. congruence.
Qed.

Lemma createWordsJs_injective_example :
  (cleanDict exWordsWithEmpty /\ cleanDict exWordsWithEmpty
   /\ createWordsJs exWordsWithEmpty = createWordsJs exWordsWithEmpty)
  /\ exWordsWithEmpty = exWordsWithEmpty.
Proof.
  split; [split; [exact exWordsWithEmpty_clean|];
          split; [exact exWordsWithEmpty_clean | reflexivity]|].
  apply (createWordsJs_injective exWordsWithEmpty exWordsWithEmpty
           exWordsWithEmpty_clean exWordsWithEmpty_clean).
  reflexivity.
Defined.

(** ** translateIoPackage *)

Section IoPackage.
Variable translateText : string -> string -> string.

Local Abbreviation tne := (translateNotExisting translateText).

Lemma translateNotExisting_eq (obj : Entry) (baseText : option string) :
  tne obj baseText
  = match sourceText obj baseText with
    | Some t => fold_left (notExistingStep translateText t) getLanguages (obj, [])
    | None => (obj, [])
    end.
Proof.
  unfold translateNotExisting, sourceText.
  destruct (jsOr (Obj.get obj "en") baseText) as [t|]; [|reflexivity].
  now destruct (String.eqb t "").
Qed.

Lemma translateNotExisting_calls (obj : Entry) (baseText : option string) :
  snd (tne obj baseText) = callsFor obj baseText.
Proof.
  rewrite translateNotExisting_eq. unfold callsFor.
  destruct (sourceText obj baseText) as [t|]; [|reflexivity].
  destruct (notExisting_loop translateText t getLanguages languages_NoDup obj [])
    as [obj' [Hfold _]].
  rewrite Hfold. reflexivity.
Qed.

Lemma in_missingAmong (obj : Entry) (lang : string) :
  includes (missingLangs obj) lang = true
  <-> In lang getLanguages /\ falsy (Obj.get obj lang) = true.
Proof. rewrite includes_In. apply in_missingLangs. Qed.

Lemma translateNotExisting_fillsEntry (obj : Entry) (baseText : option string) :
  fillsEntry translateText baseText obj (fst (tne obj baseText)).
Proof.
  rewrite translateNotExisting_eq. unfold fillsEntry.
  destruct (sourceText obj baseText) as [t|]; [|simpl; intuition discriminate].
  destruct (notExisting_loop translateText t getLanguages languages_NoDup obj [])
    as [obj' [Hfold Hget]].
  change (missingAmong obj getLanguages) with (missingLangs obj) in Hget.
  rewrite Hfold. cbn [fst]. split; [|split; [|split]].
  - intros lang Ht. rewrite Hget.
    destruct (includes (missingLangs obj) lang) eqn:E; [|reflexivity].
    apply in_missingAmong in E. destruct E as [_ Hf].
    unfold truthy in Ht. rewrite Hf in Ht. discriminate.
  - intros lang Hn. rewrite Hget.
    destruct (includes (missingLangs obj) lang) eqn:E; [|reflexivity].
    apply in_missingAmong in E. tauto.
  - intros t' lang Ht' Hin Hf. inversion Ht'; subst t'. rewrite Hget.
    now rewrite (proj2 (in_missingAmong obj lang) (conj Hin Hf)).
  - discriminate.
Qed.

Lemma translateNews_loop (n : Obj.t Entry) :
  forall (done : Obj.t Entry) (log : list Call),
  fold_left (newsStep translateText) n (done, log)
  = ((done ++ map (fun ke => (fst ke, fst (tne (snd ke) None))) n)%list,
     (log ++ flat_map (fun ke => snd (tne (snd ke) None)) n)%list).
Proof.
  induction n as [|[k nw] n IH]; intros done log.
  - simpl. now rewrite !app_nil_r.
  - cbn [fold_left]. unfold newsStep at 2.
    destruct (tne nw None) as [nw' calls] eqn:E.
    rewrite IH. cbn [map flat_map fst snd]. rewrite E. cbn [fst snd].
    now rewrite <- !app_assoc.
Qed.

Lemma translateNews_eq (n : Obj.t Entry) :
  translateNews translateText n
  = (map (fun ke => (fst ke, fst (tne (snd ke) None))) n,
     flat_map (fun ke => snd (tne (snd ke) None)) n).
Proof. unfold translateNews. now rewrite translateNews_loop. Qed.

Lemma translateField_eq (field : option Entry) (baseText : option string) :
  translateField translateText field baseText
  = (option_map (fun e => fst (tne e baseText)) field,
     match field with Some e => snd (tne e baseText) | None => [] end).
Proof.
  unfold translateField. destruct field as [e|]; [|reflexivity].
  cbn [option_map]. now destruct (tne e baseText).
Qed.

Lemma translateIoPackage_eq (common : Common) :
  translateIoPackage translateText common
  = (mkCommon
       (option_map (map (fun ke => (fst ke, fst (tne (snd ke) None)))) (news common))
       (option_map (fun e => fst (tne e (title common))) (titleLang common))
       (title common)
       (option_map (fun e => fst (tne e None)) (desc common)),
     (match news common with
      | Some n => flat_map (fun ke => snd (tne (snd ke) None)) n
      | None => []
      end
      ++ match titleLang common with
         | Some e => snd (tne e (title common))
         | None => []
         end
      ++ match desc common with Some e => snd (tne e None) | None => [] end)%list).
Proof.
  unfold translateIoPackage. rewrite !translateField_eq.
  destruct (news common) as [n|]; [rewrite translateNews_eq|]; reflexivity.
Qed.

(** X23. What [translateIoPackage] makes of [content.common]: the plain
    title is as it was, an absent field stays absent, the news keep their
    versions in order, and every entry it handles keeps its non-empty
    values and, when there is a source text, gets the translation of that
    text for every language of the set without one.  The source text is
    the English value, for the title entry the plain title when it has no
    English value. *)
Theorem translateIoPackage_fields (common : Common) :
  title (fst (translateIoPackage translateText common)) = title common
  /\ newsRel (fillsEntry translateText None)
       (news common) (news (fst (translateIoPackage translateText common)))
  /\ fieldRel (fillsEntry translateText (title common))
       (titleLang common) (titleLang (fst (translateIoPackage translateText common)))
  /\ fieldRel (fillsEntry translateText None)
       (desc common) (desc (fst (translateIoPackage translateText common))).
Proof.
  rewrite translateIoPackage_eq. cbn [fst title news titleLang desc].
  split; [reflexivity|]. split; [|split].
  - unfold newsRel. destruct (news common) as [n|]; cbn [option_map]; [|exact I].
    induction n as [|[k e] n IH]; cbn [map]; constructor; [|exact IH].
    split; [reflexivity|]. apply translateNotExisting_fillsEntry.
  - unfold fieldRel. destruct (titleLang common) as [e|]; cbn [option_map]; [|exact I].
    apply translateNotExisting_fillsEntry.
  - unfold fieldRel. destruct (desc common) as [e|]; cbn [option_map]; [|exact I].
    apply translateNotExisting_fillsEntry.
Qed.

(** X24. The calls of [translateIoPackage], in order: for the news entries
    in their order, then the title entry, then the description, each entry
    with a source text gets one call per language of the set it has no
    non-empty value for, with that text; an entry without a source text
    gets none. *)
Theorem translateIoPackage_calls (common : Common) :
  snd (translateIoPackage translateText common)
  = flat_map (fun eb => callsFor (fst eb) (snd eb)) (entriesOf common).
Proof.
  rewrite translateIoPackage_eq. cbn [snd]. unfold entriesOf.
  rewrite !flat_map_app. f_equal; [|f_equal].
  - destruct (news common) as [n|]; [|reflexivity].
    induction n as [|[k e] n IH]; [reflexivity|].
    cbn [flat_map map fst snd]. now rewrite IH, translateNotExisting_calls.
  - destruct (titleLang common) as [e|]; [|reflexivity].
    cbn [flat_map fst snd]. now rewrite app_nil_r, translateNotExisting_calls.
  - destruct (desc common) as [e|]; [|reflexivity].
    cbn [flat_map fst snd]. now rewrite app_nil_r, translateNotExisting_calls.
Qed.

(** *** A second run *)

Hypothesis translateText_nonempty :
  forall t lang, t <> "" -> translateText t lang <> "".

Lemma notExisting_loop_settled (text : string) (ls : list string) (obj : Entry)
  (log : list Call) :
  (forall l, In l ls -> falsy (Obj.get obj l) = false) ->
  fold_left (notExistingStep translateText text) ls (obj, log) = (obj, log).
Proof.
  induction ls as [|l ls IH]; intros H; [reflexivity|].
  cbn [fold_left]. unfold notExistingStep at 2.
  rewrite (H l (or_introl eq_refl)). apply IH. intros l' Hl'. apply H. now right.
Qed.

Lemma translateNotExisting_twice (obj : Entry) (baseText : option string) :
  tne (fst (tne obj baseText)) baseText = (fst (tne obj baseText), []).
Proof.
  destruct (sourceText obj baseText) as [t|] eqn:Es.
  - assert (Hne : t <> "").
    { unfold sourceText in Es. destruct (jsOr (Obj.get obj "en") baseText) as [t0|];
        [|discriminate].
      destruct (String.eqb t0 "") eqn:E0; [discriminate|].
      apply String.eqb_neq in E0. congruence. }
    destruct (translateNotExisting_fillsEntry obj baseText) as [Hkeep [_ [Hfill _]]].
    set (obj' := fst (tne obj baseText)) in *.
    assert (Hfull : forall l, In l getLanguages -> falsy (Obj.get obj' l) = false).
    { intros l Hl. destruct (falsy (Obj.get obj l)) eqn:Ef.
      - rewrite (Hfill t l Es Hl Ef). simpl.
        apply String.eqb_neq. now apply translateText_nonempty.
      - rewrite Hkeep; [exact Ef | unfold truthy; now rewrite Ef]. }
    rewrite (translateNotExisting_eq obj' baseText).
    destruct (sourceText obj' baseText) as [t'|]; [|reflexivity].
    now apply notExisting_loop_settled.
  - assert (Hsame : fst (tne obj baseText) = obj).
    { rewrite translateNotExisting_eq, Es. reflexivity. }
    rewrite Hsame, translateNotExisting_eq, Es. reflexivity.
Qed.

(** X25. With a capability that never answers a non-empty text with an
    empty one, a second run of [translateIoPackage] on what the first one
    wrote changes nothing and calls nothing. *)
Theorem translateIoPackage_second_run (common : Common) :
  translateIoPackage translateText (fst (translateIoPackage translateText common))
  = (fst (translateIoPackage translateText common), []).
Proof.
  rewrite (translateIoPackage_eq common). cbn [fst].
  rewrite translateIoPackage_eq. cbn [title news titleLang desc].
  assert (Hnews : forall n : Obj.t Entry,
            map (fun ke => (fst ke, fst (tne (snd ke) None)))
                (map (fun ke => (fst ke, fst (tne (snd ke) None))) n)
            = map (fun ke => (fst ke, fst (tne (snd ke) None))) n
            /\ flat_map (fun ke => snd (tne (snd ke) None))
                        (map (fun ke => (fst ke, fst (tne (snd ke) None))) n) = []).
  { induction n as [|[k e] n [IH1 IH2]]; [split; reflexivity|].
    cbn [map flat_map fst snd]. rewrite IH1, IH2, translateNotExisting_twice.
    split; reflexivity. }
  destruct (news common) as [n|], (titleLang common) as [e1|], (desc common) as [e2|];
    cbn [option_map];
    rewrite ?translateNotExisting_twice, ?(proj1 (Hnews _)), ?(proj2 (Hnews _));
    reflexivity.
Qed.

End IoPackage.

Lemma tagTranslate_nonempty (t lang : string) : t <> "" -> tagTranslate t lang <> "".
Proof.
  intros _. unfold tagTranslate. destruct lang; simpl; discriminate.
Defined.

Lemma translateIoPackage_second_run_example :
  (forall t lang, t <> "" -> tagTranslate t lang <> "")
  /\ translateIoPackage tagTranslate
       (fst (translateIoPackage tagTranslate
               (mkCommon (Some [("1.0.0", [("en", "First")])])
                         (Some [("de", "Titel")]) (Some "Title") None)))
     = (fst (translateIoPackage tagTranslate
               (mkCommon (Some [("1.0.0", [("en", "First")])])
                         (Some [("de", "Titel")]) (Some "Title") None)), []).
Proof.
  split; [exact tagTranslate_nonempty|].
  apply (translateIoPackage_second_run tagTranslate tagTranslate_nonempty).
Defined.
